(** * BioSim: a shallow embedding of the simulation core

    The development follows the C++ sources [Animal.cpp], [Map.cpp],
    [BioSim.cpp] and [toolbox/read_parameters.{h,cpp}].

    Conventions of the embedding:
    - a C++ [double] is a real number (exact arithmetic), an [int] an
      integer [Z], reduced to 32 bits in two's complement where the code
      increments it, an [unsigned int] a [Z] reduced modulo [2^32];
    - a pointer to an [Animal] is a [positive] address into the free store,
      a pointer to a [Cell] is the key of its node in [Map::cells], a pointer
      to a [Species] is its position in [Simulation::species]; a pointer
      that may be [NULL] is an [option];
    - a [std::set] is a [gset], a [std::map] a [gmap];
    - member functions that read or write objects run in the monad [M],
      whose outcome is a value and a new world, a C++ exception, or
      [Undefined] for the dereference of a null or dangling pointer. *)

From Stdlib Require Import Reals Lra ZArith Ascii String.
From stdpp Require Import gmap strings list fin_maps.

(** ** Comparisons on [double] *)

Definition Rltb (x y : R) : bool := if Rlt_dec x y then true else false.
Definition Rleb (x y : R) : bool := if Rle_dec x y then true else false.
Definition Rgtb (x y : R) : bool := Rltb y x.
Definition Rgeb (x y : R) : bool := Rleb y x.
Definition Reqb (x y : R) : bool := if Req_dec_T x y then true else false.

(** ** Animal.h / Animal.cpp: species parameters and formulas *)

(** [#define ANIMAL_INV -1.0] *)
Definition ANIMAL_INV : R := (-1)%R.

Record Species := {
  name : string;
  _v_fod : R;
  _beta : R;
  _sigma : R;
  _v_min : R;
  _a_halv : Z;
  _phi_alder : R;
  _v_halv_under : R;
  _phi_under : R;
  _v_halv_over : R;
  _phi_over : R;
  _mu : R;
  _gamma : R;
  _zeta : R;
  _omega : R;
  _F : R;
  _DeltaPhiMax : R;
  predatory : bool
}.

(** [BioSim::func_q] *)
Definition func_q (x x_half phi : R) (pos : bool) : R :=
  let coeff := if pos then 1%R else (-1)%R in
  (1 / (1 + exp (coeff * phi * (x - x_half))))%R.

(** [Species::fitness] *)
Definition Species_fitness (sp : Species) (weight : R) (age : Z) : R :=
  if Rltb weight (_v_min sp) then 0%R
  else (func_q (IZR age) (IZR (_a_halv sp)) (_phi_alder sp) true
        * func_q weight (_v_halv_under sp) (_phi_under sp) false
        * func_q weight (_v_halv_over sp) (_phi_over sp) true)%R.

(** [Species::birthloss], [Species::canBreed], [Species::weightloss],
    [Species::birthweight], [Species::deltaPhiMax] *)
Definition Species_birthloss (sp : Species) : R := (_zeta sp * _v_fod sp)%R.
Definition Species_canBreed (sp : Species) (weight : R) : bool :=
  Rgeb weight (_v_min sp + Species_birthloss sp)%R.
Definition Species_weightloss (sp : Species) (weight : R) : R :=
  (_sigma sp * weight)%R.
Definition Species_birthweight (sp : Species) : R := _v_fod sp.
Definition Species_deltaPhiMax (sp : Species) : R := _DeltaPhiMax sp.

(** The local [catch_chance] of [Animal::eat], as a function of the two
    fitness values and of [isa->deltaPhiMax()]. *)
Definition catch_chance (phi_pred phi_prey delta_phi_max : R) : R :=
  let delta_phi := (phi_pred - phi_prey)%R in
  if Rleb phi_pred phi_prey then 0%R
  else if Rgtb delta_phi_max delta_phi && Rgtb delta_phi 0 then
    (delta_phi / delta_phi_max)%R
  else 1%R.

(** The death probability as the specification words it: 1 for a fitness
    that is not positive, [omega * (1 - fitness)] otherwise.  The code of
    [Species::die] is embedded below as [Species_die]. *)
Definition deathProbability (sp : Species) (phi : R) : R :=
  if Rleb phi 0 then 1%R else (_omega sp * (1 - phi))%R.

(** ** toolbox/read_parameters: the parameter reader *)

Inductive exn := runtime_error (what : string).

(** One value word of a parameter file: its text, and what [operator>>]
    extracts from it as a [double] and as an [int] ([None] when the
    extraction fails).  The words embedded are those that an extraction
    consumes as a whole or not at all. *)
Record word := { text : string; as_double : option R; as_int : option Z }.

Inductive pvalue := PDouble (r : R) | PInt (z : Z) | PString (s : string).

(** [PlainToken<T>]: the type [T] is the constructor of [default_].  This
    is the only kind of token that [Species] and [Map] register; the
    [ListToken<T>] of list parameters, which only [Simulation] registers,
    is not embedded, and the reader below is the reader of plain
    parameters. *)
Record Token := {
  has_default_ : bool;
  default_ : pvalue;
  read_ : bool;
  value_ : pvalue
}.

(** The two constructors of [PlainToken]; [T()] is [0.0], [0] or the empty
    string. *)
Definition PlainToken (zero : pvalue) : Token :=
  {| has_default_ := false; default_ := zero; read_ := false; value_ := zero |}.
Definition PlainToken_deflt (deflt : pvalue) : Token :=
  {| has_default_ := true; default_ := deflt; read_ := false; value_ := deflt |}.

(** [PlainToken<T>::reset] *)
Definition Token_reset (t : Token) : Token :=
  {| has_default_ := has_default_ t; default_ := default_ t;
     read_ := false; value_ := default_ t |}.

(** [strm >> value_] at the type of the token. *)
Definition extract (like : pvalue) (w : word) : option pvalue :=
  match like with
  | PDouble _ => PDouble <$> as_double w
  | PInt _ => PInt <$> as_int w
  | PString _ => Some (PString (text w))
  end.

(** [PlainToken<T>::read] *)
Definition Token_read (pname : string) (t : Token) (w : word) : exn + Token :=
  if read_ t then
    inl (runtime_error ("PlainToken::read(): " ++ pname ++ " has been read before."))
  else match extract (default_ t) w with
       | None => inl (runtime_error ("PlainToken::read(): Reading " ++ pname ++ " failed."))
       | Some v => inr {| has_default_ := has_default_ t; default_ := default_ t;
                          read_ := true; value_ := v |}
       end.

(** [PlainToken<T>::is_ready] *)
Definition Token_is_ready (t : Token) : bool := has_default_ t || read_ t.

(** The loop of [ReadParameters::read] over the (name, value) lines of a
    file that could be opened, comments skipped.  [file] holds the complete
    lines: a name that ends the file with no character after it sets
    [eof], leaves the loop at [if (istrm.eof()) break] before it is looked
    up, and is not a line of [file]. *)
Fixpoint read_lines (parameters_ : gmap string Token) (file : list (string * word))
  : exn + gmap string Token :=
  match file with
  | [] => inr parameters_
  | (pname, w) :: rest =>
      match parameters_ !! pname with
      | None => inl (runtime_error ("ReadParameters::read(): unknown parameter name " ++ pname))
      | Some t =>
          match Token_read pname t w with
          | inl e => inl e
          | inr t' => read_lines (<[pname := t']> parameters_) rest
          end
      end
  end.

(** [ReadParameters::read]: reset, read every line, then check that all
    tokens are ready ([write_target_]).  The result maps every registered
    name to the value written to its target. *)
Definition ReadParameters_read (parameters_ : gmap string Token)
    (file : list (string * word)) : exn + gmap string pvalue :=
  match read_lines (Token_reset <$> parameters_) file with
  | inl e => inl e
  | inr toks =>
      if forallb (λ kt, Token_is_ready kt.2) (map_to_list toks) then
        inr (value_ <$> toks)
      else
        inl (runtime_error
               ("ReadParameters::read(): writing failed with message:"
                ++ String "010" "  ReadParameters::write_target_():not all parameters ready for writing."))
  end.

(** [Species::Species]: the parameters registered with the reader. *)
Definition Species_parameters : gmap string Token :=
  list_to_map [
    ("v_fod", PlainToken (PDouble 0));
    ("beta", PlainToken (PDouble 0));
    ("sigma", PlainToken (PDouble 0));
    ("v_min", PlainToken (PDouble 0));
    ("a_halv", PlainToken (PInt 0));
    ("phi_alder", PlainToken (PDouble 0));
    ("v_halv_under", PlainToken (PDouble 0));
    ("phi_under", PlainToken (PDouble 0));
    ("v_halv_over", PlainToken (PDouble 0));
    ("phi_over", PlainToken (PDouble 0));
    ("mu", PlainToken (PDouble 0));
    ("gamma", PlainToken (PDouble 0));
    ("zeta", PlainToken (PDouble 0));
    ("omega", PlainToken (PDouble 0));
    ("F", PlainToken_deflt (PDouble ANIMAL_INV));
    ("DeltaPhiMax", PlainToken_deflt (PDouble ANIMAL_INV));
    ("Navn", PlainToken_deflt (PString ""))
  ]%string.

(** The targets of the registered parameters. *)
Definition target_double (vals : gmap string pvalue) (pname : string) : R :=
  match vals !! pname with Some (PDouble r) => r | _ => 0%R end.
Definition target_int (vals : gmap string pvalue) (pname : string) : Z :=
  match vals !! pname with Some (PInt z) => z | _ => 0%Z end.
Definition target_string (vals : gmap string pvalue) (pname : string) : string :=
  match vals !! pname with Some (PString s) => s | _ => ""%string end.

(** [Species::init]: [params] is the path of the file, [file] its lines. *)
Definition Species_init (params : string) (file : list (string * word))
  : exn + Species :=
  match ReadParameters_read Species_parameters file with
  | inl e => inl e
  | inr vals =>
      let F := target_double vals "F" in
      let DeltaPhiMax := target_double vals "DeltaPhiMax" in
      let build (pred : bool) :=
        let name0 := target_string vals "Navn" in
        {| name := if String.eqb name0 "" then (if pred then "R" else "B") else name0;
           _v_fod := target_double vals "v_fod";
           _beta := target_double vals "beta";
           _sigma := target_double vals "sigma";
           _v_min := target_double vals "v_min";
           _a_halv := target_int vals "a_halv";
           _phi_alder := target_double vals "phi_alder";
           _v_halv_under := target_double vals "v_halv_under";
           _phi_under := target_double vals "phi_under";
           _v_halv_over := target_double vals "v_halv_over";
           _phi_over := target_double vals "phi_over";
           _mu := target_double vals "mu";
           _gamma := target_double vals "gamma";
           _zeta := target_double vals "zeta";
           _omega := target_double vals "omega";
           _F := F;
           _DeltaPhiMax := DeltaPhiMax;
           predatory := pred |} in
      if negb (Reqb F ANIMAL_INV) then inr (build false)
      else if negb (Reqb DeltaPhiMax ANIMAL_INV) then inr (build true)
      else inl (runtime_error ("Animal in " ++ params ++ " not fully defined."))
  end%string.

(** ** Map.h / Map.cpp: terrain kinds, cells and the grid *)

(** [unsigned int] arithmetic wraps modulo [2^32]. *)
Definition wrap32 (z : Z) : Z := z mod 2 ^ 32.

(** [int] arithmetic as the compiled program performs it: 32 bits in two's
    complement, so that the successor of [INT_MAX] is [INT_MIN]. *)
Definition wrap_int (z : Z) : Z := ((z + 2 ^ 31) mod 2 ^ 32 - 2 ^ 31)%Z.

(** [BioSim::coordPack], [BioSim::coordUnpack] *)
Definition coordPack (x y : Z) : Z := wrap32 (wrap32 (Z.shiftl x 16) + y).
Definition coordUnpack (coord : Z) : Z * Z := (Z.shiftr coord 16, Z.land coord 65535).

Record ArchCell := {
  _name : ascii;
  _alpha : R;
  _maxfeed : R;
  _live : bool
}.

Record Cell := {
  _neighbours : list (option Z);
  archetype : option ArchCell;
  feed : R;
  habitants : gset positive;
  _x_loc : Z;
  _y_loc : Z
}.

(** [Cell::Cell()]: the zombie cell that [std::map::operator[]] creates for
    a missing key; only [archetype] is initialised by the constructor. *)
Definition Cell_zombie : Cell :=
  {| _neighbours := []; archetype := None; feed := 0%R; habitants := ∅;
     _x_loc := 0; _y_loc := 0 |}.

(** [Cell::Cell] from a terrain kind *)
Definition Cell_new (type : ArchCell) : Cell :=
  {| _neighbours := []; archetype := Some type; feed := _maxfeed type;
     habitants := ∅; _x_loc := 0; _y_loc := 0 |}.

(** The fields of [Map] that the simulation core reads. *)
Record Map := {
  _rows : Z;
  _cols : Z;
  cells : gmap Z Cell
}.

Record Animal := {
  isa : nat;
  _vekt : R;
  _alder : Z;
  _loci : option Z;
  _fitness : R
}.

(** ** BioSim.h: the simulation, the free store and the random generator *)

(** [geography], [species] and [animals] are the members of [Simulation];
    [store] is the free store holding the [Animal] objects; [randomGen] is
    the sequence of numbers that [toolbox::randomGen().drand()] returns and
    [drawn] counts the draws made so far. *)
Record World := {
  geography : Map;
  species : list Species;
  animals : gset positive;
  store : gmap positive Animal;
  randomGen : nat → R;
  drawn : nat
}.

Definition set_cells (f : gmap Z Cell → gmap Z Cell) (w : World) : World :=
  {| geography := {| _rows := _rows (geography w); _cols := _cols (geography w);
                     cells := f (cells (geography w)) |};
     species := species w; animals := animals w; store := store w;
     randomGen := randomGen w; drawn := drawn w |}.

Definition set_store (f : gmap positive Animal → gmap positive Animal) (w : World) : World :=
  {| geography := geography w; species := species w; animals := animals w;
     store := f (store w); randomGen := randomGen w; drawn := drawn w |}.

Definition set_animals (f : gset positive → gset positive) (w : World) : World :=
  {| geography := geography w; species := species w; animals := f (animals w);
     store := store w; randomGen := randomGen w; drawn := drawn w |}.

(** *** The monad of member functions *)

Inductive outcome (A : Type) : Type :=
| Ok (a : A) (w : World)
| Throw (e : exn)
| Undefined.
Arguments Ok {A} a w.
Arguments Throw {A} e.
Arguments Undefined {A}.

Definition M (A : Type) : Type := World → outcome A.

Definition ret {A} (a : A) : M A := λ w, Ok a w.
Definition bind {A B} (m : M A) (k : A → M B) : M B :=
  λ w, match m w with
       | Ok a w' => k a w'
       | Throw e => Throw e
       | Undefined => Undefined
       end.
Definition undefined {A} : M A := λ _, Undefined.

Notation "'let*' x := m 'in' k" := (bind m (λ x, k))
  (at level 10, x pattern, m at level 100, k at level 200).
Notation "m ;;; k" := (bind m (λ _, k))
  (at level 100, k at level 200, right associativity).

(** A loop over a vector that collects one result per element. *)
Fixpoint for_each {A B} (f : A → M B) (l : list A) : M (list B) :=
  match l with
  | [] => ret []
  | x :: l' => let* y := f x in let* ys := for_each f l' in ret (y :: ys)
  end.

(** [*p] for the three kinds of pointer. *)
Definition deref_animal (p : positive) : M Animal :=
  λ w, match store w !! p with Some a => Ok a w | None => Undefined end.
Definition assign_animal (p : positive) (a : Animal) : M unit :=
  λ w, match store w !! p with
       | Some _ => Ok tt (set_store (insert p a) w)
       | None => Undefined
       end.
Definition deref_cell (c : Z) : M Cell :=
  λ w, match cells (geography w) !! c with Some x => Ok x w | None => Undefined end.
Definition assign_cell (c : Z) (x : Cell) : M unit :=
  λ w, match cells (geography w) !! c with
       | Some _ => Ok tt (set_cells (insert c x) w)
       | None => Undefined
       end.
Definition deref_species (g : nat) : M Species :=
  λ w, match species w !! g with Some sp => Ok sp w | None => Undefined end.
Definition deref_archetype (x : Cell) : M ArchCell :=
  match archetype x with Some t => ret t | None => undefined end.

(** [toolbox::randomGen().drand()] *)
Definition drand : M R :=
  λ w, Ok (randomGen w (drawn w))
          {| geography := geography w; species := species w; animals := animals w;
             store := store w; randomGen := randomGen w; drawn := S (drawn w) |}.

(** *** Map *)

(** [Map::at(unsigned int coord)]: [&cells[coord]], which creates a zombie
    cell when the key is missing. *)
Definition Map_at (coord : Z) : M Z :=
  λ w, match cells (geography w) !! coord with
       | Some _ => Ok coord w
       | None => Ok coord (set_cells (insert coord Cell_zombie) w)
       end.

(** [Map::at(unsigned int x, unsigned int y)] *)
Definition Map_at_xy (x y : Z) : M (option Z) :=
  λ w, if (_cols (geography w) <=? x)%Z || (_rows (geography w) <=? y)%Z
       then Ok None w
       else (let* c := Map_at (coordPack x y) in ret (Some c)) w.

(** [Map::candidatesAt(unsigned int x, unsigned int y)] *)
Definition Map_candidatesAt (x y : Z) : M (list (option Z)) :=
  λ w,
  (let* west := if (x =? 0)%Z then Map_at_xy x y else Map_at_xy (wrap32 (x - 1)) y in
   let* north := if (y =? 0)%Z then Map_at_xy x y else Map_at_xy x (wrap32 (y - 1)) in
   let* east := if (x =? _cols (geography w))%Z then Map_at_xy x y
                else Map_at_xy (wrap32 (x + 1)) y in
   let* south := if (y =? _rows (geography w))%Z then Map_at_xy x y
                 else Map_at_xy x (wrap32 (y + 1)) in
   ret [west; north; east; south]) w.

(** [Map::candidatesAt(unsigned int coord)] *)
Definition Map_candidatesAt_coord (coord : Z) : M (list (option Z)) :=
  let (x, y) := coordUnpack coord in Map_candidatesAt x y.

(** *** Cell *)

Definition with_habitants (h : gset positive) (x : Cell) : Cell :=
  {| _neighbours := _neighbours x; archetype := archetype x; feed := feed x;
     habitants := h; _x_loc := _x_loc x; _y_loc := _y_loc x |}.
Definition with_feed (f : R) (x : Cell) : Cell :=
  {| _neighbours := _neighbours x; archetype := archetype x; feed := f;
     habitants := habitants x; _x_loc := _x_loc x; _y_loc := _y_loc x |}.

(** [Cell::addAnimal()] *)
Definition Cell_addAnimal_query (c : Z) : M bool :=
  let* x := deref_cell c in
  let* t := deref_archetype x in
  ret (_live t).

(** [Cell::addAnimal] with an animal *)
Definition Cell_addAnimal (c : Z) (beast : positive) : M bool :=
  let* x := deref_cell c in
  let* t := deref_archetype x in
  if negb (_live t) then ret false
  else assign_cell c (with_habitants ({[beast]} ∪ habitants x) x);;; ret true.

(** [Cell::removeAnimal] *)
Definition Cell_removeAnimal (c : Z) (beast : positive) : M unit :=
  let* x := deref_cell c in
  assign_cell c (with_habitants (habitants x ∖ {[beast]}) x).

(** [Cell::graze(double)] *)
Definition Cell_graze (c : Z) (ammount : R) : M R :=
  let* x := deref_cell c in
  if Rgeb (feed x) ammount then
    assign_cell c (with_feed (feed x - ammount) x);;; ret ammount
  else
    let retval := feed x in
    assign_cell c (with_feed 0 x);;; ret retval.

(** [Cell::regrow] *)
Definition Cell_regrow (c : Z) : M unit :=
  let* x := deref_cell c in
  let* t := deref_archetype x in
  assign_cell c (with_feed (feed x + _alpha t * (_maxfeed t - feed x)) x).

(** [Cell::animals] *)
Definition Cell_animals (c : Z) : M (list positive) :=
  let* x := deref_cell c in ret (elements (habitants x)).

(** The loop of [Cell::cellMates] over the habitants. *)
Fixpoint cellMates_loop (genus : nat) (minAge : Z) (l : list positive)
  : M (list positive) :=
  match l with
  | [] => ret []
  | p :: l' =>
      let* a := deref_animal p in
      let* retval := cellMates_loop genus minAge l' in
      if Nat.eqb (isa a) genus && (minAge <=? _alder a)%Z
      then ret (p :: retval) else ret retval
  end.

(** [Cell::cellMates(Species*, bool breedersOnly)] *)
Definition Cell_cellMates (c : Z) (genus : nat) (breedersOnly : bool)
  : M (list positive) :=
  let minAge := if breedersOnly then 1%Z else 0%Z in
  let* x := deref_cell c in
  cellMates_loop genus minAge (elements (habitants x)).

(** [Cell::neighbours()] *)
Definition Cell_neighbours (c : Z) : M (list (option Z)) :=
  let* x := deref_cell c in ret (_neighbours x).

(** *** Species: the member functions that draw random numbers *)

(** [Species::willWander] *)
Definition Species_willWander (g : nat) (beastPhi : R) : M bool :=
  let* sp := deref_species g in
  let* u := drand in
  ret (Rltb u (_mu sp * beastPhi)).

(** [Species::die] *)
Definition Species_die (g : nat) (beastPhi : R) : M bool :=
  let* sp := deref_species g in
  if Rleb beastPhi 0 then ret true
  else
    let death := (_omega sp * (1 - beastPhi))%R in
    let* u := drand in
    ret (Rltb u death).

(** *** Animal *)

Definition with_loci (l : option Z) (a : Animal) : Animal :=
  {| isa := isa a; _vekt := _vekt a; _alder := _alder a; _loci := l;
     _fitness := _fitness a |}.
Definition with_fitness (phi : R) (a : Animal) : Animal :=
  {| isa := isa a; _vekt := _vekt a; _alder := _alder a; _loci := _loci a;
     _fitness := phi |}.

(** [Animal::fitness]: the cached value, recomputed when the cache holds
    [ANIMAL_INV]. *)
Definition Animal_fitness (p : positive) : M R :=
  let* a := deref_animal p in
  if Reqb (_fitness a) ANIMAL_INV then
    let* sp := deref_species (isa a) in
    let phi := Species_fitness sp (_vekt a) (_alder a) in
    assign_animal p (with_fitness phi a);;; ret phi
  else ret (_fitness a).

(** [Animal::moveTo] *)
Definition Animal_moveTo (p : positive) (destination : option Z) : M bool :=
  match destination with
  | None => ret false
  | Some d =>
      let* added := Cell_addAnimal d p in
      if added then
        let* a := deref_animal p in
        match _loci a with
        | Some l => if negb (l =? d)%Z then Cell_removeAnimal l p else ret tt
        | None => ret tt
        end;;;
        assign_animal p (with_loci (Some d) a);;;
        ret true
      else ret false
  end.

(** [new Animal]: the allocation of an object at an address that is not in
    use. *)
Definition alloc_animal (a : Animal) : M positive :=
  λ w, let p := fresh (dom (store w)) in Ok p (set_store (insert p a) w).

(** [Animal::Animal(Species * type, Cell * location)].  [_alder] and
    [_fitness] are not initialised before [moveTo] runs ([moveTo] does not
    read them); both are assigned after it. *)
Definition Animal_new (type : nat) (location : option Z) : M positive :=
  let* sp := deref_species type in
  let* p := alloc_animal {| isa := type; _vekt := Species_birthweight sp;
                            _alder := 0; _loci := None; _fitness := ANIMAL_INV |} in
  Animal_moveTo p location;;;
  let* a := deref_animal p in
  assign_animal p {| isa := isa a; _vekt := _vekt a; _alder := 0; _loci := _loci a;
                     _fitness := Species_fitness sp (_vekt a) 0 |};;;
  ret p.

(** [Animal::breed] *)
Definition Animal_breed (p : positive) : M (option positive) :=
  let* a := deref_animal p in
  let* sp := deref_species (isa a) in
  if negb (_alder a =? 0)%Z && Species_canBreed sp (_vekt a) then
    assign_animal p {| isa := isa a; _vekt := (_vekt a - Species_birthloss sp)%R;
                       _alder := _alder a; _loci := _loci a;
                       _fitness := ANIMAL_INV |};;;
    let* child := Animal_new (isa a) (_loci a) in
    ret (Some child)
  else ret None.

(** [Animal::adjust] *)
Definition Animal_adjust (p : positive) (alder : Z) (vekt : R) : M unit :=
  let* a := deref_animal p in
  assign_animal p {| isa := isa a; _vekt := vekt; _alder := alder;
                     _loci := _loci a; _fitness := ANIMAL_INV |}.

(** [Animal::age]; [_alder++] on an [int]. *)
Definition Animal_age (p : positive) : M unit :=
  let* a := deref_animal p in
  let* sp := deref_species (isa a) in
  assign_animal p {| isa := isa a;
                     _vekt := (_vekt a - Species_weightloss sp (_vekt a))%R;
                     _alder := wrap_int (_alder a + 1);
                     _loci := _loci a; _fitness := ANIMAL_INV |}.

(** [Animal::fatten] *)
Definition Animal_fatten (p : positive) (delta_w : R) : M unit :=
  let* a := deref_animal p in
  assign_animal p {| isa := isa a; _vekt := (_vekt a + delta_w)%R;
                     _alder := _alder a; _loci := _loci a;
                     _fitness := ANIMAL_INV |}.

(** [Animal::eat] *)
Definition Animal_eat (p prey : positive) : M bool :=
  let* phi_pred := Animal_fitness p in
  let* phi_prey := Animal_fitness prey in
  let* a := deref_animal p in
  let* sp := deref_species (isa a) in
  let delta_phi_max := Species_deltaPhiMax sp in
  let* u := drand in
  let eaten := Rltb u (catch_chance phi_pred phi_prey delta_phi_max) in
  ret eaten.

(** The loop of [Species::feed] over the cellmates of a predator. *)
Fixpoint feed_loop (sp : Species) (beast : positive) (cellmates : list positive)
  : M (list positive) :=
  match cellmates with
  | [] => ret []
  | mate :: rest =>
      let* m := deref_animal mate in
      let* b := deref_animal beast in
      let* eaten :=
        if negb (isa m =? isa b)%nat && negb (Reqb (_vekt m) 0) then
          let* caught := Animal_eat beast mate in
          if caught then
            let* m' := deref_animal mate in
            Animal_fatten beast (_beta sp * _vekt m');;; ret [mate]
          else ret []
        else ret [] in
      let* retval := feed_loop sp beast rest in
      ret (eaten ++ retval)
  end.

(** [Animal::location] of an animal that has one. *)
Definition Animal_location (p : positive) : M Z :=
  let* a := deref_animal p in
  match _loci a with Some l => ret l | None => undefined end.

(** [Species::feed] *)
Definition Species_feed (g : nat) (beast : positive) : M (list positive) :=
  let* sp := deref_species g in
  if predatory sp then
    let* l := Animal_location beast in
    let* cellmates := Cell_animals l in
    feed_loop sp beast cellmates
  else
    let* l := Animal_location beast in
    let* grass := Cell_graze l (_F sp) in
    Animal_fatten beast (_beta sp * grass);;;
    ret [beast].

(** [Animal::feed] *)
Definition Animal_feed (p : positive) : M (list positive) :=
  let* a := deref_animal p in
  Species_feed (isa a) p.

(** [Animal::die] *)
Definition Animal_die (p : positive) : M bool :=
  let* a := deref_animal p in
  let* death :=
    if Reqb (_vekt a) 0 then ret true
    else let* phi := Animal_fitness p in Species_die (isa a) phi in
  if death then
    let* a' := deref_animal p in
    match _loci a' with
    | Some l => Cell_removeAnimal l p
    | None => ret tt
    end;;;
    assign_animal p (with_loci None a');;;
    ret true
  else ret false.

(** [delete p]: [Animal::~Animal], then the object is freed. *)
Definition Animal_delete (p : positive) : M unit :=
  let* a := deref_animal p in
  match _loci a with
  | Some l => Cell_removeAnimal l p
  | None => ret tt
  end;;;
  λ w, Ok tt (set_store (delete p) w).

(** [Species::birthChance] *)
Definition Species_birthChance (g : nat) (beast : positive) (largeN : Z) : M R :=
  let* sp := deref_species g in
  let* phi := Animal_fitness beast in
  ret (phi * _gamma sp * IZR (largeN - 1))%R.

(** The inner loop of [Cell::breed] over the animals of one species. *)
Fixpoint breed_beasts (g : nat) (largeN : Z) (theseBeasts : list positive)
  : M (list positive) :=
  match theseBeasts with
  | [] => ret []
  | beast :: rest =>
      let* birthchance := Species_birthChance g beast largeN in
      let* u := drand in
      let* offspring := if Rltb u birthchance then Animal_breed beast else ret None in
      let* retval := breed_beasts g largeN rest in
      ret (match offspring with Some o => o :: retval | None => retval end)
  end.

(** One iteration of the outer loop of [Cell::breed]: the species [g]. *)
Definition Cell_breed_genus (c : Z) (g : nat) : M (list positive) :=
  let* theseBeasts := Cell_cellMates c g false in
  let largeN := Z.of_nat (length theseBeasts) in
  breed_beasts g largeN theseBeasts.

(** [Cell::breed] *)
Fixpoint Cell_breed (c : Z) (genera : list nat) : M (list positive) :=
  match genera with
  | [] => ret []
  | g :: rest =>
      let* born := Cell_breed_genus c g in
      let* retval := Cell_breed c rest in
      ret (born ++ retval)
  end.

(** *** Simulation *)

(** [Simulation::genus]: the first species with the given name. *)
Fixpoint genus_from (i : nat) (l : list Species) (typeName : string) : option nat :=
  match l with
  | [] => None
  | sp :: l' => if String.eqb (name sp) typeName then Some i
                else genus_from (S i) l' typeName
  end.
Definition Simulation_genus (typeName : string) : M (option nat) :=
  λ w, Ok (genus_from 0 (species w) typeName) w.

(** [Simulation::vivify(Species *, x, y)] *)
Definition Simulation_vivify (archetype : nat) (x y : Z) : M (option positive) :=
  let* locus := Map_at_xy x y in
  match locus with
  | None => ret None
  | Some c =>
      let* ok := Cell_addAnimal_query c in
      if negb ok then ret None
      else
        let* newBeast := Animal_new archetype (Some c) in
        (λ w, Ok tt (set_animals (union {[newBeast]}) w));;;
        ret (Some newBeast)
  end.

(** [Simulation::insertAnimal(Species *, age, weight, x, y)] *)
Definition Simulation_insertAnimal (archetype : option nat) (age : Z) (weight : R)
    (x y : Z) : M (option positive) :=
  match archetype with
  | None => ret None
  | Some g =>
      let* newBeast := Simulation_vivify g x y in
      match newBeast with
      | None => ret None
      | Some p => Animal_adjust p age weight;;; ret (Some p)
      end
  end.

(** [Simulation::insertAnimal(name, age, weight, x, y)]: one record of a
    population file. *)
Definition Simulation_insertAnimal_name (typeName : string) (age : Z) (weight : R)
    (x y : Z) : M (option positive) :=
  let* g := Simulation_genus typeName in
  Simulation_insertAnimal g age weight x y.

(** The breeding loop of [Simulation::step] over the cells returned by
    [mapMap]; [allSpecies] points to every element of [species]. *)
Definition allSpecies (w : World) : list nat := seq 0 (length (species w)).

Fixpoint step_breeding (cells : list Z) : M unit :=
  match cells with
  | [] => ret tt
  | c :: rest =>
      let* newBeasts := (λ w, Cell_breed c (allSpecies w) w) in
      (λ w, Ok tt (set_animals (union (list_to_set newBeasts)) w));;;
      step_breeding rest
  end.

(** [std::sort(feedBeasts.begin(), feedBeasts.end(), p_fit)].  Every
    comparison calls [Animal::fitness] on both animals, which fills their
    caches; with fewer than two elements nothing is compared.  The order is
    that of an insertion sort with [p_fit] ("greater fitness first"); among
    animals of equal fitness, where [std::sort] leaves the order
    unspecified, this is one of the orders it may return. *)
Fixpoint insert_fit (x : positive * R) (l : list (positive * R)) : list (positive * R) :=
  match l with
  | [] => [x]
  | y :: l' => if Rgtb x.2 y.2 then x :: y :: l' else y :: insert_fit x l'
  end.
Definition sort_p_fit (feedBeasts : list positive) : M (list positive) :=
  match feedBeasts with
  | [] | [_] => ret feedBeasts
  | _ =>
      let* keyed := for_each (λ p, let* phi := Animal_fitness p in ret (p, phi))
                             feedBeasts in
      ret (foldr insert_fit [] keyed).*1
  end.

(** [BioSim::part_pred] *)
Definition part_pred (o : positive) : M bool :=
  let* a := deref_animal o in
  let* sp := deref_species (isa a) in
  ret (negb (predatory sp)).

(** [std::stable_partition(feedBeasts.begin(), feedBeasts.end(), part_pred)] *)
Definition stable_partition_part_pred (feedBeasts : list positive) : M (list positive) :=
  let* flagged := for_each (λ o, let* b := part_pred o in ret (o, b)) feedBeasts in
  ret ((filter (λ ob, ob.2 = true) flagged).*1 ++
       (filter (λ ob, ob.2 = false) flagged).*1).

(** The loop of [Simulation::step] that erases and deletes the eaten. *)
Fixpoint erase_food (food : list positive) : M unit :=
  match food with
  | [] => ret tt
  | f :: rest =>
      (λ w, Ok tt (set_animals (λ s, s ∖ {[f]}) w));;;
      Animal_delete f;;;
      erase_food rest
  end.

(** The feeding loop of [Simulation::step]; [pred] and [prey] are the two
    counters that the step prints. *)
Fixpoint feeding_loop (feedBeasts : list positive) (pred prey : Z) : M (Z * Z) :=
  match feedBeasts with
  | [] => ret (pred, prey)
  | fb :: rest =>
      let* food := Animal_feed fb in
      match food with
      | [f] =>
          if (f =? fb)%positive then feeding_loop rest pred (prey + 1)
          else erase_food food;;; feeding_loop rest (pred + 1) (prey - 1)
      | _ =>
          erase_food food;;;
          feeding_loop rest (pred + 1) (prey - Z.of_nat (length food))
      end
  end.

(** Step 6 ("Sustenance") of [Simulation::step]. *)
Definition step_feeding : M (Z * Z) :=
  let* feedBeasts := (λ w, Ok (elements (animals w)) w) in
  let* feedBeasts := sort_p_fit feedBeasts in
  let* feedBeasts := stable_partition_part_pred feedBeasts in
  feeding_loop feedBeasts 0 0.

(** The grid as [Map::init] builds it: a cell at every coordinate of the
    rectangle; coordinates fit the 16 bits that [coordPack] gives them. *)
Definition grid_built (w : World) : Prop :=
  (_cols (geography w) ≤ 2 ^ 16)%Z ∧ (_rows (geography w) ≤ 2 ^ 16)%Z ∧
  ∀ x y, (0 ≤ x < _cols (geography w))%Z → (0 ≤ y < _rows (geography w))%Z →
         is_Some (cells (geography w) !! coordPack x y).

(** ** Vocabulary of the statements *)

(** The value that [Animal::fitness] returns for an animal of species [sp]:
    the cache, or the fitness of its weight and age when the cache holds
    [ANIMAL_INV]. *)
Definition fitness_value (sp : Species) (a : Animal) : R :=
  if Reqb (_fitness a) ANIMAL_INV then Species_fitness sp (_vekt a) (_alder a)
  else _fitness a.

(** The mutual membership of cells and animals: [p] is among the habitants
    of the cell [c] exactly when the animal at [p] has [c] as its location. *)
Definition membership_inv (w : World) : Prop :=
  ∀ (p : positive) (c : Z),
    (∃ x, cells (geography w) !! c = Some x ∧ p ∈ habitants x)
    ↔ (∃ a, store w !! p = Some a ∧ _loci a = Some c).

(** Only cells of a live terrain kind have habitants. *)
Definition residents_live (w : World) : Prop :=
  ∀ (c : Z) (x : Cell) (p : positive),
    cells (geography w) !! c = Some x → p ∈ habitants x →
    ∃ t, archetype x = Some t ∧ _live t = true.

(** The worlds that [Simulation::step] works on: cells and animals agree on
    who lives where, only live cells are inhabited, and every animal points
    to a species of the simulation. *)
Definition breeding_inv (w : World) : Prop :=
  membership_inv w ∧ residents_live w
  ∧ ∀ p a, store w !! p = Some a → is_Some (species w !! isa a).

(** [is_mate w g minAge p]: the test of [Cell::cellMates] on the animal at
    [p]. *)
Definition is_mate (w : World) (g : nat) (minAge : Z) (p : positive) : bool :=
  match store w !! p with
  | Some a => (isa a =? g)%nat && (minAge <=? _alder a)%Z
  | None => false
  end.

(** [born_in P w w']: from [w] to [w'] the species and the terrain kinds
    are unchanged, every animal of [w] is still there with its species, age
    and location, and every animal that is new in [w'] lies in a cell [c]
    and is of a species [g] with [P c g]. *)
Definition born_in (P : Z → nat → Prop) (w w' : World) : Prop :=
  species w' = species w
  ∧ (∀ c x, cells (geography w) !! c = Some x →
            ∃ x', cells (geography w') !! c = Some x' ∧ archetype x' = archetype x)
  ∧ (∀ p a, store w !! p = Some a →
            ∃ a', store w' !! p = Some a' ∧ isa a' = isa a
                  ∧ _alder a' = _alder a ∧ _loci a' = _loci a)
  ∧ (∀ p a', store w !! p = None → store w' !! p = Some a' →
             ∃ c, _loci a' = Some c ∧ P c (isa a')).

(** The worlds of the feeding pass: moreover every animal has a location. *)
Definition feeding_inv (w : World) : Prop :=
  breeding_inv w ∧ ∀ p a, store w !! p = Some a → is_Some (_loci a).

(** [is_predator w p]: the animal at [p] is of a predatory species. *)
Definition is_predator (w : World) (p : positive) : Prop :=
  ∃ a sp, store w !! p = Some a ∧ species w !! isa a = Some sp ∧ predatory sp = true.

(** All predatory animals are of the species [gp]. *)
Definition single_predatory_species (gp : nat) (w : World) : Prop :=
  ∀ p a sp, store w !! p = Some a → species w !! isa a = Some sp →
            predatory sp = true → isa a = gp.

(** [survive D w w']: from [w] to [w'] the species are unchanged, no animal
    is new, and every animal outside [D] is still there with its species
    and location. *)
Definition survive (D : gset positive) (w w' : World) : Prop :=
  species w' = species w
  ∧ (∀ p a', store w' !! p = Some a' →
             ∃ a, store w !! p = Some a ∧ isa a' = isa a ∧ _loci a' = _loci a)
  ∧ (∀ p a, p ∉ D → store w !! p = Some a → is_Some (store w' !! p)).

(** In [l] no predator comes before an animal that is not one. *)
Fixpoint herbivores_first (w : World) (l : list positive) : Prop :=
  match l with
  | [] => True
  | p :: rest =>
      (is_predator w p → ∀ q, q ∈ rest → is_predator w q) ∧ herbivores_first w rest
  end.

(** ** Map.cpp: building the grid *)

(** [ArchCell::ArchCell()]: the zombie terrain kind, which
    [archetypes[value]] creates for a character that is not registered. *)
Definition ArchCell_zombie : ArchCell :=
  {| _name := "?"%char; _alpha := 0; _maxfeed := 0; _live := false |}.

(** [ArchCell::ArchCell(char _n, double _a, int _mf, bool _l)] *)
Definition ArchCell_new (_n : ascii) (_a : R) (_mf : Z) (_l : bool) : ArchCell :=
  {| _name := _n; _alpha := _a; _maxfeed := IZR _mf; _live := _l |}.

(** [Map::Map]: the parameters registered with the reader. *)
Definition Map_parameters : gmap string Token :=
  list_to_map [
    ("alpha", PlainToken (PDouble 0));
    ("fmax_sav", PlainToken (PInt 0));
    ("fmax_jngl", PlainToken (PInt 0))
  ]%string.

(** [Map::initArch]: [file] holds the lines of the cell parameter file;
    the five assignments to [archetypes] follow in the order of the
    source. *)
Definition Map_initArch (file : list (string * word))
    (archetypes : gmap ascii ArchCell) : exn + gmap ascii ArchCell :=
  match ReadParameters_read Map_parameters file with
  | inl e => inl e
  | inr vals =>
      let _alpha := target_double vals "alpha" in
      let _fmax_sav := target_int vals "fmax_sav" in
      let _fmax_jngl := target_int vals "fmax_jngl" in
      inr (<["O"%char := ArchCell_new "O" 0 0 true]>
          (<["F"%char := ArchCell_new "F" 0 0 false]>
          (<["J"%char := ArchCell_new "J" 1 _fmax_jngl true]>
          (<["S"%char := ArchCell_new "S" _alpha _fmax_sav true]>
          (<["H"%char := ArchCell_new "H" 0 0 false]> archetypes)))))
  end.

(** The conversion of an [unsigned int] argument to the [int] parameter of
    [Cell::x_pos] and [Cell::y_pos]. *)
Definition int_of_unsigned (u : Z) : Z :=
  if (u <? 2 ^ 31)%Z then u else (u - 2 ^ 32)%Z.

(** The values [0, 1, ..., n - 1] of a loop counter. *)
Definition upto (n : Z) : list Z := Z.of_nat <$> seq 0 (Z.to_nat n).

(** The cell that [Map::init] stores for a terrain kind at [(x, y)]:
    [Cell(type)] with [x_pos(x)] and [y_pos(y)]. *)
Definition Cell_placed (type : ArchCell) (x y : Z) : Cell :=
  {| _neighbours := []; archetype := Some type; feed := _maxfeed type;
     habitants := ∅; _x_loc := int_of_unsigned x; _y_loc := int_of_unsigned y |}.

(** The terrain kind that [archetypes[value]] gives: the registered one,
    or the zombie kind that the lookup creates. *)
Definition kind_of (archetypes : gmap ascii ArchCell) (value : ascii) : ArchCell :=
  default ArchCell_zombie (archetypes !! value).

(** The body of the inner loop of [Map::init] for the character [value]:
    the terrain kind is looked up, an unregistered character other than the
    name of the zombie kind raises an error, and the cell is stored with
    its position.  The result is [type->live()].  The entry that
    [archetypes[value]] adds for an unregistered character is not kept: no
    later lookup differs by it. *)
Definition Map_init_cell (archetypes : gmap ascii ArchCell) (x y : Z) (value : ascii)
  : M bool :=
  let coord := coordPack x y in
  let type := kind_of archetypes value in
  if negb (Ascii.eqb (_name type) value) then
    λ _, Throw (runtime_error ("Map::init(): undefined terrain type: " ++ String value ""))
  else
    (λ w, Ok tt (set_cells (insert coord (Cell_placed type x y)) w));;;
    ret (_live type).

(** The inner loop of [Map::init] over the columns of row [y].  [terrain]
    holds the characters that [mapstream >> value] extracts, blanks
    skipped, from a stream that is good when the loops begin; an extraction
    from the exhausted stream leaves [value] indeterminate.  The result is
    the rest of the stream with the entries pushed to [_adrMap] and to
    [_fullAdrMap]. *)
Fixpoint Map_init_row (archetypes : gmap ascii ArchCell) (y : Z) (xs : list Z)
    (terrain : list ascii) : M (list ascii * list Z * list Z) :=
  match xs with
  | [] => ret (terrain, [], [])
  | x :: xs' =>
      match terrain with
      | [] => undefined
      | value :: terrain' =>
          let* live := Map_init_cell archetypes x y value in
          let* (rest, adr, full) := Map_init_row archetypes y xs' terrain' in
          ret (rest, (if live : bool then [coordPack x y] else []) ++ adr,
               coordPack x y :: full)
      end
  end.

(** The outer loop of [Map::init] over the rows. *)
Fixpoint Map_init_rows (archetypes : gmap ascii ArchCell) (ys xs : list Z)
    (terrain : list ascii) : M (list Z * list Z) :=
  match ys with
  | [] => ret ([], [])
  | y :: ys' =>
      let* (rest, adr, full) := Map_init_row archetypes y xs terrain in
      let* (adr', full') := Map_init_rows archetypes ys' xs rest in
      ret (adr ++ adr', full ++ full')
  end.

(** [Cell::neighbours(newval)] *)
Definition with_neighbours (newval : list (option Z)) (x : Cell) : Cell :=
  {| _neighbours := newval; archetype := archetype x; feed := feed x;
     habitants := habitants x; _x_loc := _x_loc x; _y_loc := _y_loc x |}.
Definition Cell_set_neighbours (c : Z) (newval : list (option Z)) : M unit :=
  let* x := deref_cell c in
  assign_cell c (with_neighbours newval x).

(** [Map::init] from the point where [_rows] and [_cols] are read: the
    cells are created row by row, then every cell is told its
    neighbours.  The result is [_adrMap] and [_fullAdrMap]. *)
Definition Map_init_grid (archetypes : gmap ascii ArchCell) (terrain : list ascii)
  : M (list Z * list Z) :=
  λ w,
  (let* (adr, full) := Map_init_rows archetypes (upto (_rows (geography w)))
                                      (upto (_cols (geography w))) terrain in
   for_each (λ coord, let* nb := Map_candidatesAt_coord coord in
                      let* c := Map_at coord in
                      Cell_set_neighbours c nb) full;;;
   ret (adr, full)) w.

(** ** BioSim.cpp: species and animals by name *)

(** [Simulation::initSpecies]: [file] holds the lines of the file
    [species_par].  The result points to the new last element of
    [species]. *)
Definition Simulation_initSpecies (species_par : string) (file : list (string * word))
  : M nat :=
  λ w, match Species_init species_par file with
       | inl e => Throw e
       | inr newGenus =>
           Ok (length (species w))
              {| geography := geography w; species := species w ++ [newGenus];
                 animals := animals w; store := store w;
                 randomGen := randomGen w; drawn := drawn w |}
       end.

(** [Simulation::vivify(name, x, y)] *)
Fixpoint vivify_from (i : nat) (l : list Species) (name0 : string) (x y : Z)
  : M (option positive) :=
  match l with
  | [] => ret None
  | sp :: l' => if String.eqb (name sp) name0 then Simulation_vivify i x y
                else vivify_from (S i) l' name0 x y
  end.
Definition Simulation_vivify_name (name0 : string) (x y : Z) : M (option positive) :=
  λ w, vivify_from 0 (species w) name0 x y w.

(** ** BioSim.cpp: the year *)

(** One iteration of the first loop of [Simulation::step]: the animal ages
    and, when it dies, is deleted and erased from [animals]. *)
Definition step_aging_one (p : positive) : M unit :=
  Animal_age p;;;
  let* dead := Animal_die p in
  if dead then
    Animal_delete p;;;
    (λ w, Ok tt (set_animals (λ s, s ∖ {[p]}) w))
  else ret tt.

(** Steps 1, 2 and 4 ("Aging, weight loss and death") of
    [Simulation::step]; only the current element is erased during the
    iteration over [animals]. *)
Definition step_aging : M unit :=
  let* l := (λ w, Ok (elements (animals w)) w) in
  for_each step_aging_one l;;; ret tt.

Section Wandering.

(** [toolbox::randomGen().nrand(n)], whose source is not part of the
    repository: any function of the generator. *)
Variable nrand : Z → M Z.

(** [Animal::wander] *)
Definition Animal_wander (p : positive) : M bool :=
  let* a := deref_animal p in
  let* phi := Animal_fitness p in
  let* will := Species_willWander (isa a) phi in
  if will then
    let* l := Animal_location p in
    let* nb := Cell_neighbours l in
    let* k := nrand 4 in
    match (if (0 <=? k)%Z then nb !! Z.to_nat k else None) with
    | Some destination => Animal_moveTo p destination;;; ret true
    | None => undefined
    end
  else ret false.

(** [Cell::wander]: every habitant of a copy of the set attempts to
    wander. *)
Definition Cell_wander (c : Z) : M unit :=
  let* x := deref_cell c in
  if decide (size (habitants x) = 0%nat) then ret tt
  else for_each Animal_wander (elements (habitants x));;; ret tt.

(** One iteration of the second loop of [Simulation::step]. *)
Definition step_wander_cell (c : Z) : M unit :=
  let* residents := Cell_animals c in
  (if negb (length residents =? 0)%nat then Cell_wander c else ret tt);;;
  Cell_regrow c.

(** Step 3 ("Wandering and regrowth") of [Simulation::step] over the cells
    that [mapMap] returned. *)
Definition step_wandering (cells : list Z) : M unit :=
  for_each step_wander_cell cells;;; ret tt.

(** [Simulation::step]; [cells] is the vector that [geography.mapMap()]
    returns, the live cells in a shuffled order; the result is the pair of
    counters that the step prints. *)
Definition Simulation_step (cells : list Z) : M (Z * Z) :=
  step_aging;;;
  step_wandering cells;;;
  step_breeding cells;;;
  step_feeding.

End Wandering.

(** ** Vocabulary of the further statements *)

(** What [nrand] is taken to do: for a positive [n] it returns a number
    from 0 to [n - 1] and changes at most the position in the random
    sequence. *)
Definition nrand_contract (nrand : Z → M Z) : Prop :=
  ∀ n w, (0 < n)%Z →
    ∃ k w', nrand n w = Ok k w' ∧ (0 ≤ k < n)%Z
      ∧ geography w' = geography w ∧ species w' = species w
      ∧ animals w' = animals w ∧ store w' = store w ∧ randomGen w' = randomGen w.

(** The list that [candidatesAt] returns for the cell [(x, y)] of a built
    grid of the given size: the cell itself on the low edges, the null
    pointer on the high edges. *)
Definition edge_neighbours (rows cols x y : Z) : list (option Z) :=
  [ Some (coordPack (if (x =? 0)%Z then x else x - 1) y);
    Some (coordPack x (if (y =? 0)%Z then y else y - 1));
    (if (x =? cols - 1)%Z then None else Some (coordPack (x + 1) y));
    (if (y =? rows - 1)%Z then None else Some (coordPack x (y + 1))) ].

(** The part of a cell that the year never changes, and the map of these
    parts. *)
Definition tag (x : Cell) : option ArchCell * list (option Z) :=
  (archetype x, _neighbours x).
Definition terrain (w : World) : gmap Z (option ArchCell * list (option Z)) :=
  tag <$> cells (geography w).

(** [frame w w']: the terrain, the species, the random sequence and the
    size of the grid are those of [w]. *)
Definition frame (w w' : World) : Prop :=
  terrain w' = terrain w ∧ species w' = species w ∧ randomGen w' = randomGen w
  ∧ _rows (geography w') = _rows (geography w)
  ∧ _cols (geography w') = _cols (geography w).

(** [quiet w w']: moreover no animal was created, destroyed, added to the
    population or erased from it. *)
Definition quiet (w w' : World) : Prop :=
  frame w w' ∧ animals w' = animals w ∧ dom (store w') = dom (store w).

(** [Post T m Q]: every run of [m] that starts on the terrain [T] and
    returns relates the two worlds and the result by [Q]. *)
Definition Post {A} (T : gmap Z (option ArchCell * list (option Z))) (m : M A)
    (Q : World → A → World → Prop) : Prop :=
  ∀ w a w', terrain w = T → m w = Ok a w' → Q w a w'.
Definition Quiet {A} (T : gmap Z (option ArchCell * list (option Z))) (m : M A) : Prop :=
  Post T m (λ w _ w', quiet w w').

(** Every animal of the population is an object of the store. *)
Definition animals_live (w : World) : Prop :=
  ∀ p, p ∈ animals w → is_Some (store w !! p).

(** Every live cell has four neighbour entries, and those that are not
    null point to cells with a terrain kind. *)
Definition neighbours_ok (w : World) : Prop :=
  ∀ c x t, cells (geography w) !! c = Some x → archetype x = Some t → _live t = true →
    length (_neighbours x) = 4%nat
    ∧ ∀ d, Some d ∈ _neighbours x →
        ∃ y u, cells (geography w) !! d = Some y ∧ archetype y = Some u.

(** The worlds between two years of a simulation with at most one
    predatory species, the species [gp]. *)
Definition step_inv (gp : nat) (w : World) : Prop :=
  feeding_inv w ∧ animals_live w ∧ neighbours_ok w
  ∧ ∀ g sp, species w !! g = Some sp → predatory sp = true → g = gp.

(** The cells that [mapMap] may return: cells of the map that have a
    terrain kind. *)
Definition cells_ok (cs : list Z) (w : World) : Prop :=
  ∀ c, c ∈ cs → ∃ x t, cells (geography w) !! c = Some x ∧ archetype x = Some t.

(** [grown N w w']: the objects at the addresses [N] were created, no
    other object was created or destroyed, and the population is that of
    [w]. *)
Definition grown (N : gset positive) (w w' : World) : Prop :=
  frame w w' ∧ animals w' = animals w ∧ dom (store w') = dom (store w) ∪ N.

(** [tidy w w']: the frame is kept, and the population consists of objects
    of the store if it did before. *)
Definition tidy (w w' : World) : Prop :=
  frame w w' ∧ (animals_live w → animals_live w').
Definition Tidy {A} (T : gmap Z (option ArchCell * list (option Z))) (m : M A) : Prop :=
  Post T m (λ w _ w', tidy w w').

(** The animal [a] of species [sp] after [Animal::age] and a refill of its
    fitness cache. *)
Definition aged (sp : Species) (a : Animal) : Animal :=
  {| isa := isa a; _vekt := (_vekt a - _sigma sp * _vekt a)%R;
     _alder := wrap_int (_alder a + 1); _loci := _loci a;
     _fitness := Species_fitness sp (_vekt a - _sigma sp * _vekt a)
                                 (wrap_int (_alder a + 1)) |}.

(** [w'] differs from [w] in the cells at most. *)
Definition same_but_cells (w w' : World) : Prop :=
  _rows (geography w') = _rows (geography w) ∧ _cols (geography w') = _cols (geography w)
  ∧ species w' = species w ∧ animals w' = animals w ∧ store w' = store w
  ∧ randomGen w' = randomGen w ∧ drawn w' = drawn w.

(** The packed coordinates of the rows [ys] and columns [xs], row by row. *)
Definition row_major (ys xs : list Z) : list Z :=
  mjoin ((λ y, (λ x, coordPack x y) <$> xs) <$> ys).

(** [edge_neighbours] at a packed coordinate. *)
Definition edge_neighbours_coord (rows cols coord : Z) : list (option Z) :=
  let (x, y) := coordUnpack coord in edge_neighbours rows cols x y.

(** ** Concrete inputs used by the examples below *)

(** A species whose three steepness parameters are 1 and whose midpoints
    and minimum weight are 0. *)
Definition unit_species (nm : string) (pred : bool) : Species :=
  {| name := nm; _v_fod := 1; _beta := 1; _sigma := 0; _v_min := 0; _a_halv := 0;
     _phi_alder := 1; _v_halv_under := 0; _phi_under := 1; _v_halv_over := 0;
     _phi_over := 1; _mu := 1; _gamma := 1; _zeta := 1; _omega := 1;
     _F := if pred then ANIMAL_INV else 10%R;
     _DeltaPhiMax := if pred then 10%R else ANIMAL_INV;
     predatory := pred |}.

(** Jungle (live) and water (not live), as [Map::initArch] registers them. *)
Definition jungle : ArchCell :=
  {| _name := "J"%char; _alpha := 1; _maxfeed := 6; _live := true |}.
Definition water : ArchCell :=
  {| _name := "H"%char; _alpha := 0; _maxfeed := 0; _live := false |}.

(** A cell as [Map::init] leaves it before the neighbours are set. *)
Definition cell_at (type : ArchCell) (x y : Z) : Cell :=
  {| _neighbours := []; archetype := Some type; feed := _maxfeed type;
     habitants := ∅; _x_loc := x; _y_loc := y |}.

(** A grid of two rows and two columns of jungle, no animals. *)
Definition grid2x2 : World :=
  {| geography := {| _rows := 2; _cols := 2;
                     cells := list_to_map [
                       (coordPack 0 0, cell_at jungle 0 0);
                       (coordPack 1 0, cell_at jungle 1 0);
                       (coordPack 0 1, cell_at jungle 0 1);
                       (coordPack 1 1, cell_at jungle 1 1) ] |};
     species := []; animals := ∅; store := ∅;
     randomGen := λ _, 0%R; drawn := 0 |}.

(** Parameter files.  [num r z] is a word that reads as the number [r]
    (and as the [int] [z]). *)
Definition num (r : R) (z : Z) : word :=
  {| text := ""; as_double := Some r; as_int := Some z |}.
Definition required_lines : list (string * word) :=
  [ ("v_fod", num 8 8); ("beta", num 1 1); ("sigma", num 0 0); ("v_min", num 1 1);
    ("a_halv", num 40 40); ("phi_alder", num 1 1); ("v_halv_under", num 10 10);
    ("phi_under", num 1 1); ("v_halv_over", num 60 60); ("phi_over", num 1 1);
    ("mu", num 1 1); ("gamma", num 1 1); ("zeta", num 1 1); ("omega", num 1 1) ]%string.

(** A file that supplies [F] with the value [-1.0] and no [DeltaPhiMax]. *)
Definition file_F_minus_one : list (string * word) :=
  required_lines ++ [("F"%string, num (-1) (-1))].
(** A file that supplies [F] but lacks the required [omega]. *)
Definition file_F_no_omega : list (string * word) :=
  [ ("v_fod", num 8 8); ("beta", num 1 1); ("sigma", num 0 0); ("v_min", num 1 1);
    ("a_halv", num 40 40); ("phi_alder", num 1 1); ("v_halv_under", num 10 10);
    ("phi_under", num 1 1); ("v_halv_over", num 60 60); ("phi_over", num 1 1);
    ("mu", num 1 1); ("gamma", num 1 1); ("zeta", num 1 1); ("F", num 10 10) ]%string.
(** A file that supplies both [F] and [DeltaPhiMax]. *)
Definition file_both : list (string * word) :=
  required_lines ++ [("F"%string, num 10 10); ("DeltaPhiMax"%string, num 5 5)].

(** A row of two cells, jungle at (0,0) and water at (1,0), with a
    herbivorous and a predatory species and one herbivore of weight 5 and
    age 2 in the jungle cell, which holds 6 units of feed. *)
Definition grazer : Animal :=
  {| isa := 0; _vekt := 5; _alder := 2; _loci := Some (coordPack 0 0);
     _fitness := ANIMAL_INV |}.
Definition pasture : Cell :=
  {| _neighbours := []; archetype := Some jungle; feed := 6;
     habitants := {[ 1%positive ]}; _x_loc := 0; _y_loc := 0 |}.
Definition shore : World :=
  {| geography := {| _rows := 1; _cols := 2;
                     cells := <[coordPack 0 0 := pasture]>
                                (<[coordPack 1 0 := cell_at water 1 0]> ∅) |};
     species := [unit_species "B" false; unit_species "R" true];
     animals := {[ 1%positive ]};
     store := {[ 1%positive := grazer ]};
     randomGen := λ _, 0%R; drawn := 0 |}.

(** A row of two jungle cells; two adults of one herbivorous species, of
    weight 5 and age 2, share the cell (0,0); every random draw is 0. *)
Definition adult (c : Z) : Animal :=
  {| isa := 0; _vekt := 5; _alder := 2; _loci := Some c; _fitness := ANIMAL_INV |}.
Definition pairing : World :=
  {| geography := {| _rows := 1; _cols := 2;
                     cells := <[coordPack 0 0 :=
                                  with_habitants {[ 1%positive; 2%positive ]}
                                                 (cell_at jungle 0 0)]>
                                (<[coordPack 1 0 := cell_at jungle 1 0]> ∅) |};
     species := [unit_species "B" false];
     animals := {[ 1%positive; 2%positive ]};
     store := <[1%positive := adult (coordPack 0 0)]>
                (<[2%positive := adult (coordPack 0 0)]> ∅);
     randomGen := λ _, 0%R; drawn := 0 |}.

(** One jungle cell shared by two predators of two species, both of weight
    5 and age 2.  The species differ in the midpoint of the age factor (40
    and 0), which makes the animal of the first species the fitter one;
    every random draw is 0. *)
Definition late_species : Species :=
  {| name := "R"; _v_fod := 1; _beta := 1; _sigma := 0; _v_min := 0; _a_halv := 40;
     _phi_alder := 1; _v_halv_under := 0; _phi_under := 1; _v_halv_over := 0;
     _phi_over := 1; _mu := 1; _gamma := 1; _zeta := 1; _omega := 1;
     _F := ANIMAL_INV; _DeltaPhiMax := 10; predatory := true |}.
Definition hunter (g : nat) : Animal :=
  {| isa := g; _vekt := 5; _alder := 2; _loci := Some (coordPack 0 0);
     _fitness := ANIMAL_INV |}.
Definition den : Cell :=
  with_habitants {[ 1%positive; 2%positive ]} (cell_at jungle 0 0).
Definition rivals : World :=
  {| geography := {| _rows := 1; _cols := 1; cells := {[ coordPack 0 0 := den ]} |};
     species := [late_species; unit_species "S" true];
     animals := {[ 1%positive; 2%positive ]};
     store := <[1%positive := hunter 0]> (<[2%positive := hunter 1]> ∅);
     randomGen := λ _, 0%R; drawn := 0 |}.

(** ** Further concrete inputs *)

(** A reader with two parameters, [rows] without and [seed] with a default
    value, and a file that gives [rows] only. *)
Definition two_parameters : gmap string Token :=
  <["rows"%string := PlainToken (PInt 0)]>
    (<["seed"%string := PlainToken_deflt (PInt 7)]> ∅).
Definition file_rows : list (string * word) := [("rows"%string, num 3 3)].

(** A generator whose [nrand] always returns 0. *)
Definition nrand_zero : Z → M Z := λ _, ret 0%Z.

(** A grid of one jungle cell that knows its neighbours as [Map::init]
    sets them, with one herbivore in it; every random draw is 0. *)
Definition lone_cell : Cell :=
  {| _neighbours := edge_neighbours 1 1 0 0; archetype := Some jungle; feed := 6;
     habitants := {[ 1%positive ]}; _x_loc := 0; _y_loc := 0 |}.
Definition meadow : World :=
  {| geography := {| _rows := 1; _cols := 1; cells := {[ coordPack 0 0 := lone_cell ]} |};
     species := [unit_species "B" false; unit_species "R" true];
     animals := {[ 1%positive ]};
     store := {[ 1%positive := grazer ]};
     randomGen := λ _, 0%R; drawn := 0 |}.

(** A map of one row and two columns before [Map::init] creates its cells,
    two registered terrain kinds, and the characters of a map file. *)
Definition bare_strip : World :=
  {| geography := {| _rows := 1; _cols := 2; cells := ∅ |};
     species := []; animals := ∅; store := ∅;
     randomGen := λ _, 0%R; drawn := 0 |}.
Definition two_kinds : gmap ascii ArchCell :=
  <["J"%char := jungle]> {[ "H"%char := water ]}.
Definition strip_file : list ascii := ["J"; "H"]%char.

(** * Properties *)

(** ** Reflection of the comparisons *)

Lemma Rltb_true x y : Rltb x y = true ↔ (x < y)%R.
Proof. unfold Rltb. destruct (Rlt_dec x y); split; (done || lra). Qed.
Lemma Rltb_false x y : Rltb x y = false ↔ (y <= x)%R.
Proof. unfold Rltb. destruct (Rlt_dec x y); split; (done || lra). Qed.
Lemma Rleb_true x y : Rleb x y = true ↔ (x <= y)%R.
Proof. unfold Rleb. destruct (Rle_dec x y); split; (done || lra). Qed.
Lemma Rleb_false x y : Rleb x y = false ↔ (y < x)%R.
Proof. unfold Rleb. destruct (Rle_dec x y); split; (done || lra). Qed.
Lemma Reqb_true x y : Reqb x y = true ↔ x = y.
Proof. unfold Reqb. destruct (Req_dec_T x y); split; (done || lra). Qed.
Lemma Reqb_false x y : Reqb x y = false ↔ x ≠ y.
Proof. unfold Reqb. destruct (Req_dec_T x y); split; done. Qed.
Lemma Rgtb_true x y : Rgtb x y = true ↔ (x > y)%R.
Proof. unfold Rgtb. rewrite Rltb_true. lra. Qed.
Lemma Rgtb_false x y : Rgtb x y = false ↔ (x <= y)%R.
Proof. unfold Rgtb. apply Rltb_false. Qed.
Lemma Rgeb_true x y : Rgeb x y = true ↔ (x >= y)%R.
Proof. unfold Rgeb. rewrite Rleb_true. lra. Qed.
Lemma Rgeb_false x y : Rgeb x y = false ↔ (x < y)%R.
Proof. unfold Rgeb. apply Rleb_false. Qed.

(** ** Fitness *)

Section Logistic.
Local Open Scope R_scope.

Lemma func_q_bounds x x_half phi pos : 0 < func_q x x_half phi pos < 1.
Proof.
  unfold func_q.
  set (e := exp _). assert (0 < e) by apply exp_pos.
  split.
  - apply Rdiv_lt_0_compat; lra.
  - apply Rmult_lt_reg_r with (1 + e); [lra|].
    unfold Rdiv. rewrite Rmult_assoc, Rinv_l by lra. lra.
Qed.

Lemma func_q_antitone_pos x1 x2 x_half phi :
  0 <= phi → x1 <= x2 → func_q x2 x_half phi true <= func_q x1 x_half phi true.
Proof.
  intros Hphi Hx. unfold func_q.
  set (e1 := exp (1 * phi * (x1 - x_half))).
  set (e2 := exp (1 * phi * (x2 - x_half))).
  assert (0 < e1) by apply exp_pos.
  assert (e1 <= e2).
  { destruct (Req_dec_T (1 * phi * (x1 - x_half)) (1 * phi * (x2 - x_half))) as [E|E].
    - subst e1 e2. rewrite E. lra.
    - left. apply exp_increasing. nra. }
  unfold Rdiv. rewrite !Rmult_1_l.
  apply Rinv_le_contravar; lra.
Qed.

Lemma func_q_monotone_neg x1 x2 x_half phi :
  0 <= phi → x1 <= x2 → func_q x1 x_half phi false <= func_q x2 x_half phi false.
Proof.
  intros Hphi Hx. unfold func_q.
  set (e1 := exp (-1 * phi * (x1 - x_half))).
  set (e2 := exp (-1 * phi * (x2 - x_half))).
  assert (0 < e2) by apply exp_pos.
  assert (e2 <= e1).
  { destruct (Req_dec_T (-1 * phi * (x1 - x_half)) (-1 * phi * (x2 - x_half))) as [E|E].
    - subst e1 e2. rewrite E. lra.
    - left. apply exp_increasing. nra. }
  unfold Rdiv. rewrite !Rmult_1_l.
  apply Rinv_le_contravar; lra.
Qed.

Lemma func_q_half x phi pos : func_q x x phi pos = 1 / 2.
Proof.
  unfold func_q. replace (_ * phi * (x - x)) with 0 by (destruct pos; ring).
  rewrite exp_0. lra.
Qed.

Lemma func_q_below_half x x_half phi :
  0 < phi → x_half < x → func_q x x_half phi true < 1 / 2.
Proof.
  intros Hphi Hx. unfold func_q.
  assert (1 < exp (1 * phi * (x - x_half))).
  { pose proof (exp_increasing 0 (1 * phi * (x - x_half))) as E.
    rewrite exp_0 in E. apply E. nra. }
  set (e := exp _) in *.
  unfold Rdiv. rewrite !Rmult_1_l.
  apply Rinv_lt_contravar; nra.
Qed.

Lemma func_q_before_half x x_half phi :
  0 < phi → x < x_half → 1 / 2 < func_q x x_half phi true.
Proof.
  intros Hphi Hx. unfold func_q.
  assert (exp (1 * phi * (x - x_half)) < 1).
  { pose proof (exp_increasing (1 * phi * (x - x_half)) 0) as E.
    rewrite exp_0 in E. apply E. nra. }
  assert (0 < exp (1 * phi * (x - x_half))) by apply exp_pos.
  set (e := exp _) in *.
  unfold Rdiv. rewrite !Rmult_1_l.
  apply Rinv_lt_contravar; nra.
Qed.

Lemma func_q_above_half x x_half phi :
  0 < phi → x_half < x → 1 / 2 < func_q x x_half phi false.
Proof.
  intros Hphi Hx. unfold func_q.
  assert (exp (-1 * phi * (x - x_half)) < 1).
  { pose proof (exp_increasing (-1 * phi * (x - x_half)) 0) as E.
    rewrite exp_0 in E. apply E. nra. }
  assert (0 < exp (-1 * phi * (x - x_half))) by apply exp_pos.
  set (e := exp _) in *.
  unfold Rdiv. rewrite !Rmult_1_l.
  apply Rinv_lt_contravar; nra.
Qed.

Lemma Species_fitness_below sp weight age :
  weight < _v_min sp → Species_fitness sp weight age = 0.
Proof. intros H. unfold Species_fitness. apply Rltb_true in H. by rewrite H. Qed.

Lemma Species_fitness_above sp weight age :
  _v_min sp <= weight →
  Species_fitness sp weight age =
    func_q (IZR age) (IZR (_a_halv sp)) (_phi_alder sp) true
    * func_q weight (_v_halv_under sp) (_phi_under sp) false
    * func_q weight (_v_halv_over sp) (_phi_over sp) true.
Proof. intros H. unfold Species_fitness. apply Rltb_false in H. by rewrite H. Qed.

Lemma Species_fitness_pos sp weight age :
  _v_min sp <= weight → 0 < Species_fitness sp weight age.
Proof.
  intros H. rewrite Species_fitness_above by done.
  pose proof (func_q_bounds (IZR age) (IZR (_a_halv sp)) (_phi_alder sp) true).
  pose proof (func_q_bounds weight (_v_halv_under sp) (_phi_under sp) false).
  pose proof (func_q_bounds weight (_v_halv_over sp) (_phi_over sp) true).
  apply Rmult_lt_0_compat; [apply Rmult_lt_0_compat|]; lra.
Qed.

Lemma Species_fitness_range sp weight age :
  0 <= Species_fitness sp weight age <= 1.
Proof.
  destruct (Rlt_dec weight (_v_min sp)) as [H|H].
  - rewrite Species_fitness_below by done. lra.
  - rewrite Species_fitness_above by lra.
    pose proof (func_q_bounds (IZR age) (IZR (_a_halv sp)) (_phi_alder sp) true).
    pose proof (func_q_bounds weight (_v_halv_under sp) (_phi_under sp) false).
    pose proof (func_q_bounds weight (_v_halv_over sp) (_phi_over sp) true).
    set (qa := func_q (IZR age) _ _ _) in *.
    set (qu := func_q weight _ _ false) in *.
    set (qo := func_q weight _ _ true) in *.
    assert (0 < qa * qu) by (apply Rmult_lt_0_compat; lra).
    assert (qa * qu <= 1 * 1) by (apply Rmult_le_compat; lra).
    split.
    + apply Rmult_le_pos; lra.
    + apply Rle_trans with (1 * qo); [|lra].
      apply Rmult_le_compat_r; lra.
Qed.

Lemma Species_fitness_not_inv sp weight age :
  Species_fitness sp weight age ≠ ANIMAL_INV.
Proof. pose proof (Species_fitness_range sp weight age). unfold ANIMAL_INV. lra. Qed.
End Logistic.

(** C5 (as amended).  [Species::fitness] returns 0 below the minimum weight,
    whatever the age; from the minimum weight on it is the product of three
    logistic factors [1 / (1 + exp (± phi * (x - x_half)))]: the factor of
    the age has sign [+], the underweight factor sign [-], the overweight
    factor sign [+].  The result lies in [[0,1]].  For steepness parameters
    that are not negative the age factor does not increase with the age,
    the underweight factor does not decrease with the weight and the
    overweight factor does not increase with the weight. *)
Theorem fitness_logistic_product (sp : Species) (weight : R) (age : Z) :
  (0 <= _phi_alder sp)%R → (0 <= _phi_under sp)%R → (0 <= _phi_over sp)%R →
  ((weight < _v_min sp)%R → Species_fitness sp weight age = 0%R)
  ∧ ((_v_min sp <= weight)%R →
     Species_fitness sp weight age =
       (1 / (1 + exp (1 * _phi_alder sp * (IZR age - IZR (_a_halv sp))))
        * (1 / (1 + exp (-1 * _phi_under sp * (weight - _v_halv_under sp))))
        * (1 / (1 + exp (1 * _phi_over sp * (weight - _v_halv_over sp)))))%R)
  ∧ (0 <= Species_fitness sp weight age <= 1)%R
  ∧ (∀ a1 a2 : Z, (a1 ≤ a2)%Z →
       (func_q (IZR a2) (IZR (_a_halv sp)) (_phi_alder sp) true
        <= func_q (IZR a1) (IZR (_a_halv sp)) (_phi_alder sp) true)%R)
  ∧ (∀ w1 w2 : R, (w1 <= w2)%R →
       (func_q w1 (_v_halv_under sp) (_phi_under sp) false
        <= func_q w2 (_v_halv_under sp) (_phi_under sp) false)%R)
  ∧ (∀ w1 w2 : R, (w1 <= w2)%R →
       (func_q w2 (_v_halv_over sp) (_phi_over sp) true
        <= func_q w1 (_v_halv_over sp) (_phi_over sp) true)%R).
Proof.
  intros Ha Hu Ho. repeat split.
  - apply Species_fitness_below.
  - intros H. by rewrite Species_fitness_above.
  - apply Species_fitness_range.
  - apply Species_fitness_range.
  - intros a1 a2 H. apply func_q_antitone_pos; [done|]. by apply IZR_le.
  - intros w1 w2 H. by apply func_q_monotone_neg.
  - intros w1 w2 H. by apply func_q_antitone_pos.
Qed.

Lemma fitness_logistic_product_witness :
  (0 <= Species_fitness (unit_species "B" false) 1 1 <= 1)%R.
Proof.
  apply (fitness_logistic_product (unit_species "B" false) 1 1); simpl; lra.
Defined.

(** C5, the claim as worded fails: with steepness 1 and midpoint 0 the age
    factor is not increasing in the age, the underweight factor is not
    decreasing in the weight and the overweight factor is not increasing in
    the weight; the fitness of an animal of weight 1 drops from age 0 to
    age 1. *)
Lemma fitness_factor_directions_counterexample :
  let sp := unit_species "B" false in
  ¬ (∀ a1 a2 : Z, (a1 ≤ a2)%Z →
       (func_q (IZR a1) (IZR (_a_halv sp)) (_phi_alder sp) true
        <= func_q (IZR a2) (IZR (_a_halv sp)) (_phi_alder sp) true)%R)
  ∧ ¬ (∀ w1 w2 : R, (w1 <= w2)%R →
       (func_q w2 (_v_halv_under sp) (_phi_under sp) false
        <= func_q w1 (_v_halv_under sp) (_phi_under sp) false)%R)
  ∧ ¬ (∀ w1 w2 : R, (w1 <= w2)%R →
       (func_q w1 (_v_halv_over sp) (_phi_over sp) true
        <= func_q w2 (_v_halv_over sp) (_phi_over sp) true)%R)
  ∧ (Species_fitness sp 1 1 < Species_fitness sp 1 0)%R.
Proof.
  simpl.
  pose proof (func_q_half 0 1 true) as Ht.
  pose proof (func_q_half 0 1 false) as Hf.
  pose proof (func_q_below_half 1 0 1 ltac:(lra) ltac:(lra)) as Hb.
  pose proof (func_q_above_half 1 0 1 ltac:(lra) ltac:(lra)) as Ha.
  repeat split.
  - intros H. specialize (H 0%Z 1%Z ltac:(lia)). simpl in H. lra.
  - intros H. specialize (H 0%R 1%R ltac:(lra)). lra.
  - intros H. specialize (H 0%R 1%R ltac:(lra)). lra.
  - rewrite !Species_fitness_above by (simpl; lra). simpl.
    pose proof (func_q_bounds 1 0 1 false).
    pose proof (func_q_bounds 1 0 1 true).
    apply Rmult_lt_compat_r; [lra|].
    apply Rmult_lt_compat_r; lra.
Qed.

(** ** Capture chance *)

(** The three branches of the capture chance, for a positive
    [deltaPhiMax]. *)
Lemma catch_chance_cases (p q d : R) :
  (0 < d)%R →
  ((p <= q)%R → catch_chance p q d = 0%R)
  ∧ ((0 < p - q < d)%R → catch_chance p q d = ((p - q) / d)%R)
  ∧ ((d <= p - q)%R → catch_chance p q d = 1%R).
Proof.
  intros Hd. unfold catch_chance. repeat split.
  - intros H. apply Rleb_true in H. by rewrite H.
  - intros [H1 H2].
    assert (Rleb p q = false) as -> by (apply Rleb_false; lra).
    assert (Rgtb d (p - q) = true) as -> by (apply Rgtb_true; lra).
    assert (Rgtb (p - q) 0 = true) as -> by (apply Rgtb_true; lra).
    done.
  - intros H.
    assert (Rleb p q = false) as -> by (apply Rleb_false; lra).
    assert (Rgtb d (p - q) = false) as -> by (apply Rgtb_false; lra).
    done.
Qed.

(** ** The grid *)

Lemma Map_at_xy_outside w x y :
  (_cols (geography w) ≤ x)%Z ∨ (_rows (geography w) ≤ y)%Z →
  Map_at_xy x y w = Ok None w.
Proof.
  intros H. unfold Map_at_xy.
  destruct (Z.leb_spec (_cols (geography w)) x), (Z.leb_spec (_rows (geography w)) y);
    simpl; try done; lia.
Qed.

Lemma Map_at_xy_inside w x y :
  (x < _cols (geography w))%Z → (y < _rows (geography w))%Z →
  is_Some (cells (geography w) !! coordPack x y) →
  Map_at_xy x y w = Ok (Some (coordPack x y)) w.
Proof.
  intros Hx Hy [c Hc]. unfold Map_at_xy, Map_at, bind, ret.
  destruct (Z.leb_spec (_cols (geography w)) x), (Z.leb_spec (_rows (geography w)) y);
    simpl; try lia.
  by rewrite Hc.
Qed.

(** On a grid that [Map::init] has built, [candidatesAt] changes nothing
    and returns: west and north, the cell itself on the low edge and the
    adjacent cell otherwise; east and south, the null pointer on the high
    edge ([x == _cols] and [y == _rows] are false for every cell of the
    grid, and [at] is out of range) and the adjacent cell otherwise. *)
Lemma Map_candidatesAt_built w x y :
  grid_built w →
  (0 ≤ x < _cols (geography w))%Z → (0 ≤ y < _rows (geography w))%Z →
  Map_candidatesAt x y w =
    Ok [ Some (coordPack (if (x =? 0)%Z then x else x - 1) y);
         Some (coordPack x (if (y =? 0)%Z then y else y - 1));
         (if (x =? _cols (geography w) - 1)%Z then None else Some (coordPack (x + 1) y));
         (if (y =? _rows (geography w) - 1)%Z then None else Some (coordPack x (y + 1))) ]
       w.
Proof.
  intros (Hc & Hr & Hb) Hx Hy. unfold Map_candidatesAt, bind, ret.
  assert (∀ z, (0 ≤ z < 2 ^ 32)%Z → wrap32 z = z) as Hw.
  { intros z Hz. unfold wrap32. by rewrite Z.mod_small. }
  destruct (Z.eqb_spec x 0), (Z.eqb_spec y 0),
    (Z.eqb_spec x (_cols (geography w))), (Z.eqb_spec y (_rows (geography w))),
    (Z.eqb_spec x (_cols (geography w) - 1)), (Z.eqb_spec y (_rows (geography w) - 1));
    try lia;
    cbv beta iota;
    repeat (first [ rewrite Hw by lia
                  | rewrite Map_at_xy_inside by (try apply Hb; lia)
                  | rewrite Map_at_xy_outside by lia ];
            cbv beta iota);
    done.
Qed.

(** C1, on the code.  On a built grid [candidatesAt] gives a cell of the
    first column itself as west entry and a cell of the first row itself as
    north entry, but it gives a cell of the last column the null pointer as
    east entry and a cell of the last row the null pointer as south entry,
    not the cell itself. *)
Theorem candidatesAt_high_edge_null (w : World) (x y : Z) :
  grid_built w →
  (0 ≤ x < _cols (geography w))%Z → (0 ≤ y < _rows (geography w))%Z →
  ∃ l : list (option Z), Map_candidatesAt x y w = Ok l w
    ∧ (x = 0%Z → l !! 0%nat = Some (Some (coordPack x y)))
    ∧ (y = 0%Z → l !! 1%nat = Some (Some (coordPack x y)))
    ∧ (x = (_cols (geography w) - 1)%Z → l !! 2%nat = Some None)
    ∧ (y = (_rows (geography w) - 1)%Z → l !! 3%nat = Some None).
Proof.
  intros Hb Hx Hy. eexists. split; [by apply Map_candidatesAt_built|].
  split_and!; intros ->; simpl.
  - done.
  - done.
  - by rewrite Z.eqb_refl.
  - by rewrite Z.eqb_refl.
Qed.

Lemma grid2x2_built : grid_built grid2x2.
Proof.
  split_and!; [done..|]. intros x y Hx Hy. simpl in Hx, Hy.
  assert (x = 0 ∨ x = 1)%Z as [-> | ->] by lia;
    assert (y = 0 ∨ y = 1)%Z as [-> | ->] by lia; by eexists.
Qed.

(** In the grid of two columns and two rows, the cell of the last column
    and first row gets itself as north entry and the null pointer as east
    entry. *)
Lemma candidatesAt_high_edge_null_witness :
  ∃ l : list (option Z), Map_candidatesAt 1 0 grid2x2 = Ok l grid2x2
    ∧ l !! 1%nat = Some (Some (coordPack 1 0))
    ∧ l !! 2%nat = Some None.
Proof.
  destruct (candidatesAt_high_edge_null grid2x2 1 0 grid2x2_built) as (l & H & _ & Hn & He & _).
  - simpl. lia.
  - simpl. lia.
  - exists l. split_and!; [done | by apply Hn | by apply He].
Defined.

Lemma candidatesAt_last_column_east :
  Map_candidatesAt 1 0 grid2x2 =
    Ok [Some (coordPack 0 0); Some (coordPack 1 0); None; Some (coordPack 1 1)] grid2x2.
Proof. reflexivity. Qed.

Lemma candidatesAt_last_row_south :
  Map_candidatesAt 0 1 grid2x2 =
    Ok [Some (coordPack 0 1); Some (coordPack 0 0); Some (coordPack 1 1); None] grid2x2.
Proof. reflexivity. Qed.

(** For an interior cell the four entries are the adjacent cells. *)
Lemma Map_candidatesAt_interior w x y :
  grid_built w →
  (0 < x < _cols (geography w) - 1)%Z → (0 < y < _rows (geography w) - 1)%Z →
  Map_candidatesAt x y w =
    Ok [ Some (coordPack (x - 1) y); Some (coordPack x (y - 1));
         Some (coordPack (x + 1) y); Some (coordPack x (y + 1)) ] w.
Proof.
  intros Hb Hx Hy. rewrite Map_candidatesAt_built by (done || lia).
  destruct (Z.eqb_spec x 0), (Z.eqb_spec y 0),
    (Z.eqb_spec x (_cols (geography w) - 1)), (Z.eqb_spec y (_rows (geography w) - 1));
    (done || lia).
Qed.

(** ** Species initialisation *)

Lemma read_lines_other toks file toks' pname :
  read_lines toks file = inr toks' → pname ∉ file.*1 →
  toks' !! pname = toks !! pname.
Proof.
  revert toks. induction file as [|[n w] file IH]; intros toks H Hn; simpl in *.
  - by inversion H.
  - destruct (toks !! n) as [t|] eqn:Ht; [|done].
    destruct (Token_read n t w) as [e|t']; [done|].
    apply not_elem_of_cons in Hn as [Hne Hn].
    rewrite (IH _ H Hn). by rewrite lookup_insert_ne.
Qed.

Lemma ReadParameters_read_default parameters_ file vals pname t :
  ReadParameters_read parameters_ file = inr vals →
  pname ∉ file.*1 → parameters_ !! pname = Some t →
  vals !! pname = Some (default_ t).
Proof.
  unfold ReadParameters_read. intros H Hn Ht.
  destruct (read_lines _ file) as [e|toks] eqn:Hr; [done|].
  destruct (forallb _ _); [|done].
  inversion H; subst vals.
  rewrite lookup_fmap, (read_lines_other _ _ _ _ Hr Hn), lookup_fmap, Ht.
  done.
Qed.

(** C10 (as amended).  For a parameter file that the reader accepts,
    [Species::init] raises an error exactly when [F] and [DeltaPhiMax] both
    hold [ANIMAL_INV] after the read, as they do when the file names
    neither; when [F] differs from [ANIMAL_INV] the species is a herbivore
    and keeps the [DeltaPhiMax] read; when only [DeltaPhiMax] differs it is
    predatory; a species without a name is named R when predatory and B
    otherwise. *)
Theorem Species_init_classification (params : string) (file : list (string * word))
    (vals : gmap string pvalue) :
  ReadParameters_read Species_parameters file = inr vals →
  let F := target_double vals "F" in
  let DeltaPhiMax := target_double vals "DeltaPhiMax" in
  let Navn := target_string vals "Navn" in
  ("F"%string ∉ file.*1 → F = ANIMAL_INV)
  ∧ ("DeltaPhiMax"%string ∉ file.*1 → DeltaPhiMax = ANIMAL_INV)
  ∧ ("Navn"%string ∉ file.*1 → Navn = ""%string)
  ∧ ((∃ e, Species_init params file = inl e) ↔ F = ANIMAL_INV ∧ DeltaPhiMax = ANIMAL_INV)
  ∧ (F ≠ ANIMAL_INV →
     ∃ sp, Species_init params file = inr sp ∧ predatory sp = false
           ∧ _F sp = F ∧ _DeltaPhiMax sp = DeltaPhiMax)
  ∧ (F = ANIMAL_INV → DeltaPhiMax ≠ ANIMAL_INV →
     ∃ sp, Species_init params file = inr sp ∧ predatory sp = true
           ∧ _DeltaPhiMax sp = DeltaPhiMax)
  ∧ (∀ sp, Species_init params file = inr sp →
     name sp = if String.eqb Navn "" then (if predatory sp then "R" else "B")%string
               else Navn).
Proof.
  intros Hread F DeltaPhiMax Navn.
  assert (∀ pname t, pname ∉ file.*1 → Species_parameters !! pname = Some t →
                     vals !! pname = Some (default_ t)) as Hdef.
  { intros pname t. by apply ReadParameters_read_default. }
  unfold Species_init. rewrite Hread.
  fold F DeltaPhiMax Navn.
  split; [|split; [|split]].
  - intros Hn. subst F. unfold target_double.
    by rewrite (Hdef "F"%string (PlainToken_deflt (PDouble ANIMAL_INV)) Hn eq_refl).
  - intros Hn. subst DeltaPhiMax. unfold target_double.
    by rewrite (Hdef "DeltaPhiMax"%string (PlainToken_deflt (PDouble ANIMAL_INV)) Hn eq_refl).
  - intros Hn. subst Navn. unfold target_string.
    by rewrite (Hdef "Navn"%string (PlainToken_deflt (PString "")) Hn eq_refl).
  - destruct (Reqb F ANIMAL_INV) eqn:HF; simpl;
      [destruct (Reqb DeltaPhiMax ANIMAL_INV) eqn:HD; simpl|].
    + apply Reqb_true in HF, HD. naive_solver.
    + apply Reqb_true in HF. apply Reqb_false in HD. naive_solver.
    + apply Reqb_false in HF. naive_solver.
Qed.

(** What the reader leaves in [F] and [DeltaPhiMax] for a given file, from
    an evaluation of the read. *)
Lemma ReadParameters_read_F_DeltaPhiMax file (F D : R) :
  match ReadParameters_read Species_parameters file with
  | inr v => Some (target_double v "F", target_double v "DeltaPhiMax")
  | inl _ => None
  end = Some (F, D) →
  ∃ vals, ReadParameters_read Species_parameters file = inr vals
          ∧ target_double vals "F" = F ∧ target_double vals "DeltaPhiMax" = D.
Proof.
  destruct (ReadParameters_read Species_parameters file) as [e|vals]; [done|].
  intros [= <- <-]. by exists vals.
Qed.

Lemma Species_init_classification_witness :
  ∃ sp, Species_init "both.par" file_both = inr sp ∧ predatory sp = false
        ∧ _F sp = 10%R ∧ _DeltaPhiMax sp = 5%R.
Proof.
  destruct (ReadParameters_read_F_DeltaPhiMax file_both 10 5) as (vals & Hr & HF & HD).
  { vm_compute. reflexivity. }
  destruct (Species_init_classification "both.par" file_both vals Hr)
    as (_ & _ & _ & _ & H & _).
  rewrite HF, HD in H. apply H. unfold ANIMAL_INV. lra.
Defined.

(** C10, the claim as worded fails: a file that supplies [F] (with the
    value -1.0) and every required parameter is rejected as "not fully
    defined", and a file that supplies [F] but lacks the required [omega]
    is rejected by the reader. *)
Lemma Species_init_error_with_F_supplied :
  "F"%string ∈ file_F_minus_one.*1
  ∧ Species_init "b.par" file_F_minus_one
    = inl (runtime_error "Animal in b.par not fully defined.")
  ∧ "F"%string ∈ file_F_no_omega.*1
  ∧ ∃ e, Species_init "b.par" file_F_no_omega = inl e.
Proof.
  split; [|split; [|split]].
  - unfold file_F_minus_one, required_lines. simpl. set_solver.
  - destruct (ReadParameters_read_F_DeltaPhiMax file_F_minus_one (-1) (-1))
      as (vals & Hr & HF & HD).
    { vm_compute. reflexivity. }
    unfold Species_init. rewrite Hr, HF, HD.
    assert (Reqb (-1) ANIMAL_INV = true) as -> by (by apply Reqb_true).
    reflexivity.
  - unfold file_F_no_omega. simpl. set_solver.
  - assert (match ReadParameters_read Species_parameters file_F_no_omega with
            | inl _ => true | inr _ => false end = true) as H
      by (vm_compute; reflexivity).
    unfold Species_init.
    destruct (ReadParameters_read Species_parameters file_F_no_omega) as [e|vals];
      [by eexists | done].
Qed.

(** ** Running member functions *)

Lemma bind_Ok {A B} (m : M A) (k : A → M B) w a w' :
  m w = Ok a w' → bind m k w = k a w'.
Proof. unfold bind. by intros ->. Qed.

Lemma deref_animal_Ok w p a : store w !! p = Some a → deref_animal p w = Ok a w.
Proof. unfold deref_animal. by intros ->. Qed.
Lemma deref_animal_dangling w p : store w !! p = None → deref_animal p w = Undefined.
Proof. unfold deref_animal. by intros ->. Qed.
Lemma assign_animal_Ok w p a a' :
  store w !! p = Some a → assign_animal p a' w = Ok tt (set_store (insert p a') w).
Proof. unfold assign_animal. by intros ->. Qed.
Lemma deref_cell_Ok w c x : cells (geography w) !! c = Some x → deref_cell c w = Ok x w.
Proof. unfold deref_cell. by intros ->. Qed.
Lemma assign_cell_Ok w c x x' :
  cells (geography w) !! c = Some x → assign_cell c x' w = Ok tt (set_cells (insert c x') w).
Proof. unfold assign_cell. by intros ->. Qed.
Lemma deref_species_Ok w g sp : species w !! g = Some sp → deref_species g w = Ok sp w.
Proof. unfold deref_species. by intros ->. Qed.

(** ** Grazing *)

Lemma Cell_graze_min w c x ammount :
  cells (geography w) !! c = Some x →
  Cell_graze c ammount w =
    Ok (Rmin (feed x) ammount)
       (set_cells (insert c (with_feed (feed x - Rmin (feed x) ammount) x)) w).
Proof.
  intros Hc. unfold Cell_graze.
  rewrite (bind_Ok _ _ _ _ _ (deref_cell_Ok _ _ _ Hc)).
  destruct (Rgeb (feed x) ammount) eqn:E.
  - apply Rgeb_true in E. rewrite Rmin_right by lra.
    rewrite (bind_Ok _ _ _ _ _ (assign_cell_Ok _ _ _ _ Hc)). done.
  - apply Rgeb_false in E. rewrite Rmin_left by lra.
    rewrite (bind_Ok _ _ _ _ _ (assign_cell_Ok _ _ _ _ Hc)).
    unfold ret. by rewrite Rminus_diag.
Qed.

(** C7.  A herbivore of a species with feed desire [F] that feeds in a cell
    holding [f >= 0] is granted [min f F]: the feed of the cell becomes
    [f - min f F], which is not negative, the weight of the animal grows by
    [beta * min f F], and the vector returned holds the animal alone. *)
Theorem herbivore_feed_grants_min (w : World) (p : positive) (a : Animal)
    (sp : Species) (l : Z) (x : Cell) :
  store w !! p = Some a → species w !! isa a = Some sp → predatory sp = false →
  _loci a = Some l → cells (geography w) !! l = Some x → (0 <= feed x)%R →
  let granted := Rmin (feed x) (_F sp) in
  ∃ w', Animal_feed p w = Ok [p] w'
    ∧ (feed <$> cells (geography w') !! l) = Some (feed x - granted)%R
    ∧ (0 <= feed x - granted)%R
    ∧ (_vekt <$> store w' !! p) = Some (_vekt a + _beta sp * granted)%R.
Proof.
  intros Hp Hsp Hpred Hl Hc Hf granted.
  unfold Animal_feed.
  rewrite (bind_Ok _ _ _ _ _ (deref_animal_Ok _ _ _ Hp)).
  unfold Species_feed.
  rewrite (bind_Ok _ _ _ _ _ (deref_species_Ok _ _ _ Hsp)), Hpred.
  unfold Animal_location.
  rewrite (bind_Ok _ _ w l w); cycle 1.
  { rewrite (bind_Ok _ _ _ _ _ (deref_animal_Ok _ _ _ Hp)), Hl. done. }
  rewrite (bind_Ok _ _ _ _ _ (Cell_graze_min _ _ _ _ Hc)).
  unfold Animal_fatten.
  erewrite bind_Ok; cycle 1.
  { erewrite bind_Ok by (by apply deref_animal_Ok).
    by erewrite assign_animal_Ok. }
  eexists. split; [done|]. simpl.
  rewrite !lookup_insert_eq. simpl. fold granted.
  repeat split; try done.
  pose proof (Rmin_l (feed x) (_F sp)). unfold granted. lra.
Qed.

Lemma ret_Ok {A} (a : A) w : ret a w = Ok a w.
Proof. done. Qed.

Lemma bind_assoc {A B C} (m : M A) (f : A → M B) (g : B → M C) w :
  bind (bind m f) g w = bind m (λ x, bind (f x) g) w.
Proof. unfold bind. by destruct (m w). Qed.

Lemma set_store_insert_id w p a :
  store w !! p = Some a → set_store (insert p a) w = w.
Proof. intros H. destruct w; unfold set_store; simpl in *. by rewrite insert_id. Qed.
Lemma set_cells_insert_id w c x :
  cells (geography w) !! c = Some x → set_cells (insert c x) w = w.
Proof. intros H. destruct w as [[]]; unfold set_cells; simpl in *. by rewrite insert_id. Qed.
Lemma with_fitness_id a : with_fitness (_fitness a) a = a.
Proof. by destruct a. Qed.
Lemma with_loci_id a : with_loci (_loci a) a = a.
Proof. by destruct a. Qed.
Lemma with_habitants_id x : with_habitants (habitants x) x = x.
Proof. by destruct x. Qed.

(** [Animal::fitness] returns [fitness_value] and leaves it in the cache. *)
Lemma Animal_fitness_Ok w p a sp :
  store w !! p = Some a → species w !! isa a = Some sp →
  Animal_fitness p w =
    Ok (fitness_value sp a) (set_store (insert p (with_fitness (fitness_value sp a) a)) w).
Proof.
  intros Hp Hsp. unfold Animal_fitness, fitness_value.
  rewrite (bind_Ok _ _ _ _ _ (deref_animal_Ok _ _ _ Hp)).
  destruct (Reqb (_fitness a) ANIMAL_INV).
  - rewrite (bind_Ok _ _ _ _ _ (deref_species_Ok _ _ _ Hsp)).
    by rewrite (bind_Ok _ _ _ _ _ (assign_animal_Ok _ _ _ _ Hp)).
  - by rewrite with_fitness_id, set_store_insert_id.
Qed.

Lemma Cell_removeAnimal_Ok w c x p :
  cells (geography w) !! c = Some x →
  Cell_removeAnimal c p w =
    Ok tt (set_cells (insert c (with_habitants (habitants x ∖ {[p]}) x)) w).
Proof.
  intros Hc. unfold Cell_removeAnimal.
  rewrite (bind_Ok _ _ _ _ _ (deref_cell_Ok _ _ _ Hc)).
  by rewrite (assign_cell_Ok _ _ _ _ Hc).
Qed.

Lemma Cell_addAnimal_live w c x t p :
  cells (geography w) !! c = Some x → archetype x = Some t → _live t = true →
  Cell_addAnimal c p w =
    Ok true (set_cells (insert c (with_habitants ({[p]} ∪ habitants x) x)) w).
Proof.
  intros Hc Ht Hl. unfold Cell_addAnimal.
  rewrite (bind_Ok _ _ _ _ _ (deref_cell_Ok _ _ _ Hc)).
  unfold deref_archetype. rewrite Ht, (bind_Ok _ _ _ _ _ (ret_Ok _ _)), Hl. simpl.
  by rewrite (bind_Ok _ _ _ _ _ (assign_cell_Ok _ _ _ _ Hc)).
Qed.

Lemma Cell_addAnimal_refused w c x t p :
  cells (geography w) !! c = Some x → archetype x = Some t → _live t = false →
  Cell_addAnimal c p w = Ok false w.
Proof.
  intros Hc Ht Hl. unfold Cell_addAnimal.
  rewrite (bind_Ok _ _ _ _ _ (deref_cell_Ok _ _ _ Hc)).
  unfold deref_archetype. by rewrite Ht, (bind_Ok _ _ _ _ _ (ret_Ok _ _)), Hl.
Qed.

(** ** Death *)

(** [Species::die] decides by one draw against [deathProbability], and
    draws nothing when the fitness is not positive. *)
Lemma Species_die_Ok w g sp phi :
  species w !! g = Some sp →
  ∃ death w', Species_die g phi w = Ok death w'
    ∧ geography w' = geography w ∧ animals w' = animals w ∧ store w' = store w
    ∧ species w' = species w
    ∧ ((0 <= randomGen w (drawn w) < 1)%R →
       (death = true ↔ (randomGen w (drawn w) < deathProbability sp phi)%R)).
Proof.
  intros Hsp. unfold Species_die, deathProbability.
  rewrite (bind_Ok _ _ _ _ _ (deref_species_Ok _ _ _ Hsp)).
  destruct (Rleb phi 0).
  - exists true, w. repeat split; try done. lra.
  - unfold drand, bind, ret. eexists _, _. split; [done|]. simpl.
    repeat split; try done; apply Rltb_true.
Qed.

(** The second half of [Animal::die]: the animal leaves its cell and loses
    its location. *)
Lemma Animal_die_unregister w p a :
  store w !! p = Some a →
  (∀ l, _loci a = Some l → is_Some (cells (geography w) !! l)) →
  ∃ w', (let* a' := deref_animal p in
         match _loci a' with
         | Some l => Cell_removeAnimal l p
         | None => ret tt
         end;;;
         assign_animal p (with_loci None a');;; ret true) w = Ok true w'
    ∧ drawn w' = drawn w
    ∧ store w' = <[p := with_loci None a]> (store w)
    ∧ ∀ l, _loci a = Some l →
        ∃ x', cells (geography w') !! l = Some x' ∧ p ∉ habitants x'.
Proof.
  intros Hp Hl.
  rewrite (bind_Ok _ _ _ _ _ (deref_animal_Ok _ _ _ Hp)).
  destruct (_loci a) as [l|] eqn:El.
  - destruct (Hl l eq_refl) as [x Hx].
    rewrite (bind_Ok _ _ _ _ _ (Cell_removeAnimal_Ok _ _ _ _ Hx)).
    erewrite bind_Ok by (by eapply assign_animal_Ok).
    eexists. split; [done|]. simpl. repeat split; try done.
    intros ? [= <-]. eexists. rewrite lookup_insert_eq. split; [done|].
    simpl. set_solver.
  - rewrite (bind_Ok _ _ _ _ _ (ret_Ok _ _)).
    erewrite bind_Ok by (by eapply assign_animal_Ok).
    eexists. split; [done|]. by repeat split.
Qed.

(** C8.  [Animal::die] returns true exactly when the weight is 0 or the
    next uniform draw is below [deathProbability] of the fitness; at weight
    0 it returns true and draws nothing; when it returns true the animal is
    no longer among the habitants of its cell and has no location; when it
    returns false the grid, the population and the animals are as before,
    but for the fitness cache of the animal, which holds its fitness. *)
Theorem Animal_die_spec (w : World) (p : positive) (a : Animal) (sp : Species) :
  store w !! p = Some a → species w !! isa a = Some sp →
  (∀ l, _loci a = Some l → is_Some (cells (geography w) !! l)) →
  (0 <= randomGen w (drawn w) < 1)%R →
  let phi := fitness_value sp a in
  let u := randomGen w (drawn w) in
  ∃ death w', Animal_die p w = Ok death w'
    ∧ (death = true ↔ _vekt a = 0%R ∨ (u < deathProbability sp phi)%R)
    ∧ (_vekt a = 0%R → death = true ∧ drawn w' = drawn w)
    ∧ (death = true →
         (_loci <$> store w' !! p) = Some None
         ∧ ∀ l, _loci a = Some l →
             ∃ x', cells (geography w') !! l = Some x' ∧ p ∉ habitants x')
    ∧ (death = false →
         geography w' = geography w ∧ animals w' = animals w
         ∧ store w' = <[p := with_fitness phi a]> (store w)).
Proof.
  intros Hp Hsp Hl Hu phi u. unfold Animal_die.
  rewrite (bind_Ok _ _ _ _ _ (deref_animal_Ok _ _ _ Hp)).
  destruct (Reqb (_vekt a) 0) eqn:Ev.
  - apply Reqb_true in Ev.
    rewrite (bind_Ok _ _ _ _ _ (ret_Ok _ _)).
    destruct (Animal_die_unregister w p a Hp Hl) as (w' & -> & Hd & Hs & Hc).
    exists true, w'. split; [done|]. repeat split; try done; try tauto.
    by rewrite Hs, lookup_insert_eq.
  - apply Reqb_false in Ev.
    rewrite bind_assoc, (bind_Ok _ _ _ _ _ (Animal_fitness_Ok _ _ _ _ Hp Hsp)).
    fold phi.
    set (w1 := set_store (insert p (with_fitness phi a)) w).
    destruct (Species_die_Ok w1 (isa a) sp phi Hsp)
      as (death & w2 & Hdie & Hg & Ha & Hs & Hspc & Hiff).
    rewrite (bind_Ok _ _ _ _ _ Hdie).
    specialize (Hiff Hu). fold u in Hiff.
    assert (store w2 !! p = Some (with_fitness phi a)) as Hp2.
    { rewrite Hs. apply lookup_insert_eq. }
    destruct death.
    + destruct (Animal_die_unregister w2 p _ Hp2) as (w' & -> & Hd & Hs' & Hc).
      { simpl. rewrite Hg. apply Hl. }
      exists true, w'. split; [done|]. repeat split; try done; try tauto.
      by rewrite Hs', lookup_insert_eq.
    + exists false, w2. split; [done|]. repeat split; try done.
      intros [?|?]; [done|]. by apply Hiff.
Qed.

(** ** Moves *)

Lemma Animal_moveTo_null w p : Animal_moveTo p None w = Ok false w.
Proof. done. Qed.

Lemma Animal_moveTo_refused w p d x t :
  cells (geography w) !! d = Some x → archetype x = Some t → _live t = false →
  Animal_moveTo p (Some d) w = Ok false w.
Proof.
  intros Hd Ht Hl. unfold Animal_moveTo.
  by rewrite (bind_Ok _ _ _ _ _ (Cell_addAnimal_refused _ _ _ _ _ Hd Ht Hl)).
Qed.

(** A move to the cell the animal is in changes nothing. *)
Lemma Animal_moveTo_same w p a d x t :
  store w !! p = Some a → _loci a = Some d →
  cells (geography w) !! d = Some x → archetype x = Some t → _live t = true →
  p ∈ habitants x →
  Animal_moveTo p (Some d) w = Ok true w.
Proof.
  intros Hp Hl Hd Ht Hlive Hin. unfold Animal_moveTo.
  rewrite (bind_Ok _ _ _ _ _ (Cell_addAnimal_live _ _ _ _ _ Hd Ht Hlive)).
  assert ({[p]} ∪ habitants x = habitants x) as -> by set_solver.
  rewrite with_habitants_id, set_cells_insert_id by done.
  rewrite (bind_Ok _ _ _ _ _ (deref_animal_Ok _ _ _ Hp)), Hl, Z.eqb_refl. simpl.
  rewrite (bind_Ok _ _ _ _ _ (ret_Ok _ _)).
  rewrite (bind_Ok _ _ _ _ _ (assign_animal_Ok _ _ _ _ Hp)).
  rewrite <- Hl, with_loci_id, set_store_insert_id by done.
  done.
Qed.

(** A move to another live cell. *)
Lemma Animal_moveTo_other w p a d x t :
  store w !! p = Some a → _loci a ≠ Some d →
  cells (geography w) !! d = Some x → archetype x = Some t → _live t = true →
  (∀ l, _loci a = Some l → is_Some (cells (geography w) !! l)) →
  ∃ w', Animal_moveTo p (Some d) w = Ok true w'
    ∧ store w' = <[p := with_loci (Some d) a]> (store w)
    ∧ species w' = species w ∧ animals w' = animals w
    ∧ randomGen w' = randomGen w ∧ drawn w' = drawn w
    ∧ _rows (geography w') = _rows (geography w)
    ∧ _cols (geography w') = _cols (geography w)
    ∧ cells (geography w') =
        match _loci a with
        | Some l =>
            match cells (geography w) !! l with
            | Some y => <[l := with_habitants (habitants y ∖ {[p]}) y]>
            | None => λ m, m
            end
        | None => λ m, m
        end (<[d := with_habitants ({[p]} ∪ habitants x) x]> (cells (geography w))).
Proof.
  intros Hp Hne Hd Ht Hlive Hl. unfold Animal_moveTo.
  rewrite (bind_Ok _ _ _ _ _ (Cell_addAnimal_live _ _ _ _ _ Hd Ht Hlive)).
  erewrite bind_Ok by (by apply deref_animal_Ok).
  destruct (_loci a) as [l|] eqn:El.
  - assert (l ≠ d) as Hld by congruence.
    destruct (Z.eqb_spec l d); [done|]. simpl.
    destruct (Hl l eq_refl) as [y Hy]. rewrite Hy.
    erewrite bind_Ok; cycle 1.
    { apply Cell_removeAnimal_Ok. simpl. by rewrite lookup_insert_ne. }
    erewrite bind_Ok by (by eapply assign_animal_Ok).
    eexists. split; [done|]. by repeat split.
  - rewrite (bind_Ok _ _ _ _ _ (ret_Ok _ _)).
    erewrite bind_Ok by (by eapply assign_animal_Ok).
    eexists. split; [done|]. by repeat split.
Qed.

Lemma Animal_moveTo_other_inv w p a d x t w' :
  membership_inv w → residents_live w →
  store w !! p = Some a → _loci a ≠ Some d →
  cells (geography w) !! d = Some x → archetype x = Some t → _live t = true →
  Animal_moveTo p (Some d) w = Ok true w' →
  membership_inv w' ∧ residents_live w'.
Proof.
  intros Hinv Hlive Hp Hne Hd Ht Hl Hmove.
  assert (∀ l, _loci a = Some l → ∃ y, cells (geography w) !! l = Some y ∧ p ∈ habitants y)
    as Hold.
  { intros l El. apply Hinv. eauto. }
  destruct (Animal_moveTo_other w p a d x t Hp Hne Hd Ht Hl)
    as (w'' & Hm & Hs & _ & _ & _ & _ & _ & _ & Hc).
  { intros l El. destruct (Hold l El) as (y & Hy & _). eauto. }
  rewrite Hm in Hmove. injection Hmove as ->.
  assert (p ∉ habitants x) as Hpx.
  { intros Hin. destruct (proj1 (Hinv p d)) as (a' & Ha' & El'); [eauto|]. congruence. }
  split.
  - intros q c. rewrite Hs, Hc.
    destruct (_loci a) as [l|] eqn:El.
    + destruct (Hold l eq_refl) as (y & Hy & Hpy). rewrite Hy.
      assert (l ≠ d) by congruence.
      destruct (decide (p = q)) as [<-|Hq].
      * rewrite (lookup_insert_eq (store w)).
        destruct (decide (c = l)) as [->|Hcl]; [|destruct (decide (c = d)) as [->|Hcd]].
        -- rewrite lookup_insert_eq. split.
           ++ intros (x' & [= <-] & Hin). simpl in Hin. set_solver.
           ++ intros (b & [= <-] & [= ?]). done.
        -- rewrite lookup_insert_ne, lookup_insert_eq by done. split.
           ++ intros _. eexists. by split.
           ++ intros _. eexists. split; [done|]. simpl. set_solver.
        -- rewrite !lookup_insert_ne by done. split.
           ++ intros (x' & Hx' & Hin).
              destruct (proj1 (Hinv p c)) as (a' & Ha' & El'); [eauto|]. congruence.
           ++ intros (b & [= <-] & [= ?]). done.
      * rewrite (lookup_insert_ne (store w) p q) by done. rewrite <- (Hinv q c).
        destruct (decide (c = l)) as [->|Hcl]; [|destruct (decide (c = d)) as [->|Hcd]].
        -- rewrite lookup_insert_eq, Hy. split.
           ++ intros (x' & [= <-] & Hin). simpl in Hin. eexists. split; [done|]. set_solver.
           ++ intros (x' & [= <-] & Hin). eexists. split; [done|]. simpl. set_solver.
        -- rewrite lookup_insert_ne, lookup_insert_eq, Hd by done. split.
           ++ intros (x' & [= <-] & Hin). simpl in Hin. eexists. split; [done|]. set_solver.
           ++ intros (x' & [= <-] & Hin). eexists. split; [done|]. simpl. set_solver.
        -- by rewrite !lookup_insert_ne.
    + destruct (decide (p = q)) as [<-|Hq].
      * rewrite (lookup_insert_eq (store w)).
        destruct (decide (c = d)) as [->|Hcd].
        -- rewrite lookup_insert_eq. split.
           ++ intros _. eexists. by split.
           ++ intros _. eexists. split; [done|]. simpl. set_solver.
        -- rewrite lookup_insert_ne by done. split.
           ++ intros (x' & Hx' & Hin).
              destruct (proj1 (Hinv p c)) as (a' & Ha' & El'); [eauto|]. congruence.
           ++ intros (b & [= <-] & [= ?]). done.
      * rewrite (lookup_insert_ne (store w) p q) by done. rewrite <- (Hinv q c).
        destruct (decide (c = d)) as [->|Hcd].
        -- rewrite lookup_insert_eq, Hd. split.
           ++ intros (x' & [= <-] & Hin). simpl in Hin. eexists. split; [done|]. set_solver.
           ++ intros (x' & [= <-] & Hin). eexists. split; [done|]. simpl. set_solver.
        -- by rewrite lookup_insert_ne.
  - intros c x' q. rewrite Hc.
    assert (∀ m : gmap Z Cell,
              (∀ c x' q, m !! c = Some x' → q ∈ habitants x' →
                         ∃ t, archetype x' = Some t ∧ _live t = true) →
              ∀ l y, cells (geography w) !! l = Some y →
              ∀ c x' q, <[l := with_habitants (habitants y ∖ {[p]}) y]> m !! c = Some x' →
                        q ∈ habitants x' → ∃ t, archetype x' = Some t ∧ _live t = true)
      as Hrem.
    { intros m Hmm l y Hy c0 x0 q0. destruct (decide (c0 = l)) as [->|].
      - rewrite lookup_insert_eq. intros [= <-] Hin. simpl in *.
        apply (Hlive l y q0); [done | set_solver].
      - rewrite lookup_insert_ne by done. apply Hmm. }
    assert (∀ c x' q, <[d := with_habitants ({[p]} ∪ habitants x) x]>
                        (cells (geography w)) !! c = Some x' →
                      q ∈ habitants x' → ∃ t, archetype x' = Some t ∧ _live t = true)
      as Hadd.
    { intros c0 x0 q0. destruct (decide (c0 = d)) as [->|].
      - rewrite lookup_insert_eq. intros [= <-] _. simpl. eauto.
      - rewrite lookup_insert_ne by done. apply Hlive. }
    destruct (_loci a) as [l|] eqn:El; [|apply Hadd].
    destruct (Hold l eq_refl) as (y & Hy & _). rewrite Hy.
    by apply Hrem.
Qed.

(** C9.  [Animal::moveTo] preserves the mutual membership of cells and
    animals.  The move fails exactly when the destination is null or of a
    terrain kind that is not live, and then the world is unchanged; a move
    to the animal's own cell succeeds and changes nothing; a successful
    move leaves the animal among the habitants of the destination, with the
    destination as its location, and no longer among those of the cell it
    left. *)
Theorem moveTo_preserves_membership (w : World) (p : positive) (a : Animal)
    (destination : option Z) :
  membership_inv w → residents_live w → store w !! p = Some a →
  (∀ d, destination = Some d →
        ∃ x t, cells (geography w) !! d = Some x ∧ archetype x = Some t) →
  ∃ moved w', Animal_moveTo p destination w = Ok moved w'
    ∧ membership_inv w' ∧ residents_live w'
    ∧ (moved = false ↔
         destination = None
         ∨ ∃ d x t, destination = Some d ∧ cells (geography w) !! d = Some x
                    ∧ archetype x = Some t ∧ _live t = false)
    ∧ (moved = false → w' = w)
    ∧ (destination = _loci a → destination ≠ None → moved = true ∧ w' = w)
    ∧ (moved = true →
         (_loci <$> store w' !! p) = Some destination
         ∧ (∀ d, destination = Some d →
                 ∃ x', cells (geography w') !! d = Some x' ∧ p ∈ habitants x')
         ∧ (∀ l, _loci a = Some l → destination ≠ Some l →
                 ∃ y', cells (geography w') !! l = Some y' ∧ p ∉ habitants y')).
Proof.
  intros Hinv Hlive Hp Hdest.
  destruct destination as [d|]; cycle 1.
  { exists false, w. rewrite Animal_moveTo_null. split_and!; try done; naive_solver. }
  destruct (Hdest d eq_refl) as (x & t & Hd & Ht).
  destruct (_live t) eqn:Hl; cycle 1.
  { exists false, w. rewrite (Animal_moveTo_refused _ _ _ _ _ Hd Ht Hl).
    assert (_loci a ≠ Some d) as Hne.
    { intros E. destruct (proj2 (Hinv p d)) as (x' & Hx' & Hin); [eauto|].
      destruct (Hlive d x' p Hx' Hin) as (t' & Ht' & Hl'). congruence. }
    split_and!; try done; naive_solver. }
  destruct (decide (_loci a = Some d)) as [E|E].
  - assert (p ∈ habitants x) as Hin.
    { destruct (proj2 (Hinv p d)) as (x' & Hx' & Hin); [eauto|]. congruence. }
    exists true, w. rewrite (Animal_moveTo_same _ _ _ _ _ _ Hp E Hd Ht Hl Hin).
    split_and!; try done.
    + split; [done|]. intros [?|(d' & x' & t' & [= <-] & Hx' & Ht' & Hl')]; congruence.
    + intros _. split_and!.
      * by rewrite Hp, <- E.
      * intros ? [= <-]. eauto.
      * intros l El Hne. congruence.
  - assert (∀ l, _loci a = Some l →
                 ∃ y, cells (geography w) !! l = Some y ∧ p ∈ habitants y) as Hold.
    { intros l El. apply Hinv. eauto. }
    destruct (Animal_moveTo_other w p a d x t Hp E Hd Ht Hl)
      as (w' & Hm & Hs & _ & _ & _ & _ & _ & _ & Hc).
    { intros l El. destruct (Hold l El) as (y & Hy & _). eauto. }
    destruct (Animal_moveTo_other_inv w p a d x t w' Hinv Hlive Hp E Hd Ht Hl Hm)
      as [Hinv' Hlive'].
    exists true, w'. rewrite Hm. split_and!; try done; try (intros E' _; congruence).
    + split; [done|]. intros [?|(d' & x' & t' & [= <-] & Hx' & Ht' & Hl')]; congruence.
    + intros _. split_and!.
      * by rewrite Hs, lookup_insert_eq.
      * intros ? [= <-]. apply Hinv'. exists (with_loci (Some d) a).
        by rewrite Hs, lookup_insert_eq.
      * intros l El Hne. destruct (Hold l El) as (y & Hy & Hpy).
        rewrite Hc, El, Hy, lookup_insert_eq. eexists. split; [done|]. simpl. set_solver.
Qed.

(** ** Loading one record of a population file *)

Lemma Simulation_vivify_rejected w g x y :
  (_cols (geography w) ≤ x)%Z ∨ (_rows (geography w) ≤ y)%Z
  ∨ (∃ c t, cells (geography w) !! coordPack x y = Some c
            ∧ archetype c = Some t ∧ _live t = false) →
  Simulation_vivify g x y w = Ok None w.
Proof.
  intros H. unfold Simulation_vivify.
  destruct (Z.leb_spec (_cols (geography w)) x) as [Hx|Hx].
  { by rewrite (bind_Ok _ _ _ _ _ (Map_at_xy_outside w x y (or_introl Hx))). }
  destruct (Z.leb_spec (_rows (geography w)) y) as [Hy|Hy].
  { by rewrite (bind_Ok _ _ _ _ _ (Map_at_xy_outside w x y (or_intror Hy))). }
  destruct H as [H|[H|(c & t & Hc & Ht & Hl)]]; [lia..|].
  rewrite (bind_Ok _ _ _ _ _ (Map_at_xy_inside w x y Hx Hy (mk_is_Some _ _ Hc))).
  unfold Cell_addAnimal_query.
  erewrite bind_Ok; cycle 1.
  { rewrite (bind_Ok _ _ _ _ _ (deref_cell_Ok _ _ _ Hc)).
    unfold deref_archetype. rewrite Ht. by rewrite (bind_Ok _ _ _ _ _ (ret_Ok _ _)). }
  by rewrite Hl.
Qed.

(** C4 (as amended).  A population record whose species name is unknown is
    rejected without an error: the insertion returns the null pointer and
    changes nothing.  So is a record of a known species whose coordinates
    are outside the grid or whose cell is of a terrain kind that is not
    live. *)
Theorem insertAnimal_rejects_silently (w : World) (typeName : string) (age : Z)
    (weight : R) (x y : Z) :
  genus_from 0 (species w) typeName = None
  ∨ (_cols (geography w) ≤ x)%Z ∨ (_rows (geography w) ≤ y)%Z
  ∨ (∃ c t, cells (geography w) !! coordPack x y = Some c
            ∧ archetype c = Some t ∧ _live t = false) →
  Simulation_insertAnimal_name typeName age weight x y w = Ok None w.
Proof.
  intros H. unfold Simulation_insertAnimal_name, Simulation_genus.
  rewrite (bind_Ok _ _ w (genus_from 0 (species w) typeName) w) by done.
  destruct (genus_from 0 (species w) typeName) as [g|]; [|done].
  destruct H as [H|H]; [done|].
  unfold Simulation_insertAnimal.
  by rewrite (bind_Ok _ _ _ _ _ (Simulation_vivify_rejected w g x y H)).
Qed.

Lemma insertAnimal_rejects_silently_witness :
  Simulation_insertAnimal_name "B" 3 4 1 0 shore = Ok None shore
  ∧ Simulation_insertAnimal_name "B" 3 4 0 7 shore = Ok None shore
  ∧ Simulation_insertAnimal_name "X" 3 4 0 0 shore = Ok None shore.
Proof.
  split_and!.
  - apply (insertAnimal_rejects_silently shore "B" 3 4 1 0).
    right. right. right. exists (cell_at water 1 0), water. by split_and!.
  - apply (insertAnimal_rejects_silently shore "B" 3 4 0 7).
    right. right. left. simpl. lia.
  - apply (insertAnimal_rejects_silently shore "X" 3 4 0 0).
    left. reflexivity.
Defined.

(** C4, the claim as worded fails: for a species name that no species
    carries the insertion raises no error; it returns the null pointer. *)
Lemma insertAnimal_unknown_species_no_error :
  genus_from 0 (species shore) "X" = None
  ∧ Simulation_insertAnimal_name "X" 3 4 0 0 shore = Ok None shore
  ∧ ¬ ∃ e, Simulation_insertAnimal_name "X" 3 4 0 0 shore = Throw e.
Proof.
  split_and!; [done | done |]. by intros [e [=]].
Qed.

(** ** The example world [shore] *)

Lemma shore_membership : membership_inv shore ∧ residents_live shore.
Proof.
  assert (coordPack 1 0 ≠ coordPack 0 0) as Hne by done.
  split.
  - intros p c. simpl. split.
    + intros (x & Hx & Hin).
      destruct (decide (c = coordPack 0 0)) as [->|Hc0].
      * rewrite lookup_insert_eq in Hx. injection Hx as <-.
        simpl in Hin. apply elem_of_singleton in Hin as ->.
        exists grazer. by rewrite lookup_singleton_eq.
      * rewrite lookup_insert_ne in Hx by done.
        destruct (decide (c = coordPack 1 0)) as [->|Hc1].
        -- rewrite lookup_insert_eq in Hx. injection Hx as <-. set_solver.
        -- by rewrite lookup_insert_ne, lookup_empty in Hx.
    + intros (a & Ha & Hl).
      destruct (decide (p = 1%positive)) as [->|Hp].
      * rewrite lookup_singleton_eq in Ha. injection Ha as <-. injection Hl as <-.
        exists pasture. rewrite lookup_insert_eq. split; [done|]. set_solver.
      * by rewrite lookup_singleton_ne in Ha.
  - intros c x p. simpl. intros Hx Hin.
    destruct (decide (c = coordPack 0 0)) as [->|Hc0].
    + rewrite lookup_insert_eq in Hx. injection Hx as <-. by exists jungle.
    + rewrite lookup_insert_ne in Hx by done.
      destruct (decide (c = coordPack 1 0)) as [->|Hc1].
      * rewrite lookup_insert_eq in Hx. injection Hx as <-. set_solver.
      * by rewrite lookup_insert_ne, lookup_empty in Hx.
Qed.

(** The scenario of a feed desire of 10 in a cell that holds 6: the cell
    ends at 0 and the animal gains [beta * 6]. *)
Lemma herbivore_feed_grants_min_witness :
  ∃ w', Animal_feed 1 shore = Ok [1%positive] w'
    ∧ (feed <$> cells (geography w') !! coordPack 0 0) = Some 0%R
    ∧ (_vekt <$> store w' !! 1%positive) = Some (5 + 1 * 6)%R.
Proof.
  destruct (herbivore_feed_grants_min shore 1 grazer (unit_species "B" false)
              (coordPack 0 0) pasture) as (w' & H1 & H2 & _ & H4);
    try reflexivity.
  { simpl. lra. }
  exists w'. simpl in *. rewrite Rmin_left in H2, H4 by lra.
  rewrite Rminus_diag in H2. done.
Defined.

Lemma Animal_die_spec_witness :
  ∃ death w', Animal_die 1 shore = Ok death w'
    ∧ (death = true ↔
         _vekt grazer = 0%R
         ∨ (randomGen shore (drawn shore)
            < deathProbability (unit_species "B" false)
                (fitness_value (unit_species "B" false) grazer))%R).
Proof.
  destruct (Animal_die_spec shore 1 grazer (unit_species "B" false))
    as (death & w' & H & Hiff & _); try reflexivity.
  - intros l [= <-]. by exists pasture.
  - simpl. lra.
  - by exists death, w'.
Defined.

Lemma moveTo_preserves_membership_witness :
  ∃ moved w', Animal_moveTo 1 (Some (coordPack 1 0)) shore = Ok moved w'
    ∧ membership_inv w' ∧ residents_live w'.
Proof.
  destruct (moveTo_preserves_membership shore 1 grazer (Some (coordPack 1 0)))
    as (moved & w' & H & Hm & Hr & _).
  - apply shore_membership.
  - apply shore_membership.
  - reflexivity.
  - intros d [= <-]. by exists (cell_at water 1 0), water.
  - by exists moved, w'.
Defined.

(** ** Breeding *)

(** *** The invariant and the frame under the elementary updates *)

Lemma breeding_inv_ext w w' :
  geography w' = geography w → store w' = store w → species w' = species w →
  breeding_inv w → breeding_inv w'.
Proof.
  intros Hg Hs Hsp (Hm & Hl & Hv). unfold breeding_inv, membership_inv, residents_live.
  rewrite Hg, Hs, Hsp. done.
Qed.

Lemma born_in_refl P w : born_in P w w.
Proof.
  unfold born_in. naive_solver.
Qed.

Lemma born_in_ext P w w1 w2 :
  geography w2 = geography w1 → store w2 = store w1 → species w2 = species w1 →
  born_in P w w1 → born_in P w w2.
Proof.
  intros Hg Hs Hsp. unfold born_in. rewrite Hg, Hs, Hsp. done.
Qed.

Lemma born_in_trans (P Q R' : Z → nat → Prop) w0 w1 w2 :
  (∀ c g, P c g → R' c g) → (∀ c g, Q c g → R' c g) →
  born_in P w0 w1 → born_in Q w1 w2 → born_in R' w0 w2.
Proof.
  intros HP HQ (Hs1 & Hc1 & Ho1 & Hn1) (Hs2 & Hc2 & Ho2 & Hn2). split_and!.
  - congruence.
  - intros c x Hx. destruct (Hc1 c x Hx) as (x1 & Hx1 & E1).
    destruct (Hc2 c x1 Hx1) as (x2 & Hx2 & E2). exists x2. split; congruence.
  - intros p a Hp. destruct (Ho1 p a Hp) as (a1 & Hp1 & ? & ? & ?).
    destruct (Ho2 p a1 Hp1) as (a2 & Hp2 & ? & ? & ?).
    exists a2. split_and!; congruence.
  - intros p a2 Hn Hp2. destruct (store w1 !! p) as [a1|] eqn:Hp1.
    + destruct (Ho2 p a1 Hp1) as (a2' & Hp2' & Hi & _ & Hl).
      destruct (Hn1 p a1 Hn Hp1) as (c & Hc & HPc).
      assert (a2' = a2) as -> by congruence.
      exists c. split; [congruence|]. apply HP. congruence.
    + destruct (Hn2 p a2 Hp1 Hp2) as (c & Hc & HQc). exists c. split; [done|]. by apply HQ.
Qed.

(** An assignment to an animal that keeps its species and location. *)
Lemma breeding_inv_update w p a a' :
  breeding_inv w → store w !! p = Some a →
  isa a' = isa a → _loci a' = _loci a →
  breeding_inv (set_store (insert p a') w).
Proof.
  intros (Hm & Hl & Hv) Hp Hi Hloc. split_and!.
  - intros q c. simpl. rewrite (Hm q c).
    destruct (decide (p = q)) as [<-|Hq].
    + rewrite lookup_insert_eq. split.
      * intros (b & Hb & Hlb). exists a'. split; [done|]. congruence.
      * intros (b & [= <-] & Hlb). exists a. split; [done|]. congruence.
    + by rewrite lookup_insert_ne.
  - done.
  - intros q b. simpl. destruct (decide (p = q)) as [<-|Hq].
    + rewrite lookup_insert_eq. intros [= <-]. rewrite Hi. eauto.
    + rewrite lookup_insert_ne by done. apply Hv.
Qed.

Lemma born_in_update P w p a a' :
  store w !! p = Some a →
  isa a' = isa a → _alder a' = _alder a → _loci a' = _loci a →
  born_in P w (set_store (insert p a') w).
Proof.
  intros Hp Hi Ha Hl. split_and!; try done.
  - intros c x Hx. eauto.
  - intros q b Hq. simpl. destruct (decide (p = q)) as [<-|Hne].
    + rewrite lookup_insert_eq. exists a'. split_and!; congruence.
    + rewrite lookup_insert_ne by done. eauto.
  - intros q b Hn. simpl. destruct (decide (p = q)) as [<-|Hne]; [congruence|].
    rewrite lookup_insert_ne by done. congruence.
Qed.

(** [Animal::fitness] under the invariant. *)
Lemma Animal_fitness_inv w p a :
  breeding_inv w → store w !! p = Some a →
  ∃ phi w', Animal_fitness p w = Ok phi w' ∧ breeding_inv w'
    ∧ born_in (λ _ _, False) w w' ∧ randomGen w' = randomGen w.
Proof.
  intros Hinv Hp. destruct Hinv as (Hm & Hl & Hv).
  destruct (Hv p a Hp) as [sp Hsp].
  rewrite (Animal_fitness_Ok w p a sp Hp Hsp).
  eexists _, _. split; [done|]. split_and!.
  - by apply (breeding_inv_update w p a).
  - by apply (born_in_update _ w p a).
  - done.
Qed.

(** The allocation of an animal that has no location yet. *)
Lemma breeding_inv_alloc w q a0 :
  breeding_inv w → store w !! q = None →
  _loci a0 = None → is_Some (species w !! isa a0) →
  breeding_inv (set_store (insert q a0) w).
Proof.
  intros (Hm & Hl & Hv) Hq Hloc Hsp. split_and!.
  - intros p c. simpl. rewrite (Hm p c).
    destruct (decide (q = p)) as [<-|Hne].
    + rewrite lookup_insert_eq, Hq. split.
      * by intros (b & [=] & _).
      * intros (b & [= <-] & Hb). congruence.
    + by rewrite lookup_insert_ne.
  - done.
  - intros p b. simpl. destruct (decide (q = p)) as [<-|Hne].
    + rewrite lookup_insert_eq. by intros [= <-].
    + rewrite lookup_insert_ne by done. apply Hv.
Qed.

(** The first move of a new animal, into a live cell. *)
Lemma Animal_moveTo_born w q a0 c x t :
  breeding_inv w → store w !! q = Some a0 → _loci a0 = None →
  cells (geography w) !! c = Some x → archetype x = Some t → _live t = true →
  ∃ w', Animal_moveTo q (Some c) w = Ok true w' ∧ breeding_inv w'
    ∧ store w' = <[q := with_loci (Some c) a0]> (store w)
    ∧ species w' = species w ∧ randomGen w' = randomGen w ∧ drawn w' = drawn w
    ∧ animals w' = animals w
    ∧ cells (geography w') =
        <[c := with_habitants ({[q]} ∪ habitants x) x]> (cells (geography w)).
Proof.
  intros (Hm & Hl & Hv) Hq Hloc Hc Ht Hlive.
  assert (_loci a0 ≠ Some c) as Hne by congruence.
  destruct (Animal_moveTo_other w q a0 c x t Hq Hne Hc Ht Hlive)
    as (w' & Hmove & Hs & Hsp & Han & Hr & Hd & _ & _ & Hcells).
  { intros l El. congruence. }
  destruct (Animal_moveTo_other_inv w q a0 c x t w' Hm Hl Hq Hne Hc Ht Hlive Hmove)
    as [Hm' Hl'].
  exists w'. split; [done|]. rewrite Hloc in Hcells. split_and!; try done.
  split_and!; try done.
  intros p b. rewrite Hs, Hsp. destruct (decide (q = p)) as [<-|Hqp].
  - rewrite lookup_insert_eq. intros [= <-]. simpl. eauto.
  - rewrite lookup_insert_ne by done. apply Hv.
Qed.

(** [Animal::Animal(type, location)] at a live cell: one new animal of the
    species [type], in the cell [c]. *)
Lemma Animal_new_inv w type sp c x t :
  breeding_inv w → species w !! type = Some sp →
  cells (geography w) !! c = Some x → archetype x = Some t → _live t = true →
  ∃ q w', Animal_new type (Some c) w = Ok q w' ∧ breeding_inv w'
    ∧ born_in (λ c' g', c' = c ∧ g' = type) w w'
    ∧ randomGen w' = randomGen w ∧ drawn w' = drawn w
    ∧ store w !! q = None
    ∧ (∃ x', cells (geography w') !! c = Some x' ∧ q ∈ habitants x').
Proof.
  intros Hinv Hsp Hc Ht Hlive. unfold Animal_new.
  rewrite (bind_Ok _ _ _ _ _ (deref_species_Ok _ _ _ Hsp)).
  set (a0 := {| isa := type; _vekt := Species_birthweight sp; _alder := 0;
                _loci := None; _fitness := ANIMAL_INV |}).
  set (q := fresh (dom (store w))).
  assert (store w !! q = None) as Hq.
  { apply not_elem_of_dom. apply is_fresh. }
  set (w1 := set_store (insert q a0) w).
  rewrite (bind_Ok _ _ w q w1) by done.
  assert (breeding_inv w1) as Hinv1.
  { apply breeding_inv_alloc; first [done | simpl; eauto]. }
  destruct (Animal_moveTo_born w1 q a0 c x t Hinv1)
    as (w2 & Hmove & Hinv2 & Hs2 & Hsp2 & Hr2 & Hd2 & Han2 & Hc2); try done.
  { apply lookup_insert_eq. }
  rewrite (bind_Ok _ _ _ _ _ Hmove).
  assert (store w2 !! q = Some (with_loci (Some c) a0)) as Hq2.
  { rewrite Hs2. apply lookup_insert_eq. }
  rewrite (bind_Ok _ _ _ _ _ (deref_animal_Ok _ _ _ Hq2)).
  rewrite (bind_Ok _ _ _ _ _ (assign_animal_Ok _ _ _ _ Hq2)).
  eexists q, _. split; [done|]. split_and!; try done.
  - by apply (breeding_inv_update w2 q (with_loci (Some c) a0)).
  - split_and!.
    + done.
    + intros c' x' Hx'. simpl. rewrite Hc2. simpl.
      destruct (decide (c = c')) as [<-|Hcc].
      * rewrite lookup_insert_eq. eexists. split; [done|]. simpl. congruence.
      * rewrite lookup_insert_ne by done. eauto.
    + intros p b Hp. simpl. rewrite Hs2. simpl.
      assert (q ≠ p) by congruence.
      rewrite !lookup_insert_ne by done. eauto.
    + intros p b Hn. simpl. rewrite Hs2. simpl.
      destruct (decide (q = p)) as [<-|Hqp].
      * rewrite lookup_insert_eq. intros [= <-]. simpl. eauto.
      * rewrite !lookup_insert_ne by done. congruence.
  - simpl. rewrite Hc2, lookup_insert_eq. eexists. split; [done|]. simpl. set_solver.
Qed.

(** [Animal::breed] for an animal in its cell: at most one new animal, of
    the species and in the cell of the parent; there is one exactly when
    the parent is not of age 0 and can breed. *)
Lemma Animal_breed_inv w p a c sp :
  breeding_inv w → store w !! p = Some a → _loci a = Some c →
  species w !! isa a = Some sp →
  ∃ offspring w', Animal_breed p w = Ok offspring w' ∧ breeding_inv w'
    ∧ born_in (λ c' g', c' = c ∧ g' = isa a) w w'
    ∧ randomGen w' = randomGen w
    ∧ (negb (_alder a =? 0)%Z && Species_canBreed sp (_vekt a) = true →
       is_Some offspring)
    ∧ (∀ q, offspring = Some q → store w !! q = None ∧ is_Some (store w' !! q)).
Proof.
  intros Hinv Hp Hloc Hsp. pose proof Hinv as (Hm & Hl & Hv).
  destruct (proj2 (Hm p c)) as (x & Hx & Hin); [eauto|].
  destruct (Hl c x p Hx Hin) as (t & Ht & Hlive).
  unfold Animal_breed.
  rewrite (bind_Ok _ _ _ _ _ (deref_animal_Ok _ _ _ Hp)).
  rewrite (bind_Ok _ _ _ _ _ (deref_species_Ok _ _ _ Hsp)).
  destruct (negb (_alder a =? 0)%Z && Species_canBreed sp (_vekt a)).
  - rewrite (bind_Ok _ _ _ _ _ (assign_animal_Ok _ _ _ _ Hp)).
    set (a1 := {| isa := isa a; _vekt := (_vekt a - Species_birthloss sp)%R;
                  _alder := _alder a; _loci := _loci a; _fitness := ANIMAL_INV |}).
    set (w1 := set_store (insert p a1) w).
    assert (breeding_inv w1) as Hinv1 by (by apply (breeding_inv_update w p a)).
    assert (born_in (λ _ _, False) w w1) as Hb1 by (by apply (born_in_update _ w p a)).
    rewrite Hloc.
    destruct (Animal_new_inv w1 (isa a) sp c x t Hinv1)
      as (q & w2 & Hnew & Hinv2 & Hb2 & Hr2 & _ & Hq1 & (x2 & Hx2 & Hin2)); try done.
    rewrite (bind_Ok _ _ _ _ _ Hnew).
    exists (Some q), w2. split; [done|]. split_and!; try done.
    + eapply born_in_trans; [| |exact Hb1|exact Hb2]; simpl; tauto.
    + intros q' [= <-]. split.
      * simpl in Hq1. destruct (decide (p = q)) as [<-|Hne].
        -- by rewrite lookup_insert_eq in Hq1.
        -- by rewrite lookup_insert_ne in Hq1.
      * destruct Hinv2 as (Hm2 & _).
        destruct (proj1 (Hm2 q c)) as (b & Hb & _); eauto.
  - exists None, w. split; [done|]. split_and!; try done. apply born_in_refl.
Qed.

Lemma born_in_keep P w w' p g c :
  born_in P w w' →
  (∃ a, store w !! p = Some a ∧ isa a = g ∧ _loci a = Some c) →
  ∃ a', store w' !! p = Some a' ∧ isa a' = g ∧ _loci a' = Some c.
Proof.
  intros (_ & _ & Ho & _) (a & Hp & Hi & Hl).
  destruct (Ho p a Hp) as (a' & Hp' & ? & ? & ?). exists a'. split_and!; congruence.
Qed.

Lemma born_in_weaken (P Q : Z → nat → Prop) w w' :
  (∀ c g, P c g → Q c g) → born_in P w w' → born_in Q w w'.
Proof.
  intros HPQ (Hs & Hc & Ho & Hn). split_and!; try done.
  intros p a' Hp Hp'. destruct (Hn p a' Hp Hp') as (c & Hc' & HP). eauto.
Qed.

(** [Species::birthChance] under the invariant. *)
Lemma Species_birthChance_inv w g sp p a largeN :
  breeding_inv w → species w !! g = Some sp → store w !! p = Some a →
  ∃ r w', Species_birthChance g p largeN w = Ok r w' ∧ breeding_inv w'
    ∧ born_in (λ _ _, False) w w' ∧ randomGen w' = randomGen w.
Proof.
  intros Hinv Hsp Hp. unfold Species_birthChance.
  rewrite (bind_Ok _ _ _ _ _ (deref_species_Ok _ _ _ Hsp)).
  destruct (Animal_fitness_inv w p a Hinv Hp) as (phi & w' & Hf & Hinv' & Hb & Hr).
  rewrite (bind_Ok _ _ _ _ _ Hf). by eexists _, w'.
Qed.

(** The inner loop of [Cell::breed]: the new animals are of the species
    [g] and in the cell [c]. *)
Lemma breed_beasts_inv g c largeN l : ∀ w,
  breeding_inv w → is_Some (species w !! g) →
  (∀ p, p ∈ l → ∃ a, store w !! p = Some a ∧ isa a = g ∧ _loci a = Some c) →
  ∃ r w', breed_beasts g largeN l w = Ok r w' ∧ breeding_inv w'
    ∧ born_in (λ c' g', c' = c ∧ g' = g) w w' ∧ randomGen w' = randomGen w.
Proof.
  induction l as [|beast rest IH]; intros w Hinv [sp Hsp] Hl; simpl.
  { exists [], w. split_and!; try done. apply born_in_refl. }
  destruct (Hl beast) as (a & Hp & Hi & Hloc); [set_solver|].
  destruct (Species_birthChance_inv w g sp beast a largeN Hinv Hsp Hp)
    as (chance & w1 & Hc1 & Hinv1 & Hb1 & Hr1).
  rewrite (bind_Ok _ _ _ _ _ Hc1).
  unfold drand at 1.
  set (w2 := {| geography := geography w1; species := species w1;
                animals := animals w1; store := store w1;
                randomGen := randomGen w1; drawn := S (drawn w1) |}).
  rewrite (bind_Ok _ _ w1 (randomGen w1 (drawn w1)) w2) by done.
  assert (breeding_inv w2) as Hinv2 by (by apply (breeding_inv_ext w1)).
  assert (born_in (λ _ _, False) w w2) as Hb2 by (by apply (born_in_ext _ w w1)).
  assert (∃ w3 offspring,
            (if Rltb (randomGen w1 (drawn w1)) chance then Animal_breed beast
             else ret None) w2 = Ok offspring w3
            ∧ breeding_inv w3 ∧ born_in (λ c' g', c' = c ∧ g' = g) w w3
            ∧ randomGen w3 = randomGen w) as (w3 & offspring & Hoff & Hinv3 & Hb3 & Hr3).
  { destruct (Rltb _ chance).
    - destruct (born_in_keep _ w w2 beast g c Hb2) as (a2 & Hp2 & Hi2 & Hl2); [eauto|].
      destruct (Animal_breed_inv w2 beast a2 c sp Hinv2 Hp2 Hl2)
        as (off & w3 & Hbr & Hinv3 & Hb3 & Hr3 & _).
      { rewrite Hi2. destruct Hb2 as (-> & _). done. }
      exists w3, off. split_and!; try done.
      + eapply born_in_trans; [| |exact Hb2|exact Hb3]; simpl; [tauto|].
        intros ? ? [? ?]. split; congruence.
      + rewrite Hr3. simpl. congruence.
    - exists w2, None. split_and!; try done.
      eapply born_in_weaken; [|exact Hb2]. simpl. tauto. }
  rewrite (bind_Ok _ _ _ _ _ Hoff).
  destruct (IH w3 Hinv3) as (r & w4 & Hrest & Hinv4 & Hb4 & Hr4).
  { destruct Hb3 as (-> & _). eauto. }
  { intros p Hin. apply (born_in_keep _ w w3 p g c Hb3). apply Hl. set_solver. }
  rewrite (bind_Ok _ _ _ _ _ Hrest).
  eexists _, w4. split; [done|]. split_and!; try done.
  - eapply born_in_trans; [| |exact Hb3|exact Hb4]; simpl; tauto.
  - congruence.
Qed.

(** [Cell::cellMates] returns the habitants that pass [is_mate] and changes
    nothing. *)
Lemma cellMates_loop_Ok w g minAge l :
  (∀ p, p ∈ l → is_Some (store w !! p)) →
  cellMates_loop g minAge l w = Ok (filter (λ p, is_mate w g minAge p = true) l) w.
Proof.
  induction l as [|p l IH]; intros Hl; simpl; [done|].
  destruct (Hl p) as [a Hp]; [set_solver|].
  rewrite (bind_Ok _ _ _ _ _ (deref_animal_Ok _ _ _ Hp)).
  rewrite (bind_Ok _ _ _ _ _ (IH (λ q Hq, Hl q (list_elem_of_further _ _ _ Hq)))).
  assert (is_mate w g minAge p = (isa a =? g)%nat && (minAge <=? _alder a)%Z) as Hmate.
  { unfold is_mate. by rewrite Hp. }
  rewrite filter_cons.
  destruct ((isa a =? g)%nat && (minAge <=? _alder a)%Z); case_decide; (done || congruence).
Qed.

Lemma Cell_cellMates_Ok w c x g breedersOnly :
  membership_inv w → cells (geography w) !! c = Some x →
  Cell_cellMates c g breedersOnly w =
    Ok (filter (λ p, is_mate w g (if breedersOnly then 1 else 0) p = true)
               (elements (habitants x))) w.
Proof.
  intros Hm Hc. unfold Cell_cellMates.
  rewrite (bind_Ok _ _ _ _ _ (deref_cell_Ok _ _ _ Hc)).
  apply cellMates_loop_Ok. intros p Hp. apply elem_of_elements in Hp.
  destruct (proj1 (Hm p c)) as (a & Ha & _); eauto.
Qed.

(** Who is counted: the animals of the store that are of the species [g],
    at least [minAge] old and located in [c]. *)
Lemma elem_of_mates w c x g minAge p :
  membership_inv w → cells (geography w) !! c = Some x →
  p ∈ filter (λ p, is_mate w g minAge p = true) (elements (habitants x))
  ↔ ∃ a, store w !! p = Some a ∧ _loci a = Some c ∧ isa a = g ∧ (minAge ≤ _alder a)%Z.
Proof.
  intros Hm Hc. rewrite list_elem_of_filter, elem_of_elements. unfold is_mate. split.
  - intros [Hmate Hin]. destruct (proj1 (Hm p c)) as (a & Ha & Hl); [eauto|].
    rewrite Ha in Hmate. apply andb_true_iff in Hmate as [H1 H2].
    apply Nat.eqb_eq in H1. apply Z.leb_le in H2. eauto.
  - intros (a & Ha & Hl & Hi & Hage). rewrite Ha. split.
    + apply andb_true_iff. split; [by apply Nat.eqb_eq | by apply Z.leb_le].
    + destruct (proj2 (Hm p c)) as (x' & Hx' & Hin); [eauto|]. congruence.
Qed.

(** One species in one cell. *)
Lemma Cell_breed_genus_inv w c g :
  breeding_inv w → is_Some (cells (geography w) !! c) → is_Some (species w !! g) →
  ∃ r w', Cell_breed_genus c g w = Ok r w' ∧ breeding_inv w'
    ∧ born_in (λ c' g', c' = c ∧ g' = g) w w' ∧ randomGen w' = randomGen w.
Proof.
  intros Hinv [x Hc] Hsp. pose proof Hinv as (Hm & _ & _).
  unfold Cell_breed_genus.
  rewrite (bind_Ok _ _ _ _ _ (Cell_cellMates_Ok w c x g false Hm Hc)).
  apply breed_beasts_inv; try done.
  intros p Hp. apply (elem_of_mates w c x g 0 p Hm Hc) in Hp as (a & ? & ? & ? & ?).
  eauto.
Qed.

(** [Cell::breed]: every species of [genera] in one cell. *)
Lemma Cell_breed_inv c genera : ∀ w,
  breeding_inv w → is_Some (cells (geography w) !! c) →
  (∀ g, g ∈ genera → is_Some (species w !! g)) →
  ∃ r w', Cell_breed c genera w = Ok r w' ∧ breeding_inv w'
    ∧ born_in (λ c' g', c' = c ∧ g' ∈ genera) w w' ∧ randomGen w' = randomGen w.
Proof.
  induction genera as [|g rest IH]; intros w Hinv Hc Hg; simpl.
  { exists [], w. split_and!; try done. apply born_in_refl. }
  destruct (Cell_breed_genus_inv w c g Hinv Hc) as (born & w1 & H1 & Hinv1 & Hb1 & Hr1).
  { apply Hg. set_solver. }
  rewrite (bind_Ok _ _ _ _ _ H1).
  destruct (IH w1 Hinv1) as (r & w2 & H2 & Hinv2 & Hb2 & Hr2).
  { destruct Hc as [x Hx]. destruct Hb1 as (_ & Hcells & _).
    destruct (Hcells c x Hx) as (x' & Hx' & _). eauto. }
  { intros g' Hg'. destruct Hb1 as (-> & _). apply Hg. set_solver. }
  rewrite (bind_Ok _ _ _ _ _ H2).
  eexists _, w2. split; [done|]. split_and!; try done.
  - eapply born_in_trans; [| |exact Hb1|exact Hb2]; simpl.
    + intros ? ? [-> ->]. split; [done|set_solver].
    + intros ? ? [-> ?]. split; [done|set_solver].
  - congruence.
Qed.

Lemma allSpecies_valid w g : g ∈ allSpecies w → is_Some (species w !! g).
Proof.
  unfold allSpecies. intros Hg. apply elem_of_seq in Hg.
  apply lookup_lt_is_Some. lia.
Qed.

(** The breeding loop of [Simulation::step] terminates normally; the new
    animals lie in the cells it has visited. *)
Lemma step_breeding_inv cs : ∀ w,
  breeding_inv w → (∀ c, c ∈ cs → is_Some (cells (geography w) !! c)) →
  ∃ w', step_breeding cs w = Ok tt w' ∧ breeding_inv w'
    ∧ born_in (λ c' _, c' ∈ cs) w w' ∧ randomGen w' = randomGen w.
Proof.
  induction cs as [|c rest IH]; intros w Hinv Hc; simpl.
  { exists w. split_and!; try done. apply born_in_refl. }
  destruct (Cell_breed_inv c (allSpecies w) w Hinv) as (born & w1 & H1 & Hinv1 & Hb1 & Hr1).
  { apply Hc. set_solver. }
  { apply allSpecies_valid. }
  rewrite (bind_Ok (λ w0, Cell_breed c (allSpecies w0) w0) _ w born w1 H1).
  set (w2 := set_animals (union (list_to_set born)) w1).
  rewrite (bind_Ok _ _ w1 tt w2) by done.
  assert (breeding_inv w2) as Hinv2 by (by apply (breeding_inv_ext w1)).
  assert (born_in (λ c' g', c' = c ∧ g' ∈ allSpecies w) w w2) as Hb2
    by (by apply (born_in_ext _ w w1)).
  destruct (IH w2 Hinv2) as (w3 & H3 & Hinv3 & Hb3 & Hr3).
  { intros c' Hc'. destruct (Hc c') as [x Hx]; [set_solver|].
    destruct Hb2 as (_ & Hcells & _). destruct (Hcells c' x Hx) as (x' & Hx' & _). eauto. }
  exists w3. split; [done|]. split_and!; try done.
  - eapply born_in_trans; [| |exact Hb2|exact Hb3]; simpl.
    + intros ? ? [-> _]. set_solver.
    + intros ? ? ?. set_solver.
  - rewrite Hr3. simpl. done.
Qed.

(** The loops split at any point of the traversal. *)
Lemma step_breeding_app cs1 cs2 w :
  step_breeding (cs1 ++ cs2) w = (step_breeding cs1;;; step_breeding cs2) w.
Proof.
  revert w. induction cs1 as [|c cs1 IH]; intros w; simpl; [done|].
  unfold bind.
  destruct (Cell_breed c (allSpecies w) w) as [born w1| |]; done.
Qed.

Lemma Cell_breed_app c gs1 gs2 w :
  Cell_breed c (gs1 ++ gs2) w =
    (let* born1 := Cell_breed c gs1 in
     let* born2 := Cell_breed c gs2 in ret (born1 ++ born2)) w.
Proof.
  revert w. induction gs1 as [|g gs1 IH]; intros w; simpl.
  - unfold bind, ret. by destruct (Cell_breed c gs2 w).
  - unfold bind, ret.
    destruct (Cell_breed_genus c g w) as [born w1| |]; try done.
    rewrite IH. unfold bind, ret.
    destruct (Cell_breed c gs1 w1) as [born1 w2| |]; try done.
    destruct (Cell_breed c gs2 w2) as [born2 w3| |]; try done.
    by rewrite app_assoc.
Qed.

(** The mates counted for a cell and a species that the pass has not
    reached yet are those counted before the pass. *)
Lemma mates_stable (P : Z → nat → Prop) w w' c g minAge x x' :
  membership_inv w → membership_inv w' → born_in P w w' → ¬ P c g →
  cells (geography w) !! c = Some x → cells (geography w') !! c = Some x' →
  filter (λ p, is_mate w' g minAge p = true) (elements (habitants x'))
  ≡ₚ filter (λ p, is_mate w g minAge p = true) (elements (habitants x)).
Proof.
  intros Hm Hm' (Hs & Hc & Ho & Hn) HP Hx Hx'.
  apply NoDup_Permutation.
  - apply NoDup_filter, NoDup_elements.
  - apply NoDup_filter, NoDup_elements.
  - intros p. rewrite (elem_of_mates w' c x' g minAge p Hm' Hx').
    rewrite (elem_of_mates w c x g minAge p Hm Hx). split.
    + intros (a' & Hp' & Hl' & Hi' & Ha').
      destruct (store w !! p) as [a|] eqn:Hp.
      * destruct (Ho p a Hp) as (a'' & Hp'' & ? & ? & ?).
        assert (a'' = a') as -> by congruence.
        exists a. split_and!; (done || congruence).
      * destruct (Hn p a' Hp Hp') as (c' & Hc' & HPc). destruct HP. congruence.
    + intros (a & Hp & Hl & Hi & Ha).
      destruct (Ho p a Hp) as (a' & Hp' & ? & ? & ?).
      exists a'. split_and!; (done || congruence).
Qed.

(** *** The example world [pairing] *)

Lemma pairing_breeding_inv : breeding_inv pairing.
Proof.
  assert (coordPack 1 0 ≠ coordPack 0 0) as Hne by done.
  split_and!.
  - intros p c. simpl. split.
    + intros (x & Hx & Hin).
      apply lookup_insert_Some in Hx as [[<- <-]|[Hc0 Hx]].
      * simpl in Hin. apply elem_of_union in Hin as [Hin|Hin];
          apply elem_of_singleton in Hin as ->; eexists; by simplify_map_eq.
      * apply lookup_insert_Some in Hx as [[<- <-]|[Hc1 Hx]]; [set_solver|].
        by rewrite lookup_empty in Hx.
    + intros (a & Ha & Hl).
      apply lookup_insert_Some in Ha as [[<- <-]|[Hp1 Ha]].
      * injection Hl as <-. eexists. rewrite lookup_insert_eq. split; [done|].
        simpl. set_solver.
      * apply lookup_insert_Some in Ha as [[<- <-]|[Hp2 Ha]].
        -- injection Hl as <-. eexists. rewrite lookup_insert_eq. split; [done|].
           simpl. set_solver.
        -- by rewrite lookup_empty in Ha.
  - intros c x p. simpl. intros Hx Hin.
    apply lookup_insert_Some in Hx as [[<- <-]|[Hc0 Hx]]; [by exists jungle|].
    apply lookup_insert_Some in Hx as [[<- <-]|[Hc1 Hx]]; [by exists jungle|].
    by rewrite lookup_empty in Hx.
  - intros p a. simpl. intros Ha.
    apply lookup_insert_Some in Ha as [[<- <-]|[Hp1 Ha]]; [by eexists|].
    apply lookup_insert_Some in Ha as [[<- <-]|[Hp2 Ha]]; [by eexists|].
    by rewrite lookup_empty in Ha.
Qed.

Lemma breed_beasts_cons g largeN beast rest :
  breed_beasts g largeN (beast :: rest) =
    (let* birthchance := Species_birthChance g beast largeN in
     let* u := drand in
     let* offspring := if Rltb u birthchance then Animal_breed beast else ret None in
     let* retval := breed_beasts g largeN rest in
     ret (match offspring with Some o => o :: retval | None => retval end)).
Proof. done. Qed.

(** C3, the claim as worded fails.  In [pairing] the traversal is the cell
    (0,0), then the cell (1,0).  When the first cell is done and the second
    is still to come, an animal born in the first cell is already in the
    population and among the habitants of its cell. *)
Lemma newborn_resident_before_pass_ends :
  ∃ w1 q x1,
    step_breeding [coordPack 0 0] pairing = Ok tt w1
    ∧ step_breeding [coordPack 0 0; coordPack 1 0] pairing
      = step_breeding [coordPack 1 0] w1
    ∧ store pairing !! q = None
    ∧ q ∈ animals w1
    ∧ cells (geography w1) !! coordPack 0 0 = Some x1 ∧ q ∈ habitants x1.
Proof.
  pose proof pairing_breeding_inv as Hinv. pose proof Hinv as (Hm & _ & _).
  set (c0 := coordPack 0 0). set (sp := unit_species "B" false).
  set (x0 := with_habitants {[ 1%positive; 2%positive ]} (cell_at jungle 0 0)).
  assert (cells (geography pairing) !! c0 = Some x0) as Hx0 by done.
  assert (species pairing !! 0%nat = Some sp) as Hsp by done.
  (* the mates of the species in the cell *)
  assert (Cell_cellMates c0 0 false pairing = Ok [2%positive; 1%positive] pairing) as Hmates.
  { rewrite (Cell_cellMates_Ok pairing c0 x0 0 false Hm Hx0). f_equal. }
  (* the first of them breeds *)
  assert (store pairing !! 2%positive = Some (adult c0)) as Hp2 by done.
  set (phi := fitness_value sp (adult c0)).
  assert (0 < phi)%R as Hphi.
  { unfold phi, fitness_value. simpl.
    assert (Reqb ANIMAL_INV ANIMAL_INV = true) as -> by (by apply Reqb_true).
    apply Species_fitness_pos. simpl. lra. }
  set (a2 := with_fitness phi (adult c0)).
  set (w1 := set_store (insert 2%positive a2) pairing).
  assert (Species_birthChance 0 2 2 pairing = Ok (phi * 1 * 1)%R w1) as Hchance.
  { unfold Species_birthChance.
    rewrite (bind_Ok _ _ _ _ _ (deref_species_Ok _ _ _ Hsp)).
    by rewrite (bind_Ok _ _ _ _ _ (Animal_fitness_Ok pairing 2 (adult c0) sp Hp2 Hsp)). }
  assert (breeding_inv w1) as Hinv1 by (by apply (breeding_inv_update pairing 2 (adult c0))).
  set (w2 := {| geography := geography w1; species := species w1;
                animals := animals w1; store := store w1;
                randomGen := randomGen w1; drawn := S (drawn w1) |}).
  assert (breeding_inv w2) as Hinv2 by (by apply (breeding_inv_ext w1)).
  destruct (Animal_breed_inv w2 2 a2 c0 sp Hinv2)
    as (offspring & w3 & Hbreed & Hinv3 & Hb3 & Hr3 & Hsome & Hnew); try done.
  destruct Hsome as [q ->].
  { apply andb_true_iff. split; [done|]. apply Rgeb_true. simpl.
    unfold Species_birthloss. simpl. lra. }
  destruct (Hnew q eq_refl) as [Hq2 [b3 Hq3]].
  assert (store pairing !! q = None) as Hq.
  { simpl in Hq2. destruct (decide (2%positive = q)) as [<-|Hne].
    - by rewrite lookup_insert_eq in Hq2.
    - by rewrite lookup_insert_ne in Hq2. }
  assert (_loci b3 = Some c0) as Hl3.
  { destruct Hb3 as (_ & _ & _ & Hn). destruct (Hn q b3 Hq2 Hq3) as (c & Hc & -> & _). done. }
  destruct (breed_beasts_inv 0 c0 2 [1%positive] w3 Hinv3) as (r & w4 & Hrest & Hinv4 & Hb4 & Hr4).
  { destruct Hb3 as (-> & _). by eexists. }
  { intros p Hp. apply list_elem_of_singleton in Hp as ->.
    apply (born_in_keep _ w2 w3 1 0 c0 Hb3). by exists (adult c0). }
  assert (Cell_breed c0 [0%nat] pairing = Ok ((q :: r) ++ []) w4) as Hcell.
  { simpl. unfold Cell_breed_genus.
    rewrite bind_assoc, (bind_Ok _ _ _ _ _ Hmates).
    change (Z.of_nat (length [2%positive; 1%positive])) with 2%Z.
    rewrite breed_beasts_cons.
    rewrite !bind_assoc, (bind_Ok _ _ _ _ _ Hchance).
    rewrite !bind_assoc. unfold drand at 1.
    rewrite (bind_Ok _ _ w1 0%R w2) by done.
    assert (Rltb 0 (phi * 1 * 1) = true) as -> by (apply Rltb_true; lra).
    rewrite !bind_assoc, (bind_Ok _ _ _ _ _ Hbreed).
    rewrite !bind_assoc, (bind_Ok _ _ _ _ _ Hrest). done. }
  set (w5 := set_animals (union (list_to_set ((q :: r) ++ []))) w4).
  assert (step_breeding [c0] pairing = Ok tt w5) as Hstep.
  { simpl. by rewrite (bind_Ok (λ w0, Cell_breed c0 (allSpecies w0) w0) _ pairing _ w4 Hcell). }
  destruct (born_in_keep _ w3 w4 q (isa b3) c0 Hb4) as (b4 & Hq4 & _ & Hl4); [by exists b3|].
  destruct Hinv4 as (Hm4 & _).
  destruct (proj2 (Hm4 q c0)) as (x4 & Hx4 & Hin4); [eauto|].
  exists w5, q, x4. split_and!; try done.
  - change [c0; coordPack 1 0] with ([c0] ++ [coordPack 1 0]).
    by rewrite step_breeding_app, (bind_Ok _ _ _ _ _ Hstep).
  - simpl. set_solver.
Qed.

(** ** Feeding *)

Lemma Animal_fatten_Ok w p a delta_w :
  store w !! p = Some a →
  Animal_fatten p delta_w w =
    Ok tt (set_store (insert p {| isa := isa a; _vekt := (_vekt a + delta_w)%R;
                                 _alder := _alder a; _loci := _loci a;
                                 _fitness := ANIMAL_INV |}) w).
Proof.
  intros Hp. unfold Animal_fatten.
  rewrite (bind_Ok _ _ _ _ _ (deref_animal_Ok _ _ _ Hp)).
  by rewrite (assign_animal_Ok _ _ _ _ Hp).
Qed.

Lemma Cell_animals_Ok w c x :
  cells (geography w) !! c = Some x →
  Cell_animals c w = Ok (elements (habitants x)) w.
Proof.
  intros Hc. unfold Cell_animals.
  by rewrite (bind_Ok _ _ _ _ _ (deref_cell_Ok _ _ _ Hc)).
Qed.

(** [Animal::eat]: one draw against the capture chance of the two fitness
    values, which stay in the caches. *)
Lemma Animal_eat_Ok w p prey a b sp spb :
  store w !! p = Some a → store w !! prey = Some b → p ≠ prey →
  species w !! isa a = Some sp → species w !! isa b = Some spb →
  Animal_eat p prey w =
    Ok (Rltb (randomGen w (drawn w))
             (catch_chance (fitness_value sp a) (fitness_value spb b)
                           (Species_deltaPhiMax sp)))
       {| geography := geography w; species := species w; animals := animals w;
          store := <[prey := with_fitness (fitness_value spb b) b]>
                     (<[p := with_fitness (fitness_value sp a) a]> (store w));
          randomGen := randomGen w; drawn := S (drawn w) |}.
Proof.
  intros Hp Hprey Hne Hsp Hspb. unfold Animal_eat.
  rewrite (bind_Ok _ _ _ _ _ (Animal_fitness_Ok w p a sp Hp Hsp)).
  erewrite bind_Ok; cycle 1.
  { apply (Animal_fitness_Ok _ prey b spb); [|done].
    simpl. by rewrite lookup_insert_ne. }
  erewrite bind_Ok; cycle 1.
  { apply deref_animal_Ok. simpl. rewrite lookup_insert_ne by done.
    apply lookup_insert_eq. }
  erewrite bind_Ok; cycle 1.
  { apply deref_species_Ok. simpl. exact Hsp. }
  done.
Qed.

(** C6.  A predation attempt, [Animal::eat], takes the fitness [p] of the
    predator and the fitness [q] of the prey from [Animal::fitness] and
    [d], the [deltaPhiMax] of the species of the predator, computes the
    capture chance from them, draws one random number and returns whether
    the draw is below the chance.  For [d > 0] the chance is 0 when
    [p <= q], so that an attempt on prey that is as fit never succeeds,
    [(p - q) / d] when [0 < p - q < d], and 1 when [p - q >= d], so that
    the attempt succeeds on every draw below 1. *)
Theorem Animal_eat_catch_chance (w : World) (p prey : positive) (a b : Animal)
    (sp spb : Species) :
  store w !! p = Some a → store w !! prey = Some b → p ≠ prey →
  species w !! isa a = Some sp → species w !! isa b = Some spb →
  (0 < Species_deltaPhiMax sp)%R →
  let phi_pred := fitness_value sp a in
  let phi_prey := fitness_value spb b in
  let d := Species_deltaPhiMax sp in
  let u := randomGen w (drawn w) in
  ∃ chance w',
    Animal_eat p prey w = Ok (Rltb u chance) w'
    ∧ drawn w' = S (drawn w)
    ∧ ((phi_pred <= phi_prey)%R → chance = 0%R)
    ∧ ((0 < phi_pred - phi_prey < d)%R → chance = ((phi_pred - phi_prey) / d)%R)
    ∧ ((d <= phi_pred - phi_prey)%R → chance = 1%R)
    ∧ ((phi_pred <= phi_prey)%R → (0 <= u)%R → Animal_eat p prey w = Ok false w')
    ∧ ((d <= phi_pred - phi_prey)%R → (u < 1)%R → Animal_eat p prey w = Ok true w').
Proof.
  intros Hp Hprey Hne Hsp Hspb Hd phi_pred phi_prey d u.
  pose proof (Animal_eat_Ok w p prey a b sp spb Hp Hprey Hne Hsp Hspb) as Heat.
  fold phi_pred phi_prey d u in Heat.
  destruct (catch_chance_cases phi_pred phi_prey d Hd) as (Hzero & Hmid & Hone).
  eexists (catch_chance phi_pred phi_prey d), _.
  split; [exact Heat|]. split; [done|]. split_and!; try done.
  - intros Hle Hu. rewrite Heat, (Hzero Hle). f_equal. apply Rltb_false. lra.
  - intros Hge Hu. rewrite Heat, (Hone Hge). f_equal. by apply Rltb_true.
Qed.

Lemma Animal_eat_catch_chance_witness :
  ∃ chance w',
    Animal_eat 1 2 rivals = Ok (Rltb (randomGen rivals (drawn rivals)) chance) w'
    ∧ drawn w' = S (drawn rivals)
    ∧ ((0 < fitness_value late_species (hunter 0)
            - fitness_value (unit_species "S" true) (hunter 1) < 10)%R →
       chance = ((fitness_value late_species (hunter 0)
                  - fitness_value (unit_species "S" true) (hunter 1)) / 10)%R).
Proof.
  destruct (Animal_eat_catch_chance rivals 1 2 (hunter 0) (hunter 1) late_species
              (unit_species "S" true))
    as (chance & w' & Heat & Hdrawn & _ & Hmid & _).
  - reflexivity.
  - reflexivity.
  - discriminate.
  - reflexivity.
  - reflexivity.
  - simpl. lra.
  - by exists chance, w'.
Defined.

Lemma Animal_delete_Ok w p a :
  store w !! p = Some a →
  (∀ l, _loci a = Some l → is_Some (cells (geography w) !! l)) →
  ∃ w', Animal_delete p w = Ok tt w' ∧ store w' = delete p (store w)
    ∧ animals w' = animals w ∧ species w' = species w.
Proof.
  intros Hp Hl. unfold Animal_delete.
  rewrite (bind_Ok _ _ _ _ _ (deref_animal_Ok _ _ _ Hp)).
  destruct (_loci a) as [l|].
  - destruct (Hl l eq_refl) as [x Hx].
    rewrite (bind_Ok _ _ _ _ _ (Cell_removeAnimal_Ok _ _ _ _ Hx)).
    by eexists.
  - rewrite (bind_Ok _ _ _ _ _ (ret_Ok _ _)). by eexists.
Qed.

(** [std::sort] on two animals. *)
Lemma sort_p_fit_two w p1 p2 a1 a2 sp1 sp2 :
  store w !! p1 = Some a1 → store w !! p2 = Some a2 → p1 ≠ p2 →
  species w !! isa a1 = Some sp1 → species w !! isa a2 = Some sp2 →
  sort_p_fit [p1; p2] w =
    Ok (if Rgtb (fitness_value sp1 a1) (fitness_value sp2 a2) then [p1; p2] else [p2; p1])
       (set_store (insert p2 (with_fitness (fitness_value sp2 a2) a2))
          (set_store (insert p1 (with_fitness (fitness_value sp1 a1) a1)) w)).
Proof.
  intros Hp1 Hp2 Hne Hsp1 Hsp2. unfold sort_p_fit. simpl.
  rewrite !bind_assoc, (bind_Ok _ _ _ _ _ (Animal_fitness_Ok w p1 a1 sp1 Hp1 Hsp1)).
  rewrite (bind_Ok _ _ _ _ _ (ret_Ok _ _)).
  rewrite !bind_assoc.
  erewrite bind_Ok; cycle 1.
  { apply (Animal_fitness_Ok _ p2 a2 sp2); [|done]. simpl. by rewrite lookup_insert_ne. }
  unfold bind, ret. simpl. by destruct (Rgtb _ _).
Qed.

Lemma catch_chance_pos (p q d : R) : (q < p)%R → (0 < d)%R → (0 < catch_chance p q d)%R.
Proof.
  intros Hpq Hd. unfold catch_chance.
  assert (Rleb p q = false) as -> by (apply Rleb_false; lra).
  destruct (Rgtb d (p - q) && Rgtb (p - q) 0); [|lra].
  apply Rdiv_lt_0_compat; lra.
Qed.

Lemma fitness_value_cached sp a phi :
  phi ≠ ANIMAL_INV → fitness_value sp (with_fitness phi a) = phi.
Proof.
  intros H. unfold fitness_value. simpl.
  apply Reqb_false in H. by rewrite H.
Qed.

Lemma feed_loop_cons sp beast mate rest :
  feed_loop sp beast (mate :: rest) =
    (let* m := deref_animal mate in
     let* b := deref_animal beast in
     let* eaten :=
       if negb (isa m =? isa b)%nat && negb (Reqb (_vekt m) 0) then
         let* caught := Animal_eat beast mate in
         if caught then
           let* m' := deref_animal mate in
           Animal_fatten beast (_beta sp * _vekt m');;; ret [mate]
         else ret []
       else ret [] in
     let* retval := feed_loop sp beast rest in
     ret (eaten ++ retval)).
Proof. done. Qed.

Lemma feeding_loop_cons fb rest pred prey :
  feeding_loop (fb :: rest) pred prey =
    (let* food := Animal_feed fb in
     match food with
     | [f] =>
         if (f =? fb)%positive then feeding_loop rest pred (prey + 1)
         else erase_food food;;; feeding_loop rest (pred + 1) (prey - 1)
     | _ =>
         erase_food food;;;
         feeding_loop rest (pred + 1) (prey - Z.of_nat (length food))
     end).
Proof. done. Qed.

Lemma bind_Undefined {A B} (m : M A) (k : A → M B) w :
  m w = Undefined → bind m k w = Undefined.
Proof. unfold bind. by intros ->. Qed.

(** *** The example world [rivals] *)

(** Evaluation of a lookup in a map given by insertions and deletions. *)
Ltac look :=
  simpl;
  repeat first [ rewrite lookup_insert_eq
               | rewrite lookup_insert_ne by done
               | rewrite lookup_delete_eq
               | rewrite lookup_delete_ne by done ];
  try reflexivity.

(** C2, on the code.  In [rivals] the feeding order is animal 1, then
    animal 2, by decreasing fitness.  The turn of 1 consumes 2, which is
    erased from the population and deleted.  The turn of 2 comes next all the same: it dereferences
    the deleted animal, and the step is undefined. *)
Theorem feeding_turn_of_consumed_animal :
  ∃ w1 w2,
    (let* feedBeasts := (λ w, Ok (elements (animals w)) w) in
     let* feedBeasts := sort_p_fit feedBeasts in
     stable_partition_part_pred feedBeasts) rivals = Ok [1%positive; 2%positive] w1
    ∧ bind (Animal_feed 1) (λ food, (erase_food food;;; ret food)) w1 = Ok [2%positive] w2
    ∧ (2%positive ∉ animals w2) ∧ store w2 !! 2%positive = None
    ∧ Animal_feed 2 w2 = Undefined
    ∧ step_feeding rivals = Undefined.
Proof.
  set (sp0 := late_species). set (sp1 := unit_species "S" true).
  set (c0 := coordPack 0 0).
  set (phi1 := fitness_value sp0 (hunter 0)).
  set (phi2 := fitness_value sp1 (hunter 1)).
  assert (0 < phi2 < phi1)%R as [Hphi2 Hphi].
  { unfold phi1, phi2, fitness_value. simpl.
    assert (Reqb ANIMAL_INV ANIMAL_INV = true) as -> by (by apply Reqb_true).
    split; [apply Species_fitness_pos; simpl; lra|].
    rewrite !Species_fitness_above by (simpl; lra). simpl.
    pose proof (func_q_before_half 2 40 1 ltac:(lra) ltac:(lra)).
    pose proof (func_q_below_half 2 0 1 ltac:(lra) ltac:(lra)).
    pose proof (func_q_bounds 5 0 1 false).
    pose proof (func_q_bounds 5 0 1 true).
    apply Rmult_lt_compat_r; [lra|].
    apply Rmult_lt_compat_r; lra. }
  assert (phi1 ≠ ANIMAL_INV) as Hinv1 by (unfold ANIMAL_INV; lra).
  assert (phi2 ≠ ANIMAL_INV) as Hinv2 by (unfold ANIMAL_INV; lra).
  set (a1 := with_fitness phi1 (hunter 0)).
  set (a2 := with_fitness phi2 (hunter 1)).
  (* the order of the turns *)
  set (w1 := set_store (insert 1%positive a1) (set_store (insert 2%positive a2) rivals)).
  assert (sort_p_fit [2%positive; 1%positive] rivals = Ok [1%positive; 2%positive] w1)
    as Hsort.
  { rewrite (sort_p_fit_two rivals 2 1 (hunter 1) (hunter 0) sp1 sp0) by done.
    fold phi1 phi2.
    assert (Rgtb phi2 phi1 = false) as -> by (apply Rgtb_false; lra). done. }
  assert (stable_partition_part_pred [1%positive; 2%positive] w1
          = Ok [1%positive; 2%positive] w1) as Hpart.
  { unfold stable_partition_part_pred, part_pred. simpl.
    rewrite ?bind_assoc.
    erewrite bind_Ok by (apply deref_animal_Ok; look). rewrite ?bind_assoc.
    erewrite bind_Ok by (apply deref_species_Ok; look). rewrite ?bind_assoc.
    rewrite (bind_Ok _ _ _ _ _ (ret_Ok _ _)), (bind_Ok _ _ _ _ _ (ret_Ok _ _)).
    rewrite ?bind_assoc.
    erewrite bind_Ok by (apply deref_animal_Ok; look). rewrite ?bind_assoc.
    erewrite bind_Ok by (apply deref_species_Ok; look). rewrite ?bind_assoc.
    done. }
  assert (store w1 !! 1%positive = Some a1) as H1 by look.
  assert (store w1 !! 2%positive = Some a2) as H2 by look.
  assert (cells (geography w1) !! c0 = Some den) as Hden by look.
  (* the turn of animal 1 *)
  set (dmax := Species_deltaPhiMax sp0).
  assert (fitness_value sp0 a1 = phi1) as Hf1 by (by apply fitness_value_cached).
  assert (fitness_value sp1 a2 = phi2) as Hf2 by (by apply fitness_value_cached).
  assert (Rltb 0 (catch_chance (fitness_value sp0 a1) (fitness_value sp1 a2) dmax) = true)
    as Hcaught.
  { apply Rltb_true. rewrite Hf1, Hf2.
    apply catch_chance_pos; [lra | unfold dmax; simpl; lra]. }
  assert (∃ wf, Animal_feed 1 w1 = Ok [2%positive] wf
                ∧ store wf !! 2%positive = Some a2
                ∧ cells (geography wf) !! c0 = Some den
                ∧ animals wf = animals rivals) as (wf & Hfeed & H2f & Hdenf & Hanf).
  { unfold Animal_feed.
    rewrite (bind_Ok _ _ _ _ _ (deref_animal_Ok _ _ _ H1)).
    unfold Species_feed.
    erewrite bind_Ok by (apply deref_species_Ok; look).
    simpl (predatory _). cbv iota.
    unfold Animal_location. rewrite bind_assoc.
    rewrite (bind_Ok _ _ _ _ _ (deref_animal_Ok _ _ _ H1)).
    change (_loci a1) with (Some c0). cbv iota.
    rewrite (bind_Ok _ _ _ _ _ (ret_Ok _ _)).
    rewrite (bind_Ok _ _ _ _ _ (Cell_animals_Ok _ _ _ Hden)).
    change (elements (habitants den)) with [2%positive; 1%positive].
    rewrite feed_loop_cons.
    rewrite (bind_Ok _ _ _ _ _ (deref_animal_Ok _ _ _ H2)).
    rewrite (bind_Ok _ _ _ _ _ (deref_animal_Ok _ _ _ H1)).
    assert (Reqb (_vekt a2) 0 = false) as -> by (apply Reqb_false; simpl; lra).
    simpl (negb _ && negb _). cbv iota.
    rewrite !bind_assoc.
    rewrite (bind_Ok _ _ _ _ _ (Animal_eat_Ok w1 1 2 a1 a2 sp0 sp1 H1 H2 ltac:(done)
                                   eq_refl eq_refl)).
    change (randomGen w1 (drawn w1)) with 0%R. fold dmax. rewrite Hcaught.
    rewrite Hf1, Hf2.
    change (with_fitness phi1 a1) with a1. change (with_fitness phi2 a2) with a2.
    rewrite !bind_assoc.
    erewrite bind_Ok by (apply deref_animal_Ok; look).
    rewrite !bind_assoc.
    erewrite bind_Ok by (apply Animal_fatten_Ok; look).
    rewrite (bind_Ok _ _ _ _ _ (ret_Ok _ _)).
    rewrite feed_loop_cons. rewrite !bind_assoc.
    erewrite bind_Ok by (apply deref_animal_Ok; look).
    rewrite ?bind_assoc.
    erewrite bind_Ok by (apply deref_animal_Ok; look).
    simpl (negb _ && negb _). cbv iota.
    rewrite ?bind_assoc.
    rewrite (bind_Ok _ _ _ _ _ (ret_Ok _ _)).
    simpl feed_loop. rewrite ?bind_assoc. rewrite (bind_Ok _ _ _ _ _ (ret_Ok _ _)).
    eexists. split; [reflexivity|]. split_and!; [look | look | done]. }
  (* the eaten animal is erased and deleted *)
  set (wf' := set_animals (λ s, s ∖ {[2%positive]}) wf).
  destruct (Animal_delete_Ok wf' 2 a2) as (w2 & Hdel & Hs2 & Han2 & _).
  { exact H2f. }
  { intros l [= <-]. eexists. exact Hdenf. }
  assert (erase_food [2%positive] wf = Ok tt w2) as Herase.
  { simpl. rewrite (bind_Ok _ _ wf tt wf') by done.
    by rewrite (bind_Ok _ _ _ _ _ Hdel). }
  assert (store w2 !! 2%positive = None) as Hgone.
  { rewrite Hs2. apply lookup_delete_eq. }
  assert (Animal_feed 2 w2 = Undefined) as Hturn.
  { unfold Animal_feed. apply bind_Undefined. by apply deref_animal_dangling. }
  exists w1, w2. split_and!.
  - rewrite (bind_Ok _ _ rivals [2%positive; 1%positive] rivals) by done.
    by rewrite (bind_Ok _ _ _ _ _ Hsort).
  - by rewrite (bind_Ok _ _ _ _ _ Hfeed), (bind_Ok _ _ _ _ _ Herase).
  - rewrite Han2. simpl. set_solver.
  - done.
  - done.
  - unfold step_feeding.
    rewrite (bind_Ok _ _ rivals [2%positive; 1%positive] rivals) by done.
    rewrite (bind_Ok _ _ _ _ _ Hsort), (bind_Ok _ _ _ _ _ Hpart).
    rewrite feeding_loop_cons, (bind_Ok _ _ _ _ _ Hfeed).
    simpl (_ =? _)%positive. cbv iota.
    rewrite (bind_Ok _ _ _ _ _ Herase).
    rewrite feeding_loop_cons. by apply bind_Undefined.
Qed.

(** *** The feeding pass with a single predatory species *)

Lemma survive_refl w : survive ∅ w w.
Proof. unfold survive. naive_solver. Qed.

Lemma survive_trans D1 D2 w0 w1 w2 :
  survive D1 w0 w1 → survive D2 w1 w2 → survive (D1 ∪ D2) w0 w2.
Proof.
  intros (Hs1 & Ho1 & Hk1) (Hs2 & Ho2 & Hk2). split_and!.
  - congruence.
  - intros p a2 Hp2. destruct (Ho2 p a2 Hp2) as (a1 & Hp1 & ? & ?).
    destruct (Ho1 p a1 Hp1) as (a0 & Hp0 & ? & ?).
    exists a0. split_and!; congruence.
  - intros p a Hp Hp0. destruct (Hk1 p a) as [a1 Hp1]; [set_solver | done |].
    apply (Hk2 p a1); [set_solver | done].
Qed.

Lemma survive_ext D w w1 w2 :
  store w2 = store w1 → species w2 = species w1 → survive D w w1 → survive D w w2.
Proof. intros Hs Hsp. unfold survive. by rewrite Hs, Hsp. Qed.

Lemma survive_update w p a a' :
  store w !! p = Some a → isa a' = isa a → _loci a' = _loci a →
  survive ∅ w (set_store (insert p a') w).
Proof.
  intros Hp Hi Hl. split_and!; [done| |].
  - intros q b. simpl. destruct (decide (p = q)) as [<-|Hne].
    + rewrite lookup_insert_eq. intros [= <-]. eauto.
    + rewrite lookup_insert_ne by done. eauto.
  - intros q b _ Hq. simpl. destruct (decide (p = q)) as [<-|Hne].
    + rewrite lookup_insert_eq. eauto.
    + rewrite lookup_insert_ne by done. eauto.
Qed.

Lemma survive_is_predator D w w' p :
  survive D w w' → p ∉ D → is_predator w p → is_predator w' p.
Proof.
  intros (Hs & Ho & Hk) Hp (a & sp & Ha & Hsp & Hpred).
  destruct (Hk p a Hp Ha) as [a' Ha'].
  destruct (Ho p a' Ha') as (a0 & Ha0 & Hi & _).
  exists a', sp. split_and!; [done| |done]. rewrite Hs. congruence.
Qed.

Lemma survive_is_predator_inv D w w' p :
  survive D w w' → is_predator w' p → is_predator w p.
Proof.
  intros (Hs & Ho & Hk) (a' & sp & Ha' & Hsp & Hpred).
  destruct (Ho p a' Ha') as (a & Ha & Hi & _).
  exists a, sp. split_and!; [done| |done]. rewrite <- Hs. congruence.
Qed.

Lemma survive_single_predatory_species D gp w w' :
  survive D w w' → single_predatory_species gp w → single_predatory_species gp w'.
Proof.
  intros (Hs & Ho & Hk) Hsingle p a' sp Ha' Hsp Hpred.
  destruct (Ho p a' Ha') as (a & Ha & Hi & _).
  rewrite Hi. apply (Hsingle p a sp); [done| |done]. rewrite <- Hs. congruence.
Qed.

Lemma feeding_inv_update w p a a' :
  feeding_inv w → store w !! p = Some a →
  isa a' = isa a → _loci a' = _loci a →
  feeding_inv (set_store (insert p a') w).
Proof.
  intros [Hinv Hloc] Hp Hi Hl. split.
  - by apply (breeding_inv_update w p a).
  - intros q b. simpl. destruct (decide (p = q)) as [<-|Hne].
    + rewrite lookup_insert_eq. intros [= <-]. rewrite Hl. eauto.
    + rewrite lookup_insert_ne by done. apply Hloc.
Qed.

Lemma feeding_inv_ext w w' :
  geography w' = geography w → store w' = store w → species w' = species w →
  feeding_inv w → feeding_inv w'.
Proof.
  intros Hg Hs Hsp [Hinv Hloc]. split.
  - by apply (breeding_inv_ext w).
  - by rewrite Hs.
Qed.

(** [Animal::fitness] in the feeding pass. *)
Lemma Animal_fitness_feeding w p a :
  feeding_inv w → store w !! p = Some a →
  ∃ phi w', Animal_fitness p w = Ok phi w' ∧ feeding_inv w' ∧ survive ∅ w w'
    ∧ geography w' = geography w ∧ animals w' = animals w.
Proof.
  intros Hinv Hp. pose proof Hinv as ((_ & _ & Hv) & _).
  destruct (Hv p a Hp) as [sp Hsp].
  rewrite (Animal_fitness_Ok w p a sp Hp Hsp).
  eexists _, _. split; [done|]. split_and!; try done.
  - by apply (feeding_inv_update w p a).
  - by apply (survive_update w p a).
Qed.

Lemma survive_trans_l D w0 w1 w2 :
  survive ∅ w0 w1 → survive D w1 w2 → survive D w0 w2.
Proof.
  intros H1 H2. rewrite <- (left_id_L ∅ (∪) D). by apply (survive_trans _ _ w0 w1 w2).
Qed.

Lemma survive_alive D w w' p :
  survive D w w' → p ∉ D → is_Some (store w !! p) → is_Some (store w' !! p).
Proof. intros (_ & _ & Hk) Hp [a Ha]. by apply (Hk p a). Qed.

(** The keys of [std::sort]: the fitness of every animal of the vector. *)
Lemma for_each_fitness_feeding l : ∀ w,
  feeding_inv w → (∀ p, p ∈ l → is_Some (store w !! p)) →
  ∃ keyed w',
    for_each (λ p, let* phi := Animal_fitness p in ret (p, phi)) l w = Ok keyed w'
    ∧ keyed.*1 = l ∧ feeding_inv w' ∧ survive ∅ w w'
    ∧ geography w' = geography w ∧ animals w' = animals w.
Proof.
  induction l as [|p l IH]; intros w Hinv Hl; simpl.
  { exists [], w. split_and!; try done. apply survive_refl. }
  destruct (Hl p) as [a Hp]; [set_solver|].
  destruct (Animal_fitness_feeding w p a Hinv Hp) as (phi & w1 & Hf & Hinv1 & Hs1 & Hg1 & Ha1).
  rewrite bind_assoc, (bind_Ok _ _ _ _ _ Hf), (bind_Ok _ _ _ _ _ (ret_Ok _ _)).
  destruct (IH w1 Hinv1) as (keyed & w2 & Hk & Hfst & Hinv2 & Hs2 & Hg2 & Ha2).
  { intros q Hq. apply (survive_alive ∅ w w1); [done|set_solver|]. apply Hl. set_solver. }
  rewrite (bind_Ok _ _ _ _ _ Hk).
  eexists _, w2. split; [done|]. split_and!; try done.
  - by rewrite fmap_cons, Hfst.
  - by apply (survive_trans_l _ w w1 w2).
  - congruence.
  - congruence.
Qed.

Lemma insert_fit_perm x l : insert_fit x l ≡ₚ x :: l.
Proof.
  induction l as [|y l IH]; simpl; [done|].
  destruct (Rgtb x.2 y.2); [done|]. rewrite IH. apply Permutation_swap.
Qed.

Lemma sort_fit_perm keyed : foldr insert_fit [] keyed ≡ₚ keyed.
Proof.
  induction keyed as [|x l IH]; simpl; [done|].
  rewrite insert_fit_perm. by rewrite IH.
Qed.

(** [std::sort] permutes the vector and changes the caches only. *)
Lemma sort_p_fit_feeding l w :
  feeding_inv w → (∀ p, p ∈ l → is_Some (store w !! p)) →
  ∃ l' w', sort_p_fit l w = Ok l' w' ∧ l' ≡ₚ l ∧ feeding_inv w' ∧ survive ∅ w w'
    ∧ geography w' = geography w ∧ animals w' = animals w.
Proof.
  intros Hinv Hl.
  assert (∃ l' w', (let* keyed := for_each (λ p, let* phi := Animal_fitness p in ret (p, phi)) l in
                    ret (foldr insert_fit [] keyed).*1) w = Ok l' w'
            ∧ l' ≡ₚ l ∧ feeding_inv w' ∧ survive ∅ w w'
            ∧ geography w' = geography w ∧ animals w' = animals w) as Hgen.
  { destruct (for_each_fitness_feeding l w Hinv Hl)
      as (keyed & w' & Hk & Hfst & Hinv' & Hs & Hg & Ha).
    rewrite (bind_Ok _ _ _ _ _ Hk). eexists _, w'. split; [done|].
    split_and!; try done. rewrite <- Hfst. apply fmap_Permutation, sort_fit_perm. }
  unfold sort_p_fit. destruct l as [|p [|q l]]; [| |exact Hgen].
  - exists [], w. split_and!; try done. apply survive_refl.
  - exists [p], w. split_and!; try done. apply survive_refl.
Qed.

(** The flags of [std::stable_partition]. *)
Lemma for_each_part_pred l w :
  feeding_inv w → (∀ p, p ∈ l → is_Some (store w !! p)) →
  ∃ flagged,
    for_each (λ o, let* b := part_pred o in ret (o, b)) l w = Ok flagged w
    ∧ flagged.*1 = l
    ∧ ∀ o b, (o, b) ∈ flagged → (b = false ↔ is_predator w o).
Proof.
  intros Hinv. pose proof Hinv as ((_ & _ & Hv) & _).
  induction l as [|p l IH]; intros Hl; simpl.
  { exists []. split_and!; try done. intros o b Hin. by apply elem_of_nil in Hin. }
  destruct (Hl p) as [a Hp]; [set_solver|].
  destruct (Hv p a Hp) as [sp Hsp].
  unfold part_pred at 1. rewrite ?bind_assoc.
  rewrite (bind_Ok _ _ _ _ _ (deref_animal_Ok _ _ _ Hp)). rewrite ?bind_assoc.
  rewrite (bind_Ok _ _ _ _ _ (deref_species_Ok _ _ _ Hsp)). rewrite ?bind_assoc.
  rewrite (bind_Ok _ _ _ _ _ (ret_Ok _ _)), (bind_Ok _ _ _ _ _ (ret_Ok _ _)).
  destruct IH as (flagged & Hf & Hfst & Hflags).
  { intros q Hq. apply Hl. set_solver. }
  rewrite (bind_Ok _ _ _ _ _ Hf).
  eexists. split; [done|]. split_and!.
  - by rewrite fmap_cons, Hfst.
  - intros o b Hin. apply elem_of_cons in Hin as [[= -> ->]|Hin]; [|by apply Hflags].
    split.
    + intros Hb. exists a, sp. split_and!; try done. by destruct (predatory sp).
    + intros (a' & sp' & Ha' & Hsp' & Hpred).
      assert (a' = a) as -> by congruence. assert (sp' = sp) as -> by congruence.
      by rewrite Hpred.
Qed.

Lemma herbivores_first_app w l1 l2 :
  (∀ p, p ∈ l1 → ¬ is_predator w p) → (∀ q, q ∈ l2 → is_predator w q) →
  herbivores_first w (l1 ++ l2).
Proof.
  intros H1 H2. induction l1 as [|p l1 IH]; simpl.
  - induction l2 as [|q l2 IH2]; simpl; [done|]. split.
    + intros _ q' Hq'. apply H2. set_solver.
    + apply IH2. intros q' Hq'. apply H2. set_solver.
  - split.
    + intros Hp. destruct (H1 p); [set_solver|done].
    + apply IH. intros q Hq. apply H1. set_solver.
Qed.

(** [std::stable_partition] permutes the vector, changes nothing and puts
    the predators last. *)
Lemma stable_partition_feeding l w :
  feeding_inv w → (∀ p, p ∈ l → is_Some (store w !! p)) →
  ∃ l', stable_partition_part_pred l w = Ok l' w ∧ l' ≡ₚ l ∧ herbivores_first w l'.
Proof.
  intros Hinv Hl. unfold stable_partition_part_pred.
  destruct (for_each_part_pred l w Hinv Hl) as (flagged & Hf & Hfst & Hflags).
  rewrite (bind_Ok _ _ _ _ _ Hf). eexists. split; [done|]. split.
  - rewrite <- Hfst, <- fmap_app. apply fmap_Permutation.
    clear. induction flagged as [|[o b] l IH]; [done|].
    rewrite !filter_cons. simpl. destruct b; repeat case_decide; try done; simpl.
    + by rewrite IH.
    + rewrite <- Permutation_middle. by rewrite IH.
  - apply herbivores_first_app.
    + intros p Hp Hpred. apply list_elem_of_fmap in Hp as ([o b] & -> & Hin).
      apply list_elem_of_filter in Hin as [Hb Hin]. simpl in *.
      apply Hflags in Hin. subst b. destruct Hin as [_ Hin]. by specialize (Hin Hpred).
    + intros p Hp. apply list_elem_of_fmap in Hp as ([o b] & -> & Hin).
      apply list_elem_of_filter in Hin as [Hb Hin]. simpl in *.
      apply Hflags in Hin. by apply Hin.
Qed.

(** A change of the feed of a cell. *)
Lemma feeding_inv_feed w c x f :
  feeding_inv w → cells (geography w) !! c = Some x →
  feeding_inv (set_cells (insert c (with_feed f x)) w).
Proof.
  intros [(Hm & Hl & Hv) Hloc] Hc. split; [split_and!|]; try done.
  - intros p c'. simpl. rewrite <- (Hm p c').
    destruct (decide (c = c')) as [<-|Hne].
    + rewrite lookup_insert_eq, Hc. split; intros (x' & [= <-] & Hin); eauto.
    + by rewrite lookup_insert_ne.
  - intros c' x' p. simpl. destruct (decide (c = c')) as [<-|Hne].
    + rewrite lookup_insert_eq. intros [= <-]. simpl. by apply (Hl c x p).
    + rewrite lookup_insert_ne by done. apply Hl.
Qed.

(** The turn of a herbivore. *)
Lemma Animal_feed_herbivore w p a sp :
  feeding_inv w → store w !! p = Some a → species w !! isa a = Some sp →
  predatory sp = false →
  ∃ w', Animal_feed p w = Ok [p] w' ∧ feeding_inv w' ∧ survive ∅ w w'.
Proof.
  intros Hinv Hp Hsp Hpred. pose proof Hinv as [(Hm & _ & _) Hloc].
  destruct (Hloc p a Hp) as [c Hc].
  destruct (proj2 (Hm p c)) as (x & Hx & _); [eauto|].
  unfold Animal_feed.
  rewrite (bind_Ok _ _ _ _ _ (deref_animal_Ok _ _ _ Hp)).
  unfold Species_feed.
  rewrite (bind_Ok _ _ _ _ _ (deref_species_Ok _ _ _ Hsp)), Hpred.
  unfold Animal_location. rewrite bind_assoc.
  rewrite (bind_Ok _ _ _ _ _ (deref_animal_Ok _ _ _ Hp)), Hc.
  rewrite (bind_Ok _ _ _ _ _ (ret_Ok _ _)).
  rewrite (bind_Ok _ _ _ _ _ (Cell_graze_min _ _ _ _ Hx)).
  set (w1 := set_cells _ w).
  assert (feeding_inv w1) as Hinv1 by (by apply feeding_inv_feed).
  rewrite (bind_Ok _ _ _ _ _ (Animal_fatten_Ok w1 p a _ Hp)).
  eexists. split; [done|]. split.
  - by apply (feeding_inv_update w1 p a).
  - apply (survive_ext _ _ (set_store (insert p
             {| isa := isa a; _vekt := (_vekt a + _beta sp * Rmin (feed x) (_F sp))%R;
                _alder := _alder a; _loci := _loci a; _fitness := ANIMAL_INV |}) w));
      [done..|].
    by apply (survive_update w p a).
Qed.

(** [Animal::eat] in the feeding pass. *)
Lemma Animal_eat_feeding w p prey a b :
  feeding_inv w → store w !! p = Some a → store w !! prey = Some b →
  ∃ caught w', Animal_eat p prey w = Ok caught w' ∧ feeding_inv w' ∧ survive ∅ w w'.
Proof.
  intros Hinv Hp Hprey. unfold Animal_eat.
  destruct (Animal_fitness_feeding w p a Hinv Hp) as (phi & w1 & Hf1 & Hinv1 & Hs1 & _).
  rewrite (bind_Ok _ _ _ _ _ Hf1).
  destruct (survive_alive ∅ w w1 prey Hs1) as [b1 Hprey1]; [set_solver|eauto|].
  destruct (Animal_fitness_feeding w1 prey b1 Hinv1 Hprey1)
    as (phi' & w2 & Hf2 & Hinv2 & Hs2 & _).
  rewrite (bind_Ok _ _ _ _ _ Hf2).
  pose proof (survive_trans_l _ w w1 w2 Hs1 Hs2) as Hs.
  destruct (survive_alive ∅ w w2 p Hs) as [a2 Hp2]; [set_solver|eauto|].
  rewrite (bind_Ok _ _ _ _ _ (deref_animal_Ok _ _ _ Hp2)).
  pose proof Hinv2 as ((_ & _ & Hv2) & _). destruct (Hv2 p a2 Hp2) as [sp2 Hsp2].
  rewrite (bind_Ok _ _ _ _ _ (deref_species_Ok _ _ _ Hsp2)).
  unfold drand, bind, ret. eexists _, _. split; [done|]. split.
  - by apply (feeding_inv_ext w2).
  - by apply (survive_ext _ w w2).
Qed.

(** The loop of a predator over its cellmates: what it eats is a sublist
    of the cellmates, of animals of other species. *)
Lemma feed_loop_feeding sp beast mates : ∀ w b,
  feeding_inv w → store w !! beast = Some b →
  (∀ m, m ∈ mates → is_Some (store w !! m)) →
  ∃ food w', feed_loop sp beast mates w = Ok food w' ∧ feeding_inv w'
    ∧ survive ∅ w w' ∧ food `sublist_of` mates
    ∧ ∀ f, f ∈ food → ∃ m, store w !! f = Some m ∧ isa m ≠ isa b.
Proof.
  induction mates as [|mate rest IH]; intros w b Hinv Hb Hm.
  { exists [], w. split_and!; try done; [apply survive_refl|]. intros f Hf.
    by apply elem_of_nil in Hf. }
  rewrite feed_loop_cons.
  destruct (Hm mate) as [m Hmate]; [set_solver|].
  rewrite (bind_Ok _ _ _ _ _ (deref_animal_Ok _ _ _ Hmate)).
  rewrite (bind_Ok _ _ _ _ _ (deref_animal_Ok _ _ _ Hb)).
  assert (∃ eaten w1,
            (if negb (isa m =? isa b)%nat && negb (Reqb (_vekt m) 0) then
               let* caught := Animal_eat beast mate in
               if caught then
                 let* m' := deref_animal mate in
                 Animal_fatten beast (_beta sp * _vekt m');;; ret [mate]
               else ret []
             else ret []) w = Ok eaten w1
            ∧ feeding_inv w1 ∧ survive ∅ w w1
            ∧ (eaten = [] ∨ (eaten = [mate] ∧ isa m ≠ isa b)))
    as (eaten & w1 & He & Hinv1 & Hs1 & Heaten).
  { destruct (negb (isa m =? isa b)%nat) eqn:Hiso; simpl;
      [destruct (negb (Reqb (_vekt m) 0)); simpl|].
    - destruct (Animal_eat_feeding w beast mate b m Hinv Hb Hmate)
        as (caught & w1 & Heat & Hinv1 & Hs1).
      rewrite (bind_Ok _ _ _ _ _ Heat). destruct caught.
      + destruct (survive_alive ∅ w w1 mate Hs1) as [m1 Hm1]; [set_solver|eauto|].
        destruct (survive_alive ∅ w w1 beast Hs1) as [b1 Hb1]; [set_solver|eauto|].
        rewrite (bind_Ok _ _ _ _ _ (deref_animal_Ok _ _ _ Hm1)).
        rewrite (bind_Ok _ _ _ _ _ (Animal_fatten_Ok w1 beast b1 _ Hb1)).
        eexists _, _. split; [done|]. split_and!.
        * by apply (feeding_inv_update w1 beast b1).
        * apply (survive_trans_l _ w w1); [done|]. by apply (survive_update w1 beast b1).
        * right. split; [done|]. apply negb_true_iff, Nat.eqb_neq in Hiso. done.
      + exists [], w1. split_and!; try done. by left.
    - exists [], w. split_and!; try done; [apply survive_refl | by left].
    - exists [], w. split_and!; try done; [apply survive_refl | by left]. }
  rewrite (bind_Ok _ _ _ _ _ He).
  destruct (survive_alive ∅ w w1 beast Hs1) as [b1 Hb1]; [set_solver|eauto|].
  destruct (IH w1 b1 Hinv1 Hb1) as (food & w2 & Hrest & Hinv2 & Hs2 & Hsub & Hfood).
  { intros q Hq. apply (survive_alive ∅ w w1); [done|set_solver|]. apply Hm. set_solver. }
  rewrite (bind_Ok _ _ _ _ _ Hrest).
  eexists _, w2. split; [done|]. split_and!; try done.
  - by apply (survive_trans_l _ w w1 w2).
  - destruct Heaten as [->|[-> _]]; simpl.
    + by apply sublist_cons.
    + by apply sublist_skip.
  - intros f Hf. apply elem_of_app in Hf as [Hf|Hf].
    + destruct Heaten as [->|[-> Hne]]; [by apply elem_of_nil in Hf|].
      apply list_elem_of_singleton in Hf as ->. eauto.
    + destruct (Hfood f Hf) as (m1 & Hf1 & Hne1).
      destruct Hs1 as (_ & Ho1 & _).
      destruct (Ho1 f m1 Hf1) as (m0 & Hf0 & Hi0 & _).
      destruct (Ho1 beast b1 Hb1) as (b0 & Hb0 & Hib & _).
      exists m0. split; [done|]. congruence.
Qed.

(** The turn of a predator: it eats distinct living animals of other
    species. *)
Lemma Animal_feed_predator w p a sp :
  feeding_inv w → store w !! p = Some a → species w !! isa a = Some sp →
  predatory sp = true →
  ∃ food w', Animal_feed p w = Ok food w' ∧ feeding_inv w' ∧ survive ∅ w w'
    ∧ NoDup food
    ∧ ∀ f, f ∈ food → ∃ m, store w !! f = Some m ∧ isa m ≠ isa a.
Proof.
  intros Hinv Hp Hsp Hpred. pose proof Hinv as [(Hm & _ & _) Hloc].
  destruct (Hloc p a Hp) as [c Hc].
  destruct (proj2 (Hm p c)) as (x & Hx & _); [eauto|].
  unfold Animal_feed.
  rewrite (bind_Ok _ _ _ _ _ (deref_animal_Ok _ _ _ Hp)).
  unfold Species_feed.
  rewrite (bind_Ok _ _ _ _ _ (deref_species_Ok _ _ _ Hsp)), Hpred.
  unfold Animal_location. rewrite bind_assoc.
  rewrite (bind_Ok _ _ _ _ _ (deref_animal_Ok _ _ _ Hp)), Hc.
  rewrite (bind_Ok _ _ _ _ _ (ret_Ok _ _)).
  rewrite (bind_Ok _ _ _ _ _ (Cell_animals_Ok _ _ _ Hx)).
  destruct (feed_loop_feeding sp p (elements (habitants x)) w a Hinv Hp)
    as (food & w' & Hfeed & Hinv' & Hs & Hsub & Hfood).
  { intros m Hin. apply elem_of_elements in Hin.
    destruct (proj1 (Hm m c)) as (b & Hb & _); eauto. }
  exists food, w'. split_and!; try done.
  eapply sublist_NoDup; [|exact Hsub]. apply NoDup_elements.
Qed.

(** [delete] of a living animal: it leaves its cell and the store. *)
Lemma Animal_delete_feeding w f :
  feeding_inv w → is_Some (store w !! f) →
  ∃ w', Animal_delete f w = Ok tt w' ∧ feeding_inv w' ∧ survive {[f]} w w'
    ∧ store w' !! f = None.
Proof.
  intros Hinv [a Hf]. pose proof Hinv as [(Hm & Hl & Hv) Hloc].
  destruct (Hloc f a Hf) as [c Hc].
  destruct (proj2 (Hm f c)) as (x & Hx & Hin); [eauto|].
  unfold Animal_delete.
  rewrite (bind_Ok _ _ _ _ _ (deref_animal_Ok _ _ _ Hf)), Hc.
  rewrite (bind_Ok _ _ _ _ _ (Cell_removeAnimal_Ok _ _ _ _ Hx)).
  eexists. split; [done|]. split_and!.
  - split; [split_and!|].
    + intros q c'. simpl. destruct (decide (q = f)) as [->|Hq].
      * rewrite lookup_delete_eq. split; [|by intros (? & [=] & _)].
        intros (x' & Hx' & Hin'). exfalso.
        destruct (decide (c = c')) as [<-|Hne].
        -- rewrite lookup_insert_eq in Hx'. injection Hx' as <-. simpl in Hin'. set_solver.
        -- rewrite lookup_insert_ne in Hx' by done.
           destruct (proj1 (Hm f c')) as (a' & Ha' & Hl'); [eauto|]. congruence.
      * rewrite lookup_delete_ne by done. rewrite <- (Hm q c').
        destruct (decide (c = c')) as [<-|Hne].
        -- rewrite lookup_insert_eq, Hx. split.
           ++ intros (x' & [= <-] & Hin'). simpl in Hin'. exists x. split; [done|set_solver].
           ++ intros (x' & [= <-] & Hin'). eexists. split; [done|]. simpl. set_solver.
        -- by rewrite lookup_insert_ne.
    + intros c' x' q. simpl. destruct (decide (c = c')) as [<-|Hne].
      * rewrite lookup_insert_eq. intros [= <-]. simpl. intros Hq.
        apply (Hl c x q Hx). set_solver.
      * rewrite lookup_insert_ne by done. apply Hl.
    + intros q b. simpl. intros Hq. apply lookup_delete_Some in Hq as [_ Hq]. by apply (Hv q b).
    + intros q b. simpl. intros Hq. apply lookup_delete_Some in Hq as [_ Hq]. by apply (Hloc q b).
  - split_and!; [done| |].
    + intros q b. simpl. intros Hq. apply lookup_delete_Some in Hq as [_ Hq]. eauto.
    + intros q b Hq Hqs. simpl. rewrite lookup_delete_ne by set_solver. eauto.
  - simpl. apply lookup_delete_eq.
Qed.

(** The eaten animals are erased and deleted, once each. *)
Lemma erase_food_feeding food : ∀ w,
  feeding_inv w → NoDup food → (∀ f, f ∈ food → is_Some (store w !! f)) →
  ∃ w', erase_food food w = Ok tt w' ∧ feeding_inv w'
    ∧ survive (list_to_set food) w w'.
Proof.
  induction food as [|f rest IH]; intros w Hinv Hnd Hfood; simpl.
  { exists w. split_and!; try done. apply survive_refl. }
  apply NoDup_cons in Hnd as [Hf Hnd].
  set (w0 := set_animals (λ s, s ∖ {[f]}) w).
  rewrite (bind_Ok _ _ w tt w0) by done.
  assert (feeding_inv w0) as Hinv0 by (by apply (feeding_inv_ext w)).
  destruct (Animal_delete_feeding w0 f Hinv0) as (w1 & Hdel & Hinv1 & Hs1 & _).
  { apply Hfood. set_solver. }
  rewrite (bind_Ok _ _ _ _ _ Hdel).
  destruct (IH w1 Hinv1 Hnd) as (w2 & Hrest & Hinv2 & Hs2).
  { intros g Hg. apply (survive_alive {[f]} w0 w1); [done|set_solver|].
    apply Hfood. set_solver. }
  exists w2. split_and!; try done.
  apply (survive_trans {[f]} (list_to_set rest) w w1 w2); [|done].
  by apply (survive_ext _ w0 w1).
Qed.

Lemma herbivores_first_survive D w w' l :
  survive D w w' → (∀ p, p ∈ l → p ∉ D) →
  herbivores_first w l → herbivores_first w' l.
Proof.
  intros Hs. induction l as [|p rest IH]; intros HD; simpl; [done|].
  intros [Hp Hrest]. split.
  - intros Hpred q Hq. apply (survive_is_predator D w w'); [done|apply HD; set_solver|].
    apply Hp; [|done]. by apply (survive_is_predator_inv D w w').
  - apply IH; [|done]. intros q Hq. apply HD. set_solver.
Qed.

Lemma herbivores_first_predators w l :
  (∀ q, q ∈ l → is_predator w q) → herbivores_first w l.
Proof.
  intros H. apply (herbivores_first_app w [] l); [|done].
  intros p Hp. by apply elem_of_nil in Hp.
Qed.

(** With a single predatory species the feeding loop gives a turn to living
    animals only, and runs to its end. *)
Lemma feeding_loop_feeding gp l : ∀ w pred prey,
  feeding_inv w → single_predatory_species gp w → herbivores_first w l →
  (∀ p, p ∈ l → is_Some (store w !! p)) →
  ∃ r w', feeding_loop l pred prey w = Ok r w' ∧ feeding_inv w'.
Proof.
  induction l as [|p rest IH]; intros w pred prey Hinv Hsingle Hfirst Hl.
  { by exists (pred, prey), w. }
  rewrite feeding_loop_cons.
  destruct (Hl p) as [a Hp]; [set_solver|].
  pose proof Hinv as ((_ & _ & Hv) & _). destruct (Hv p a Hp) as [sp Hsp].
  destruct Hfirst as [Hpreds Hfirst].
  destruct (predatory sp) eqn:Hpred.
  - (* a predator: whatever it eats is no predator, so it is not in [rest] *)
    assert (is_predator w p) as Hisp by (by exists a, sp).
    destruct (Animal_feed_predator w p a sp Hinv Hp Hsp Hpred)
      as (food & w1 & Hfeed & Hinv1 & Hs1 & Hnd & Hfood).
    rewrite (bind_Ok _ _ _ _ _ Hfeed).
    destruct (erase_food_feeding food w1 Hinv1 Hnd) as (w2 & Herase & Hinv2 & Hs2).
    { intros f Hf. destruct (Hfood f Hf) as (m & Hm & _).
      apply (survive_alive ∅ w w1); [done|set_solver|eauto]. }
    pose proof (survive_trans_l _ w w1 w2 Hs1 Hs2) as Hs.
    assert (∀ q, q ∈ rest → q ∉ (list_to_set food : gset positive)) as Hdisj.
    { intros q Hq Hin. apply elem_of_list_to_set in Hin.
      destruct (Hfood q Hin) as (m & Hm & Hne).
      destruct (Hpreds Hisp q Hq) as (m' & spq & Hm' & Hspq & Hpq).
      assert (m' = m) as -> by congruence.
      apply Hne. rewrite (Hsingle q m spq Hm Hspq Hpq).
      by rewrite (Hsingle p a sp Hp Hsp Hpred). }
    assert (∀ pred' prey', ∃ r w',
              (erase_food food;;; feeding_loop rest pred' prey') w1 = Ok r w'
              ∧ feeding_inv w') as Hcont.
    { intros pred' prey'. rewrite (bind_Ok _ _ _ _ _ Herase).
      apply IH; try done.
      - by apply (survive_single_predatory_species (list_to_set food) gp w w2).
      - apply herbivores_first_predators. intros q Hq.
        apply (survive_is_predator (list_to_set food) w w2);
          [done|by apply Hdisj|by apply Hpreds].
      - intros q Hq. apply (survive_alive (list_to_set food) w w2); [done|by apply Hdisj|].
        apply Hl. set_solver. }
    destruct food as [|f [|f' food]]; [apply Hcont| |apply Hcont].
    destruct (Pos.eqb_spec f p) as [->|Hne]; [|apply Hcont].
    destruct (Hfood p) as (m & Hm & Hmne); [set_solver|]. congruence.
  - (* a herbivore *)
    destruct (Animal_feed_herbivore w p a sp Hinv Hp Hsp Hpred) as (w1 & Hfeed & Hinv1 & Hs1).
    rewrite (bind_Ok _ _ _ _ _ Hfeed). rewrite Pos.eqb_refl.
    apply IH; try done.
    + by apply (survive_single_predatory_species ∅ gp w w1).
    + apply (herbivores_first_survive ∅ w w1); [done|set_solver|done].
    + intros q Hq. apply (survive_alive ∅ w w1); [done|set_solver|]. apply Hl. set_solver.
Qed.

(** When all predatory animals are of one species, step 6 of
    [Simulation::step] runs to its end: no turn goes to a deleted animal
    and no animal is deleted twice, either of which would be undefined.
    This is the case the comment in the source calls never problematic. *)
Lemma step_feeding_single_predatory_species gp w :
  feeding_inv w → single_predatory_species gp w →
  (∀ p, p ∈ animals w → is_Some (store w !! p)) →
  ∃ r w', step_feeding w = Ok r w' ∧ feeding_inv w'.
Proof.
  intros Hinv Hsingle Han. unfold step_feeding.
  rewrite (bind_Ok _ _ w (elements (animals w)) w) by done.
  destruct (sort_p_fit_feeding (elements (animals w)) w Hinv)
    as (l1 & w1 & Hsort & Hperm1 & Hinv1 & Hs1 & _).
  { intros p Hp. apply Han. by apply elem_of_elements. }
  rewrite (bind_Ok _ _ _ _ _ Hsort).
  assert (∀ p, p ∈ l1 → is_Some (store w1 !! p)) as Hl1.
  { intros p Hp. apply (survive_alive ∅ w w1); [done|set_solver|].
    apply Han. apply elem_of_elements. by rewrite <- Hperm1. }
  destruct (stable_partition_feeding l1 w1 Hinv1 Hl1) as (l2 & Hpart & Hperm2 & Hfirst).
  rewrite (bind_Ok _ _ _ _ _ Hpart).
  apply (feeding_loop_feeding gp); try done.
  - by apply (survive_single_predatory_species ∅ gp w w1).
  - intros p Hp. apply Hl1. by rewrite <- Hperm2.
Qed.

(** * Further properties of the code *)

(** ** Packed coordinates ([BioSim::coordPack], [BioSim::coordUnpack]) *)

Lemma coordPack_small x y :
  (0 ≤ x < 2 ^ 16)%Z → (0 ≤ y < 2 ^ 16)%Z → coordPack x y = (x * 2 ^ 16 + y)%Z.
Proof.
  intros Hx Hy. unfold coordPack, wrap32.
  rewrite Z.shiftl_mul_pow2 by lia.
  rewrite (Z.mod_small (x * 2 ^ 16)) by lia.
  apply Z.mod_small. lia.
Qed.

Lemma coordUnpack_small c :
  coordUnpack c = ((c / 2 ^ 16)%Z, (c mod 2 ^ 16)%Z).
Proof.
  unfold coordUnpack. rewrite Z.shiftr_div_pow2 by lia.
  change 65535%Z with (Z.ones 16). by rewrite Z.land_ones by lia.
Qed.

Lemma coordUnpack_coordPack x y :
  (0 ≤ x < 2 ^ 16)%Z → (0 ≤ y < 2 ^ 16)%Z → coordUnpack (coordPack x y) = (x, y).
Proof.
  intros Hx Hy. rewrite coordPack_small, coordUnpack_small by done. f_equal.
  - rewrite Z.div_add_l by lia. rewrite Z.div_small by lia. lia.
  - rewrite Z.add_comm, Z.mod_add by lia. apply Z.mod_small. lia.
Qed.

Lemma coordPack_inj x y x' y' :
  (0 ≤ x < 2 ^ 16)%Z → (0 ≤ y < 2 ^ 16)%Z →
  (0 ≤ x' < 2 ^ 16)%Z → (0 ≤ y' < 2 ^ 16)%Z →
  coordPack x y = coordPack x' y' → x = x' ∧ y = y'.
Proof.
  intros Hx Hy Hx' Hy' Heq.
  pose proof (coordUnpack_coordPack x y Hx Hy) as H1.
  pose proof (coordUnpack_coordPack x' y' Hx' Hy') as H2.
  rewrite Heq in H1. rewrite H1 in H2. by inversion H2.
Qed.

(** X1.  Packing and unpacking are inverse to each other between the pairs
    of 16-bit coordinates and the 32-bit words: unpacking a packed pair
    gives the pair back, and packing the two halves of a word gives the
    word back. *)
Theorem coordPack_coordUnpack_inverse :
  (∀ x y : Z, (0 ≤ x < 2 ^ 16)%Z → (0 ≤ y < 2 ^ 16)%Z →
     coordUnpack (coordPack x y) = (x, y) ∧ (0 ≤ coordPack x y < 2 ^ 32)%Z)
  ∧ (∀ coord : Z, (0 ≤ coord < 2 ^ 32)%Z →
       let (x, y) := coordUnpack coord in
       coordPack x y = coord ∧ (0 ≤ x < 2 ^ 16)%Z ∧ (0 ≤ y < 2 ^ 16)%Z).
Proof.
  split.
  - intros x y Hx Hy. split; [by apply coordUnpack_coordPack|].
    rewrite coordPack_small by done. lia.
  - intros coord Hc. rewrite coordUnpack_small.
    assert (0 ≤ coord / 2 ^ 16 < 2 ^ 16)%Z as Hx.
    { split; [apply Z.div_pos; lia|]. apply Z.div_lt_upper_bound; lia. }
    assert (0 ≤ coord mod 2 ^ 16 < 2 ^ 16)%Z as Hy by (apply Z.mod_pos_bound; lia).
    split_and!; try lia.
    rewrite coordPack_small by done.
    pose proof (Z.div_mod coord (2 ^ 16) ltac:(lia)). lia.
Qed.

Lemma coordPack_coordUnpack_inverse_witness :
  coordUnpack (coordPack 3 5) = (3%Z, 5%Z)
  ∧ (let (x, y) := coordUnpack 196613 in coordPack x y = 196613%Z).
Proof.
  destruct coordPack_coordUnpack_inverse as [Hpack Hunpack]. split.
  - apply (Hpack 3%Z 5%Z); lia.
  - pose proof (Hunpack 196613%Z ltac:(lia)) as H.
    destruct (coordUnpack 196613) as [x y]. apply H.
Defined.

(** X2.  The packed value orders the 16-bit coordinates lexicographically,
    the x-value first: the keys of [Map::cells] are sorted by x, then by
    y. *)
Theorem coordPack_lexicographic (x y x' y' : Z) :
  (0 ≤ x < 2 ^ 16)%Z → (0 ≤ y < 2 ^ 16)%Z →
  (0 ≤ x' < 2 ^ 16)%Z → (0 ≤ y' < 2 ^ 16)%Z →
  (coordPack x y < coordPack x' y')%Z ↔ (x < x')%Z ∨ (x = x' ∧ (y < y')%Z).
Proof.
  intros Hx Hy Hx' Hy'. rewrite !coordPack_small by done. lia.
Qed.

Lemma coordPack_lexicographic_witness :
  (coordPack 1 0 < coordPack 1 7)%Z ∧ (coordPack 1 7 < coordPack 2 0)%Z.
Proof.
  split.
  - apply (coordPack_lexicographic 1 0 1 7); lia.
  - apply (coordPack_lexicographic 1 7 2 0); lia.
Defined.

(** ** Lookup of a species by name ([Simulation::genus]) *)

Lemma genus_from_Some i l typeName g :
  genus_from i l typeName = Some g →
  ∃ k sp, g = (i + k)%nat ∧ l !! k = Some sp ∧ name sp = typeName
          ∧ ∀ j sp', (j < k)%nat → l !! j = Some sp' → name sp' ≠ typeName.
Proof.
  revert i. induction l as [|sp0 l IH]; intros i H; [done|]. simpl in H.
  destruct (String.eqb (name sp0) typeName) eqn:E.
  - inversion H; subst. exists 0%nat, sp0. split_and!; [lia|done| |lia].
    by apply String.eqb_eq.
  - destruct (IH _ H) as (k & sp & -> & Hk & Hn & Hfirst).
    exists (S k), sp. split_and!; [lia|done|done|].
    intros [|j] sp' Hj Hl; simpl in Hl.
    + inversion Hl; subst. by apply String.eqb_neq.
    + apply (Hfirst j); [lia|done].
Qed.

Lemma genus_from_None i l typeName :
  genus_from i l typeName = None → ∀ sp, sp ∈ l → name sp ≠ typeName.
Proof.
  revert i. induction l as [|sp0 l IH]; intros i H sp Hsp; [by inversion Hsp|].
  simpl in H. destruct (String.eqb (name sp0) typeName) eqn:E; [done|].
  apply elem_of_cons in Hsp as [-> | Hsp]; [by apply String.eqb_neq|].
  by apply (IH _ H).
Qed.

(** X3.  [Simulation::genus] changes nothing and returns the first species
    of the list that bears the name: no species before it has the name; it
    returns the null pointer exactly when no species has the name. *)
Theorem Simulation_genus_first (w : World) (typeName : string) :
  ∃ r, Simulation_genus typeName w = Ok r w
    ∧ match r with
      | Some g =>
          ∃ sp, species w !! g = Some sp ∧ name sp = typeName
                ∧ ∀ j sp', (j < g)%nat → species w !! j = Some sp' → name sp' ≠ typeName
      | None => ∀ sp, sp ∈ species w → name sp ≠ typeName
      end.
Proof.
  exists (genus_from 0 (species w) typeName). split; [done|].
  destruct (genus_from 0 (species w) typeName) as [g|] eqn:E.
  - destruct (genus_from_Some _ _ _ _ E) as (k & sp & -> & Hk & Hn & Hfirst).
    exists sp. split_and!; [done..|]. intros j sp' Hj. apply Hfirst. lia.
  - by apply (genus_from_None 0).
Qed.

(** ** Regrowth and grazing ([Cell::regrow], [Cell::graze]) *)




Lemma for_each_cons {A B} (f : A → M B) x l :
  for_each f (x :: l) = (let* y := f x in let* ys := for_each f l in ret (y :: ys)).
Proof. done. Qed.




(** ** The residents of a species ([Cell::cellMates]) *)

(** X6.  In a world where cells and animals agree on who lives where,
    [Cell::cellMates] changes nothing and returns, each once, exactly the
    animals located in the cell that are of the given species and whose age
    is at least 0, or at least 1 with [breedersOnly]. *)
Theorem Cell_cellMates_spec (w : World) (c : Z) (x : Cell) (g : nat)
    (breedersOnly : bool) :
  membership_inv w → cells (geography w) !! c = Some x →
  ∃ l, Cell_cellMates c g breedersOnly w = Ok l w ∧ NoDup l
    ∧ ∀ p, p ∈ l ↔ ∃ a, store w !! p = Some a ∧ _loci a = Some c ∧ isa a = g
                       ∧ ((if breedersOnly then 1 else 0) ≤ _alder a)%Z.
Proof.
  intros Hm Hc. eexists. split; [by apply Cell_cellMates_Ok|]. split.
  - apply NoDup_filter, NoDup_elements.
  - intros p. by apply elem_of_mates.
Qed.

Lemma Cell_cellMates_spec_witness :
  ∃ l, Cell_cellMates (coordPack 0 0) 0 true shore = Ok l shore ∧ NoDup l
    ∧ ∀ p, p ∈ l ↔ ∃ a, store shore !! p = Some a ∧ _loci a = Some (coordPack 0 0)
                       ∧ isa a = 0%nat ∧ (1 ≤ _alder a)%Z.
Proof.
  apply (Cell_cellMates_spec shore (coordPack 0 0) pasture 0 true).
  - apply shore_membership.
  - reflexivity.
Defined.

(** ** Birth ([Animal::Animal], [Animal::breed], [Cell::breed]) *)

(** [Animal::Animal(type, location)] at a live cell, in full: the new
    object, at the first free address, has the birth weight of its kind,
    age 0 and a filled fitness cache, and is a habitant of the cell. *)
Lemma Animal_new_Ok w type sp c x t :
  species w !! type = Some sp →
  cells (geography w) !! c = Some x → archetype x = Some t → _live t = true →
  let q := fresh (dom (store w)) in
  ∃ w', Animal_new type (Some c) w = Ok q w'
    ∧ store w !! q = None
    ∧ store w' = <[q := {| isa := type; _vekt := _v_fod sp; _alder := 0;
                          _loci := Some c;
                          _fitness := Species_fitness sp (_v_fod sp) 0 |}]> (store w)
    ∧ cells (geography w') =
        <[c := with_habitants ({[q]} ∪ habitants x) x]> (cells (geography w))
    ∧ species w' = species w ∧ animals w' = animals w
    ∧ randomGen w' = randomGen w ∧ drawn w' = drawn w
    ∧ _rows (geography w') = _rows (geography w)
    ∧ _cols (geography w') = _cols (geography w).
Proof.
  intros Hsp Hc Ht Hlive q. unfold Animal_new.
  rewrite (bind_Ok _ _ _ _ _ (deref_species_Ok _ _ _ Hsp)).
  set (a0 := {| isa := type; _vekt := Species_birthweight sp; _alder := 0;
                _loci := None; _fitness := ANIMAL_INV |}).
  assert (store w !! q = None) as Hq by (apply not_elem_of_dom, is_fresh).
  set (w1 := set_store (insert q a0) w).
  rewrite (bind_Ok _ _ w q w1) by done.
  destruct (Animal_moveTo_other w1 q a0 c x t)
    as (w2 & Hmove & Hs2 & Hsp2 & Han2 & Hr2 & Hd2 & Hrows & Hcols & Hc2); try done.
  { apply lookup_insert_eq. }
  rewrite (bind_Ok _ _ _ _ _ Hmove).
  assert (store w2 !! q = Some (with_loci (Some c) a0)) as Hq2.
  { rewrite Hs2. apply lookup_insert_eq. }
  rewrite (bind_Ok _ _ _ _ _ (deref_animal_Ok _ _ _ Hq2)).
  rewrite (bind_Ok _ _ _ _ _ (assign_animal_Ok _ _ _ _ Hq2)).
  eexists. split; [done|]. simpl. split_and!; try done.
  rewrite Hs2. simpl. by rewrite !insert_insert_eq.
Qed.

(** X7.  [Animal::breed] of an animal that lives in a cell.  It gives birth
    exactly when the age of the animal is not 0 and its weight is at least
    [v_min + zeta * v_fod].  Then the parent loses [zeta * v_fod] and its
    fitness cache is reset; the child is a new object of the parent's
    species, of weight [v_fod] and age 0, located in the parent's cell and
    a habitant of it.  Otherwise the null pointer is returned and nothing
    changes. *)
Theorem Animal_breed_spec (w : World) (p : positive) (a : Animal) (sp : Species)
    (c : Z) (x : Cell) (t : ArchCell) :
  store w !! p = Some a → species w !! isa a = Some sp → _loci a = Some c →
  cells (geography w) !! c = Some x → archetype x = Some t → _live t = true →
  let fertile := negb (_alder a =? 0)%Z && Species_canBreed sp (_vekt a) in
  (fertile = true ↔ _alder a ≠ 0%Z ∧ (_v_min sp + _zeta sp * _v_fod sp <= _vekt a)%R)
  ∧ (fertile = false → Animal_breed p w = Ok None w)
  ∧ (fertile = true →
     ∃ q w' x', Animal_breed p w = Ok (Some q) w'
       ∧ store w !! q = None ∧ q ≠ p
       ∧ store w' !! p = Some {| isa := isa a; _vekt := (_vekt a - _zeta sp * _v_fod sp)%R;
                                _alder := _alder a; _loci := Some c;
                                _fitness := ANIMAL_INV |}
       ∧ store w' !! q = Some {| isa := isa a; _vekt := _v_fod sp; _alder := 0;
                                _loci := Some c;
                                _fitness := Species_fitness sp (_v_fod sp) 0 |}
       ∧ (∀ r, r ≠ p → r ≠ q → store w' !! r = store w !! r)
       ∧ cells (geography w') !! c = Some x'
       ∧ habitants x' = {[q]} ∪ habitants x ∧ feed x' = feed x
       ∧ animals w' = animals w ∧ drawn w' = drawn w).
Proof.
  intros Hp Hsp Hloc Hc Ht Hlive fertile.
  assert (fertile = true ↔ _alder a ≠ 0%Z ∧ (_v_min sp + _zeta sp * _v_fod sp <= _vekt a)%R)
    as Hfert.
  { unfold fertile, Species_canBreed, Species_birthloss.
    rewrite andb_true_iff, negb_true_iff, Z.eqb_neq, Rgeb_true. intuition lra. }
  split; [done|]. unfold Animal_breed.
  rewrite (bind_Ok _ _ _ _ _ (deref_animal_Ok _ _ _ Hp)).
  rewrite (bind_Ok _ _ _ _ _ (deref_species_Ok _ _ _ Hsp)).
  fold fertile. split; intros Hf; rewrite Hf; [done|].
  rewrite (bind_Ok _ _ _ _ _ (assign_animal_Ok _ _ _ _ Hp)).
  set (a1 := {| isa := isa a; _vekt := (_vekt a - Species_birthloss sp)%R;
                _alder := _alder a; _loci := _loci a; _fitness := ANIMAL_INV |}).
  set (w1 := set_store (insert p a1) w).
  rewrite Hloc.
  destruct (Animal_new_Ok w1 (isa a) sp c x t)
    as (w2 & Hnew & Hq1 & Hs2 & Hc2 & Hsp2 & Han2 & Hr2 & Hd2 & _); try done.
  set (q := fresh (dom (store w1))) in *.
  rewrite (bind_Ok _ _ _ _ _ Hnew).
  assert (q ≠ p) as Hqp.
  { intros ->. simpl in Hq1. by rewrite lookup_insert_eq in Hq1. }
  exists q, w2. eexists. split; [done|].
  simpl in Hq1. rewrite lookup_insert_ne in Hq1 by done.
  rewrite Hs2, Hc2. simpl.
  rewrite lookup_insert_eq, (lookup_insert_ne _ q p) by done.
  rewrite !lookup_insert_eq.
  split_and!; try done.
  - unfold a1, Species_birthloss. by rewrite Hloc.
  - intros r Hrp Hrq. by rewrite !lookup_insert_ne.
Qed.

Lemma Animal_breed_spec_witness :
  ∃ q w' x', Animal_breed 1 pairing = Ok (Some q) w'
    ∧ store pairing !! q = None
    ∧ (_vekt <$> store w' !! 1%positive) = Some (5 - 1 * 1)%R
    ∧ (_alder <$> store w' !! q) = Some 0%Z
    ∧ cells (geography w') !! coordPack 0 0 = Some x'
    ∧ q ∈ habitants x'.
Proof.
  destruct (Animal_breed_spec pairing 1 (adult (coordPack 0 0)) (unit_species "B" false)
              (coordPack 0 0)
              (with_habitants {[ 1%positive; 2%positive ]} (cell_at jungle 0 0)) jungle)
    as (Hfert & _ & Hborn); try reflexivity.
  destruct Hborn as (q & w' & x' & Hb & Hq & _ & Hp' & Hq' & _ & Hx' & Hhab & _).
  { apply Hfert. simpl. split; [done|lra]. }
  exists q, w', x'. rewrite Hp', Hq', Hhab. split_and!; try done. set_solver.
Defined.

(** X8.  An animal without a partner does not breed: when a cell holds at
    most one animal of a species (of age at least 0), [Cell::breed] produces
    no offspring of that species there, whatever the weight and fitness of
    the animal, since its birth chance is [fitness * gamma * (1 - 1) = 0]
    and no draw is below 0.  Only the fitness cache of the animal and the
    position in the random sequence change. *)
Theorem lone_animal_does_not_breed (w : World) (c : Z) (x : Cell) (g : nat)
    (sp : Species) :
  membership_inv w → cells (geography w) !! c = Some x → species w !! g = Some sp →
  (∀ q q' b b', store w !! q = Some b → _loci b = Some c → isa b = g → (0 ≤ _alder b)%Z →
                store w !! q' = Some b' → _loci b' = Some c → isa b' = g →
                (0 ≤ _alder b')%Z → q = q') →
  (0 <= randomGen w (drawn w))%R →
  ∃ w', Cell_breed_genus c g w = Ok [] w'
    ∧ dom (store w') = dom (store w) ∧ geography w' = geography w
    ∧ animals w' = animals w
    ∧ ∀ q b', store w' !! q = Some b' →
        ∃ b, store w !! q = Some b ∧ _vekt b' = _vekt b ∧ _alder b' = _alder b
             ∧ _loci b' = _loci b ∧ isa b' = isa b.
Proof.
  intros Hm Hc Hsp Hone Hu. unfold Cell_breed_genus.
  rewrite (bind_Ok _ _ _ _ _ (Cell_cellMates_Ok w c x g false Hm Hc)).
  set (l := filter _ _).
  assert (NoDup l) as Hnd by apply NoDup_filter, NoDup_elements.
  assert (∀ p, p ∈ l → ∃ a, store w !! p = Some a ∧ _loci a = Some c ∧ isa a = g
                            ∧ (0 ≤ _alder a)%Z) as Hl.
  { intros p Hp. by apply (elem_of_mates w c x g 0 p Hm Hc). }
  destruct l as [|p1 [|p2 l']].
  - exists w. split_and!; try done. eauto 10.
  - destruct (Hl p1) as (a & Hp1 & Hloc & Hg & Hage); [set_solver|].
    rewrite breed_beasts_cons. unfold Species_birthChance.
    rewrite (bind_assoc (deref_species g)).
    rewrite (bind_Ok _ _ _ _ _ (deref_species_Ok _ _ _ Hsp)).
    rewrite bind_assoc.
    rewrite <- Hg in Hsp.
    rewrite (bind_Ok _ _ _ _ _ (Animal_fitness_Ok w p1 a sp Hp1 Hsp)).
    set (w1 := set_store _ w).
    rewrite (bind_Ok _ _ _ _ _ (ret_Ok _ w1)).
    unfold drand at 1.
    erewrite (bind_Ok _ _ w1) by reflexivity.
    change (IZR (Z.of_nat (length [p1]) - 1)) with 0%R.
    assert (Rltb (randomGen w1 (drawn w1)) (fitness_value sp a * _gamma sp * 0) = false) as ->.
    { apply Rltb_false. simpl. lra. }
    eexists. split; [done|]. simpl. split_and!; try done.
    + rewrite dom_insert_L. apply elem_of_dom_2 in Hp1. set_solver.
    + intros q b'. destruct (decide (p1 = q)) as [<-|Hq].
      * rewrite lookup_insert_eq. intros [= <-]. by exists a.
      * rewrite lookup_insert_ne by done. eauto 10.
  - exfalso.
    destruct (Hl p1) as (a1 & Hq1 & ? & ? & ?); [set_solver|].
    destruct (Hl p2) as (a2 & Hq2 & ? & ? & ?); [set_solver|].
    assert (p1 = p2) as -> by (by apply (Hone p1 p2 a1 a2)).
    apply NoDup_cons in Hnd as [Hnin _]. set_solver.
Qed.

Lemma lone_animal_does_not_breed_witness :
  ∃ w', Cell_breed_genus (coordPack 0 0) 0 shore = Ok [] w'
    ∧ dom (store w') = dom (store shore).
Proof.
  destruct (lone_animal_does_not_breed shore (coordPack 0 0) pasture 0
              (unit_species "B" false)) as (w' & Hb & Hdom & _).
  - apply shore_membership.
  - reflexivity.
  - reflexivity.
  - intros q q' b b' Hq _ _ _ Hq' _ _ _.
    unfold shore in Hq, Hq'. simpl in Hq, Hq'.
    apply lookup_singleton_Some in Hq as [<- _].
    by apply lookup_singleton_Some in Hq' as [<- _].
  - simpl. lra.
  - by exists w'.
Defined.

(** ** Loading a record that can be placed ([Simulation::insertAnimal]) *)

(** The record placed: what [Simulation::insertAnimal] does for a species
    of the simulation and a cell of the grid that takes animals. *)
Lemma Simulation_insertAnimal_Ok (w : World) (k : nat) (sp : Species) (age : Z)
    (weight : R) (x y : Z) (cell : Cell) (t : ArchCell) :
  species w !! k = Some sp →
  (x < _cols (geography w))%Z → (y < _rows (geography w))%Z →
  cells (geography w) !! coordPack x y = Some cell →
  archetype cell = Some t → _live t = true →
  let q := fresh (dom (store w)) in
  ∃ w', Simulation_insertAnimal (Some k) age weight x y w = Ok (Some q) w'
    ∧ store w !! q = None
    ∧ store w' = <[q := {| isa := k; _vekt := weight; _alder := age;
                          _loci := Some (coordPack x y);
                          _fitness := ANIMAL_INV |}]> (store w)
    ∧ animals w' = {[q]} ∪ animals w
    ∧ cells (geography w') =
        <[coordPack x y := with_habitants ({[q]} ∪ habitants cell) cell]>
          (cells (geography w))
    ∧ species w' = species w ∧ drawn w' = drawn w
    ∧ _rows (geography w') = _rows (geography w)
    ∧ _cols (geography w') = _cols (geography w)
    ∧ randomGen w' = randomGen w
    ∧ (breeding_inv w → breeding_inv w').
Proof.
  intros Hsp Hx Hy Hc Ht Hlive q.
  unfold Simulation_insertAnimal, Simulation_vivify.
  rewrite !bind_assoc.
  rewrite (bind_Ok _ _ _ _ _ (Map_at_xy_inside w x y Hx Hy (mk_is_Some _ _ Hc))).
  rewrite bind_assoc.
  assert (Cell_addAnimal_query (coordPack x y) w = Ok true w) as Hquery.
  { unfold Cell_addAnimal_query.
    rewrite (bind_Ok _ _ _ _ _ (deref_cell_Ok _ _ _ Hc)).
    unfold deref_archetype. rewrite Ht.
    rewrite (bind_Ok _ _ w t w) by done. by rewrite Hlive. }
  rewrite (bind_Ok _ _ _ _ _ Hquery). cbv beta iota. simpl negb. cbv iota.
  rewrite !bind_assoc.
  destruct (Animal_new_Ok w k sp (coordPack x y) cell t Hsp Hc Ht Hlive)
    as (w1 & Hnew & Hq & Hs1 & Hc1 & Hsp1 & Han1 & Hr1 & Hd1 & Hrows1 & Hcols1).
  fold q in Hnew, Hq, Hs1, Hc1.
  rewrite (bind_Ok _ _ _ _ _ Hnew).
  rewrite bind_assoc.
  set (w2 := set_animals (union {[q]}) w1).
  rewrite (bind_Ok _ _ w1 tt w2) by done.
  rewrite (bind_Ok _ _ _ _ _ (ret_Ok _ w2)).
  unfold Animal_adjust.
  assert (store w2 !! q = Some {| isa := k; _vekt := _v_fod sp; _alder := 0;
                                  _loci := Some (coordPack x y);
                                  _fitness := Species_fitness sp (_v_fod sp) 0 |}) as Hq2.
  { simpl. rewrite Hs1. apply lookup_insert_eq. }
  rewrite bind_assoc.
  rewrite (bind_Ok _ _ _ _ _ (deref_animal_Ok _ _ _ Hq2)).
  rewrite (bind_Ok _ _ _ _ _ (assign_animal_Ok _ _ _ _ Hq2)).
  eexists. split; [done|]. simpl. split_and!; try done.
  - rewrite Hs1. by rewrite insert_insert_eq.
  - by rewrite Han1.
  - intros Hinv.
    destruct (Animal_new_inv w k sp (coordPack x y) cell t Hinv Hsp Hc Ht Hlive)
      as (q' & w1' & Hnew' & Hinv1 & _).
    rewrite Hnew in Hnew'. inversion Hnew'; subst q' w1'.
    assert (breeding_inv w2) as Hinv2 by (by apply (breeding_inv_ext w1 w2)).
    by apply (breeding_inv_update w2 q _ _ Hinv2 Hq2).
Qed.

(** X9.  A population record of a known species for a cell of the grid that
    takes animals is placed: [Simulation::insertAnimal] creates one object
    at a free address, with the species, the age and the weight of the
    record and an empty fitness cache, located in the cell; it adds the
    object to the habitants of the cell and to the population, changes
    nothing else, draws no random number, and keeps the agreement of cells
    and animals. *)
Theorem insertAnimal_places (w : World) (typeName : string) (age : Z) (weight : R)
    (x y : Z) (g : nat) (cell : Cell) (t : ArchCell) :
  genus_from 0 (species w) typeName = Some g →
  (x < _cols (geography w))%Z → (y < _rows (geography w))%Z →
  cells (geography w) !! coordPack x y = Some cell →
  archetype cell = Some t → _live t = true →
  let q := fresh (dom (store w)) in
  ∃ w', Simulation_insertAnimal_name typeName age weight x y w = Ok (Some q) w'
    ∧ store w !! q = None
    ∧ store w' = <[q := {| isa := g; _vekt := weight; _alder := age;
                          _loci := Some (coordPack x y);
                          _fitness := ANIMAL_INV |}]> (store w)
    ∧ animals w' = {[q]} ∪ animals w
    ∧ cells (geography w') =
        <[coordPack x y := with_habitants ({[q]} ∪ habitants cell) cell]>
          (cells (geography w))
    ∧ species w' = species w ∧ drawn w' = drawn w
    ∧ (breeding_inv w → breeding_inv w').
Proof.
  intros Hg Hx Hy Hc Ht Hlive q.
  destruct (genus_from_Some _ _ _ _ Hg) as (k & sp & -> & Hsp & Hname & _).
  simpl in *.
  unfold Simulation_insertAnimal_name, Simulation_genus.
  rewrite (bind_Ok _ _ w (Some k) w) by (by rewrite Hg).
  destruct (Simulation_insertAnimal_Ok w k sp age weight x y cell t Hsp Hx Hy Hc Ht Hlive)
    as (w' & Hrun & Hq & Hst & Han & Hcells & Hspecies & Hdrawn & _ & _ & _ & Hinv).
  exists w'. by split_and!.
Qed.

Lemma insertAnimal_places_witness :
  ∃ w', Simulation_insertAnimal_name "B" 3 4 0 0 shore = Ok (Some 2%positive) w'
    ∧ animals w' = {[2%positive]} ∪ animals shore
    ∧ (_vekt <$> store w' !! 2%positive) = Some 4%R.
Proof.
  destruct (insertAnimal_places shore "B" 3 4 0 0 0 pasture jungle)
    as (w' & Hins & _ & Hs & Han & _); try reflexivity.
  exists w'. split_and!.
  - exact Hins.
  - exact Han.
  - rewrite Hs. by rewrite lookup_insert_eq.
Defined.

(** ** The parameter reader ([ReadParameters::read], [PlainToken]) *)

(** What one accepted line does to its token. *)
Lemma Token_read_inr pname t w t' :
  Token_read pname t w = inr t' ↔
  read_ t = false ∧ ∃ v, extract (default_ t) w = Some v
    ∧ t' = {| has_default_ := has_default_ t; default_ := default_ t;
              read_ := true; value_ := v |}.
Proof.
  unfold Token_read. destruct (read_ t); [naive_solver|].
  destruct (extract (default_ t) w) as [v|]; naive_solver.
Qed.

(** The loop over the lines succeeds exactly on files without a repeated
    name whose every line names a token not read so far and holds a value
    of its type. *)
Lemma read_lines_inr file : ∀ toks,
  (∃ toks', read_lines toks file = inr toks') ↔
  NoDup file.*1
  ∧ ∀ n w, (n, w) ∈ file →
      ∃ t v, toks !! n = Some t ∧ read_ t = false ∧ extract (default_ t) w = Some v.
Proof.
  induction file as [|[n w] file IH]; intros toks; simpl.
  - split; [|by eauto]. intros _. split; [constructor|]. intros n w H. by inversion H.
  - destruct (toks !! n) as [t|] eqn:Ht; cycle 1.
    { split; [by intros [? ?]|]. intros [_ H].
      destruct (H n w) as (t & v & Ht' & _); [left|]. congruence. }
    destruct (Token_read n t w) as [e|t'] eqn:Hread.
    { split; [by intros [? ?]|]. intros [_ H].
      destruct (H n w) as (t0 & v & Ht' & Hr & Hv); [left|].
      assert (t0 = t) as -> by congruence.
      unfold Token_read in Hread. by rewrite Hr, Hv in Hread. }
    apply Token_read_inr in Hread as (Hr & v & Hv & ->).
    rewrite IH. split.
    + intros [Hnd H]. assert (n ∉ file.*1) as Hn.
      { intros Hin. apply list_elem_of_fmap in Hin as ([n' w'] & -> & Hin).
        destruct (H _ _ Hin) as (t0 & v0 & Ht0 & Hr0 & _). simpl in Ht0.
        rewrite lookup_insert_eq in Ht0. by inversion Ht0; subst. }
      split; [by constructor|]. intros n' w' Hin.
      apply elem_of_cons in Hin as [[= -> ->] | Hin]; [by eauto 10|].
      destruct (H _ _ Hin) as (t0 & v0 & Ht0 & Hr0 & Hv0).
      rewrite lookup_insert_ne in Ht0; [by eauto 10|].
      intros ->. apply Hn. apply list_elem_of_fmap. by exists (n', w').
    + intros [Hnd H]. apply NoDup_cons in Hnd as [Hn Hnd]. split; [done|].
      intros n' w' Hin. rewrite lookup_insert_ne; [apply H; by right|].
      intros ->. apply Hn. apply list_elem_of_fmap. by exists (n', w').
Qed.

(** The tokens after the loop: the token of a line of the file holds the
    value of that line. *)
Lemma read_lines_value file : ∀ toks toks' n w,
  read_lines toks file = inr toks' → (n, w) ∈ file →
  ∃ t v, toks !! n = Some t ∧ extract (default_ t) w = Some v
         ∧ toks' !! n = Some {| has_default_ := has_default_ t; default_ := default_ t;
                                read_ := true; value_ := v |}.
Proof.
  induction file as [|[n0 w0] file IH]; intros toks toks' n w H Hin; [by inversion Hin|].
  assert (NoDup ((n0, w0) :: file).*1) as Hnd.
  { apply (read_lines_inr _ toks). eauto. }
  apply NoDup_cons in Hnd as [Hn0 _]. simpl in Hn0.
  simpl in H. destruct (toks !! n0) as [t|] eqn:Ht; [|done].
  destruct (Token_read n0 t w0) as [e|t'] eqn:Hread; [done|].
  apply Token_read_inr in Hread as (Hr & v & Hv & ->).
  apply elem_of_cons in Hin as [[= -> ->] | Hin].
  - exists t, v. split_and!; [done..|].
    rewrite (read_lines_other _ _ _ _ H Hn0). apply lookup_insert_eq.
  - destruct (IH _ _ _ _ H Hin) as (t1 & v1 & Ht1 & Hv1 & Ht').
    rewrite lookup_insert_ne in Ht1; [by eauto 10|].
    intros ->. apply Hn0. apply list_elem_of_fmap. by exists (n, w).
Qed.



(** X11.  The values that an accepted file gives to a reader of plain
    parameters: the targets are exactly the registered parameters; a
    parameter that has a line in the file gets the value extracted from
    that line, every other parameter its default value. *)
Theorem ReadParameters_read_values (parameters_ : gmap string Token)
    (file : list (string * word)) (vals : gmap string pvalue) :
  ReadParameters_read parameters_ file = inr vals →
  dom vals = dom parameters_
  ∧ (∀ n w, (n, w) ∈ file →
       ∃ t v, parameters_ !! n = Some t ∧ extract (default_ t) w = Some v
              ∧ vals !! n = Some v)
  ∧ (∀ n t, parameters_ !! n = Some t → n ∉ file.*1 → vals !! n = Some (default_ t)).
Proof.
  intros H. split_and!.
  - unfold ReadParameters_read in H.
    destruct (read_lines _ file) as [e|toks] eqn:Hr; [done|].
    destruct (forallb _ _); [|done]. inversion H; subst vals.
    rewrite dom_fmap_L. clear H.
    assert (∀ toks0, read_lines toks0 file = inr toks → dom toks = dom toks0) as Hdom.
    { clear. induction file as [|[n w] file IH]; intros toks0 H; simpl in H.
      - by inversion H.
      - destruct (toks0 !! n) as [t|] eqn:Ht; [|done].
        destruct (Token_read n t w) as [e|t']; [done|].
        rewrite (IH _ H), dom_insert_L. apply elem_of_dom_2 in Ht. set_solver. }
    by rewrite (Hdom _ Hr), dom_fmap_L.
  - intros n w Hin. unfold ReadParameters_read in H.
    destruct (read_lines _ file) as [e|toks] eqn:Hr; [done|].
    destruct (forallb _ _); [|done]. inversion H; subst vals.
    destruct (read_lines_value _ _ _ _ _ Hr Hin) as (t & v & Ht & Hv & Ht').
    rewrite lookup_fmap in Ht. destruct (parameters_ !! n) as [t0|]; [|done].
    inversion Ht; subst. exists t0, v. split_and!; [done..|].
    by rewrite lookup_fmap, Ht'.
  - intros n t Ht Hn. by apply (ReadParameters_read_default parameters_ file).
Qed.



Lemma file_rows_read :
  ∃ vals, ReadParameters_read two_parameters file_rows = inr vals.
Proof. eexists. vm_compute. reflexivity. Qed.

Lemma ReadParameters_read_values_witness :
  ∃ vals, ReadParameters_read two_parameters file_rows = inr vals
    ∧ vals !! "rows"%string = Some (PInt 3)
    ∧ vals !! "seed"%string = Some (PInt 7).
Proof.
  destruct file_rows_read as [vals Hr]. exists vals. split; [exact Hr|].
  destruct (ReadParameters_read_values _ _ _ Hr) as (_ & Hfile & Hdefault).
  clear Hr. split.
  - destruct (Hfile "rows"%string (num 3 3)) as (t & v & Ht & Hv & ->); [by left|].
    unfold two_parameters in Ht. rewrite lookup_insert_eq in Ht.
    inversion Ht; subst t. simpl in Hv. exact (eq_sym Hv).
  - apply (Hdefault "seed"%string (PlainToken_deflt (PInt 7))).
    + unfold two_parameters. rewrite lookup_insert_ne by done. apply lookup_insert_eq.
    + unfold file_rows. simpl. set_solver.
Defined.


(** ** Building the grid ([Map::init]) *)

Lemma length_upto n : length (upto n) = Z.to_nat n.
Proof. unfold upto. by rewrite length_fmap, length_seq. Qed.

Lemma elem_of_upto n x : x ∈ upto n ↔ (0 ≤ x < n)%Z.
Proof.
  unfold upto. rewrite list_elem_of_fmap. split.
  - intros (k & -> & Hk). apply elem_of_seq in Hk. lia.
  - intros Hx. exists (Z.to_nat x). split; [lia|]. apply elem_of_seq. lia.
Qed.

Lemma NoDup_upto n : NoDup (upto n).
Proof. unfold upto. apply NoDup_fmap_2; [apply _|]. apply NoDup_seq. Qed.

Lemma upto_lookup n i : (i < Z.to_nat n)%nat → upto n !! i = Some (Z.of_nat i).
Proof.
  intros Hi. unfold upto. rewrite list_lookup_fmap.
  by rewrite (lookup_seq_lt 0 (Z.to_nat n) i Hi).
Qed.

Lemma same_but_cells_refl w : same_but_cells w w.
Proof. by unfold same_but_cells. Qed.

Lemma same_but_cells_trans w0 w1 w2 :
  same_but_cells w0 w1 → same_but_cells w1 w2 → same_but_cells w0 w2.
Proof.
  unfold same_but_cells. intros (?&?&?&?&?&?&?) (?&?&?&?&?&?&?). split_and!; congruence.
Qed.

Lemma Map_init_cell_Ok archetypes x y value w :
  _name (kind_of archetypes value) = value →
  Map_init_cell archetypes x y value w =
    Ok (_live (kind_of archetypes value))
       (set_cells (insert (coordPack x y) (Cell_placed (kind_of archetypes value) x y)) w).
Proof.
  intros Hn. unfold Map_init_cell. rewrite Hn, Ascii.eqb_refl. done.
Qed.

Lemma Map_init_row_cons archetypes y x xs value terrain :
  Map_init_row archetypes y (x :: xs) (value :: terrain) =
    (let* live := Map_init_cell archetypes x y value in
     let* (rest, adr, full) := Map_init_row archetypes y xs terrain in
     ret (rest, (if live : bool then [coordPack x y] else []) ++ adr,
          coordPack x y :: full)).
Proof. done. Qed.

(** The inner loop of [Map::init] on a row whose characters are all
    registered. *)
Lemma Map_init_row_spec archetypes y xs : ∀ terrain w,
  NoDup ((λ x, coordPack x y) <$> xs) → (length xs ≤ length terrain)%nat →
  (∀ i v, (i < length xs)%nat → terrain !! i = Some v →
          _name (kind_of archetypes v) = v) →
  ∃ adr w',
    Map_init_row archetypes y xs terrain w
      = Ok (drop (length xs) terrain, adr, (λ x, coordPack x y) <$> xs) w'
    ∧ same_but_cells w w'
    ∧ (∀ c, c ∉ (λ x, coordPack x y) <$> xs →
            cells (geography w') !! c = cells (geography w) !! c)
    ∧ (∀ i x v, xs !! i = Some x → terrain !! i = Some v →
         cells (geography w') !! coordPack x y
           = Some (Cell_placed (kind_of archetypes v) x y))
    ∧ (∀ c, c ∈ adr ↔ ∃ i x v, xs !! i = Some x ∧ terrain !! i = Some v
                               ∧ c = coordPack x y ∧ _live (kind_of archetypes v) = true).
Proof.
  induction xs as [|x xs IH]; intros terrain w Hnd Hlen Hreg.
  - exists [], w. simpl.
    split_and!; [done|apply same_but_cells_refl|done|by intros [|?] ? ? ?|].
    intros c. split; [by intros H; inversion H|]. by intros (i & x & v & Hx & _).
  - destruct terrain as [|value terrain]; [simpl in Hlen; lia|].
    rewrite fmap_cons in Hnd. apply NoDup_cons in Hnd as [Hx Hnd].
    rewrite Map_init_row_cons.
    rewrite (bind_Ok _ _ _ _ _ (Map_init_cell_Ok archetypes x y value w
                                  (Hreg 0%nat value ltac:(simpl; lia) eq_refl))).
    set (w1 := set_cells _ w).
    destruct (IH terrain w1 Hnd) as (adr & w' & Hrow & Hsame & Hframe & Hcells & Hadr).
    { simpl in Hlen. lia. }
    { intros i v Hi Hv. apply (Hreg (S i) v); [simpl; lia|done]. }
    rewrite (bind_Ok _ _ _ _ _ Hrow). cbv beta iota.
    eexists _, w'. split; [done|]. split_and!.
    + destruct Hsame as (?&?&?&?&?&?&?). by split_and!.
    + intros c Hc. rewrite fmap_cons in Hc. apply not_elem_of_cons in Hc as [Hcx Hc].
      rewrite (Hframe c Hc). simpl. by rewrite lookup_insert_ne.
    + intros [|i] x' v Hx' Hv; simpl in Hx', Hv.
      * inversion Hx'; inversion Hv; subst. rewrite (Hframe _ Hx). simpl.
        by rewrite lookup_insert_eq.
      * by apply (Hcells i).
    + intros c. rewrite elem_of_app, Hadr. split.
      * intros [Hc | (i & x' & v & Hx' & Hv & -> & Hl)].
        -- destruct (_live (kind_of archetypes value)) eqn:Hl; [|by inversion Hc].
           apply list_elem_of_singleton in Hc as ->. by exists 0%nat, x, value.
        -- by exists (S i), x', v.
      * intros ([|i] & x' & v & Hx' & Hv & -> & Hl); simpl in Hx', Hv.
        -- inversion Hx'; inversion Hv; subst. left. rewrite Hl. by left.
        -- right. by exists i, x', v.
Qed.

Lemma Map_init_rows_cons archetypes y ys xs terrain :
  Map_init_rows archetypes (y :: ys) xs terrain =
    (let* (rest, adr, full) := Map_init_row archetypes y xs terrain in
     let* (adr', full') := Map_init_rows archetypes ys xs rest in
     ret (adr ++ adr', full ++ full')).
Proof. done. Qed.

(** The two nested loops of [Map::init] on a rectangle of 16-bit
    coordinates whose characters are all registered. *)
Lemma Map_init_rows_spec archetypes xs :
  NoDup xs → (∀ x, x ∈ xs → (0 ≤ x < 2 ^ 16)%Z) →
  ∀ ys terrain w,
  NoDup ys → (∀ y, y ∈ ys → (0 ≤ y < 2 ^ 16)%Z) →
  (length ys * length xs ≤ length terrain)%nat →
  (∀ i v, (i < length ys * length xs)%nat → terrain !! i = Some v →
          _name (kind_of archetypes v) = v) →
  ∃ adr w',
    Map_init_rows archetypes ys xs terrain w = Ok (adr, row_major ys xs) w'
    ∧ same_but_cells w w'
    ∧ (∀ c, (∀ x y, x ∈ xs → y ∈ ys → c ≠ coordPack x y) →
            cells (geography w') !! c = cells (geography w) !! c)
    ∧ (∀ j y i x v, ys !! j = Some y → xs !! i = Some x →
         terrain !! (j * length xs + i)%nat = Some v →
         cells (geography w') !! coordPack x y
           = Some (Cell_placed (kind_of archetypes v) x y))
    ∧ (∀ c, c ∈ adr ↔ ∃ j y i x v, ys !! j = Some y ∧ xs !! i = Some x
                               ∧ terrain !! (j * length xs + i)%nat = Some v
                               ∧ c = coordPack x y
                               ∧ _live (kind_of archetypes v) = true).
Proof.
  intros Hndx Hxs. induction ys as [|y ys IH]; intros terrain w Hndy Hys Hlen Hreg.
  - exists [], w.
    split_and!; [done|apply same_but_cells_refl|done|by intros [|?] ? ? ? ? ?|].
    intros c. split; [by intros H; inversion H|]. by intros (j & y & i & x & v & Hy & _).
  - apply NoDup_cons in Hndy as [Hy Hndy].
    assert (0 ≤ y < 2 ^ 16)%Z as Hyr by (apply Hys; by left).
    simpl in Hlen.
    destruct (Map_init_row_spec archetypes y xs terrain w)
      as (adr1 & w1 & Hrow & Hsame1 & Hframe1 & Hcells1 & Hadr1).
    { apply NoDup_fmap_2_strong; [|done]. intros x x' Hx Hx' Heq.
      by destruct (coordPack_inj x y x' y (Hxs x Hx) Hyr (Hxs x' Hx') Hyr Heq). }
    { lia. }
    { intros i v Hi Hv. apply (Hreg i v); [simpl; lia|done]. }
    destruct (IH (drop (length xs) terrain) w1 Hndy)
      as (adr2 & w' & Hrows & Hsame2 & Hframe2 & Hcells2 & Hadr2).
    { intros y' Hy'. apply Hys. by right. }
    { rewrite length_drop. lia. }
    { intros i v Hi Hv. rewrite lookup_drop in Hv.
      apply (Hreg (length xs + i)%nat v); [simpl; lia|done]. }
    rewrite Map_init_rows_cons, (bind_Ok _ _ _ _ _ Hrow). cbv beta iota.
    rewrite (bind_Ok _ _ _ _ _ Hrows). cbv beta iota.
    eexists _, w'. split; [done|]. split_and!.
    + by eapply same_but_cells_trans.
    + intros c Hc. rewrite Hframe2, Hframe1; [done| |].
      * intros Hin. apply list_elem_of_fmap in Hin as (x & -> & Hx).
        apply (Hc x y Hx); [by left|done].
      * intros x y' Hx Hy'. apply Hc; [done|by right].
    + intros [|j] y' i x v Hy' Hx Hv; simpl in Hy'.
      * inversion Hy'; subst y'. simpl in Hv. rewrite Hframe2; [by apply (Hcells1 i)|].
        intros x' y' Hx' Hy'' Heq.
        destruct (coordPack_inj x y x' y') as [_ ->]; try done.
        -- apply Hxs. by eapply list_elem_of_lookup_2.
        -- by apply Hxs.
        -- apply Hys. by right.
      * apply (Hcells2 j y' i x v Hy' Hx). rewrite lookup_drop. rewrite <- Hv. f_equal. lia.
    + intros c. rewrite elem_of_app, Hadr1, Hadr2. split.
      * intros [(i & x & v & Hx & Hv & -> & Hl) | (j & y' & i & x & v & Hy' & Hx & Hv & -> & Hl)].
        -- by exists 0%nat, y, i, x, v.
        -- exists (S j), y', i, x, v. split_and!; try done.
           rewrite lookup_drop in Hv. rewrite <- Hv. f_equal. lia.
      * intros ([|j] & y' & i & x & v & Hy' & Hx & Hv & -> & Hl); simpl in Hy'.
        -- inversion Hy'; subst y'. left. by exists i, x, v.
        -- right. exists j, y', i, x, v. split_and!; try done.
           rewrite lookup_drop. rewrite <- Hv. f_equal. lia.
Qed.

Lemma elem_of_row_major ys xs c :
  c ∈ row_major ys xs ↔ ∃ x y, x ∈ xs ∧ y ∈ ys ∧ c = coordPack x y.
Proof.
  unfold row_major. rewrite list_elem_of_join. split.
  - intros (l & Hc & Hl). apply list_elem_of_fmap in Hl as (y & -> & Hy).
    apply list_elem_of_fmap in Hc as (x & -> & Hx). by exists x, y.
  - intros (x & y & Hx & Hy & ->). exists ((λ x, coordPack x y) <$> xs). split.
    + apply list_elem_of_fmap. by exists x.
    + apply list_elem_of_fmap. by exists y.
Qed.

Lemma Map_at_Ok w coord :
  is_Some (cells (geography w) !! coord) → Map_at coord w = Ok coord w.
Proof. intros [x Hx]. unfold Map_at. by rewrite Hx. Qed.

Lemma Map_candidatesAt_coord_built w x y :
  grid_built w →
  (0 ≤ x < _cols (geography w))%Z → (0 ≤ y < _rows (geography w))%Z →
  Map_candidatesAt_coord (coordPack x y) w =
    Ok (edge_neighbours (_rows (geography w)) (_cols (geography w)) x y) w.
Proof.
  intros Hb Hx Hy. pose proof Hb as (Hc & Hr & _).
  unfold Map_candidatesAt_coord. rewrite coordUnpack_coordPack by lia.
  by apply Map_candidatesAt_built.
Qed.

(** The last loop of [Map::init]: every cell of the list is told its
    neighbours; nothing else changes. *)
Lemma set_neighbours_pass l : ∀ w,
  grid_built w →
  (∀ c, c ∈ l → ∃ x y, c = coordPack x y ∧ (0 ≤ x < _cols (geography w))%Z
                       ∧ (0 ≤ y < _rows (geography w))%Z) →
  ∃ r w',
    for_each (λ coord, let* nb := Map_candidatesAt_coord coord in
                       let* c := Map_at coord in
                       Cell_set_neighbours c nb) l w = Ok r w'
    ∧ same_but_cells w w' ∧ grid_built w'
    ∧ ∀ c, cells (geography w') !! c =
        (λ cell, if decide (c ∈ l)
                 then with_neighbours (edge_neighbours_coord (_rows (geography w))
                                         (_cols (geography w)) c) cell
                 else cell) <$> cells (geography w) !! c.
Proof.
  induction l as [|c l IH]; intros w Hb Hl.
  - exists [], w. split_and!; [done|apply same_but_cells_refl|done|].
    intros c. destruct (cells (geography w) !! c) as [cell|]; simpl; [|done].
    destruct (decide (c ∈ [])) as [Hin|_]; [by inversion Hin|done].
  - destruct (Hl c) as (x & y & -> & Hx & Hy); [by left|].
    pose proof Hb as (Hcols & Hrows & Hcell).
    destruct (Hcell x y Hx Hy) as [cell Hcellxy].
    rewrite for_each_cons.
    rewrite bind_assoc, (bind_Ok _ _ _ _ _ (Map_candidatesAt_coord_built w x y Hb Hx Hy)).
    rewrite bind_assoc, (bind_Ok _ _ _ _ _ (Map_at_Ok w _ (mk_is_Some _ _ Hcellxy))).
    unfold Cell_set_neighbours at 1.
    rewrite bind_assoc, (bind_Ok _ _ _ _ _ (deref_cell_Ok _ _ _ Hcellxy)).
    rewrite (bind_Ok _ _ _ _ _ (assign_cell_Ok _ _ _ _ Hcellxy)).
    set (nb := edge_neighbours _ _ x y).
    set (w1 := set_cells _ w).
    assert (grid_built w1) as Hb1.
    { split_and!; [done..|]. intros x' y' Hx' Hy'. simpl.
      destruct (decide (coordPack x y = coordPack x' y')) as [->|Hne].
      - rewrite lookup_insert_eq. eauto.
      - rewrite lookup_insert_ne by done. by apply Hcell. }
    destruct (IH w1 Hb1) as (r & w' & Hr & Hsame & Hb' & Hcells).
    { intros c Hc. apply Hl. by right. }
    rewrite (bind_Ok _ _ _ _ _ Hr).
    eexists _, w'. split; [done|]. split_and!; [|done|].
    + destruct Hsame as (?&?&?&?&?&?&?). by split_and!.
    + intros c. rewrite Hcells. simpl.
      assert (edge_neighbours_coord (_rows (geography w)) (_cols (geography w))
                (coordPack x y) = nb) as Hnb.
      { unfold edge_neighbours_coord. by rewrite coordUnpack_coordPack by lia. }
      destruct (decide (coordPack x y = c)) as [<-|Hne].
      * rewrite lookup_insert_eq, Hcellxy. simpl. rewrite Hnb.
        destruct (decide (coordPack x y ∈ l)), (decide (coordPack x y ∈ coordPack x y :: l));
          try done; exfalso; set_solver.
      * rewrite lookup_insert_ne by done.
        destruct (cells (geography w) !! c); simpl; [|done].
        destruct (decide (c ∈ l)), (decide (c ∈ coordPack x y :: l));
          try done; exfalso; set_solver.
Qed.

(** What [Map::init] leaves behind, cell by cell. *)
Lemma Map_init_grid_cells (archetypes : gmap ascii ArchCell) (terrain : list ascii)
    (w : World) :
  let rows := _rows (geography w) in
  let cols := _cols (geography w) in
  (0 ≤ rows ≤ 2 ^ 16)%Z → (0 ≤ cols ≤ 2 ^ 16)%Z →
  (Z.to_nat rows * Z.to_nat cols ≤ length terrain)%nat →
  (∀ i v, (i < Z.to_nat rows * Z.to_nat cols)%nat → terrain !! i = Some v →
          _name (kind_of archetypes v) = v) →
  ∃ adr w',
    Map_init_grid archetypes terrain w = Ok (adr, row_major (upto rows) (upto cols)) w'
    ∧ same_but_cells w w' ∧ grid_built w'
    ∧ (∀ x y, (0 ≤ x < cols)%Z → (0 ≤ y < rows)%Z →
         ∃ v, terrain !! Z.to_nat (y * cols + x) = Some v
           ∧ cells (geography w') !! coordPack x y
             = Some (with_neighbours (edge_neighbours rows cols x y)
                       (Cell_placed (kind_of archetypes v) x y)))
    ∧ (∀ c, c ∈ adr ↔ ∃ x y v, (0 ≤ x < cols)%Z ∧ (0 ≤ y < rows)%Z
                           ∧ terrain !! Z.to_nat (y * cols + x) = Some v
                           ∧ c = coordPack x y ∧ _live (kind_of archetypes v) = true)
    ∧ (∀ c, (∀ x y, (0 ≤ x < cols)%Z → (0 ≤ y < rows)%Z → c ≠ coordPack x y) →
            cells (geography w') !! c = cells (geography w) !! c).
Proof.
  intros rows cols Hrows Hcols Hlen Hreg. subst rows cols.
  set (rows := _rows (geography w)) in *. set (cols := _cols (geography w)) in *.
  destruct (Map_init_rows_spec archetypes (upto cols) (NoDup_upto cols)) with
    (ys := upto rows) (terrain := terrain) (w := w)
    as (adr & w1 & Hrun1 & Hsame1 & Hframe1 & Hcells1 & Hadr1).
  { intros x Hx. apply elem_of_upto in Hx. lia. }
  { apply NoDup_upto. }
  { intros y Hy. apply elem_of_upto in Hy. lia. }
  { by rewrite !length_upto. }
  { intros i v. rewrite !length_upto. apply Hreg. }
  rewrite length_upto in Hcells1, Hadr1.
  pose proof Hsame1 as (Hr1 & Hc1 & _).
  assert (∀ x y, (0 ≤ x < cols)%Z → (0 ≤ y < rows)%Z →
            ∃ v, terrain !! Z.to_nat (y * cols + x) = Some v
              ∧ cells (geography w1) !! coordPack x y
                = Some (Cell_placed (kind_of archetypes v) x y)) as Hplaced.
  { intros x y Hx Hy.
    destruct (lookup_lt_is_Some_2 terrain (Z.to_nat (y * cols + x))) as [v Hv]; [nia|].
    exists v. split; [done|].
    apply (Hcells1 (Z.to_nat y) y (Z.to_nat x) x v).
    - rewrite upto_lookup by lia. f_equal. lia.
    - rewrite upto_lookup by lia. f_equal. lia.
    - rewrite <- Hv. f_equal. nia. }
  assert (grid_built w1) as Hb1.
  { split_and!; [fold cols in Hc1; lia|fold rows in Hr1; lia|].
    intros x y. rewrite Hr1, Hc1. intros Hx Hy.
    destruct (Hplaced x y Hx Hy) as (v & _ & ->). eauto. }
  destruct (set_neighbours_pass (row_major (upto rows) (upto cols)) w1 Hb1)
    as (r & w' & Hrun2 & Hsame2 & Hb' & Hcells2).
  { intros c Hc. apply elem_of_row_major in Hc as (x & y & Hx & Hy & ->).
    apply elem_of_upto in Hx, Hy. exists x, y. rewrite Hr1, Hc1. fold rows cols.
    split; [done|lia]. }
  exists adr, w'. split.
  { unfold Map_init_grid. fold rows cols. rewrite (bind_Ok _ _ _ _ _ Hrun1). cbv beta iota.
    by rewrite (bind_Ok _ _ _ _ _ Hrun2). }
  split_and!.
  - by eapply same_but_cells_trans.
  - done.
  - intros x y Hx Hy. destruct (Hplaced x y Hx Hy) as (v & Hv & Hcell).
    exists v. split; [done|]. rewrite Hcells2, Hcell. simpl. rewrite Hr1, Hc1.
    destruct (decide _) as [_|Hnin].
    + unfold edge_neighbours_coord. by rewrite coordUnpack_coordPack by lia.
    + exfalso. apply Hnin. apply elem_of_row_major. exists x, y.
      by rewrite !elem_of_upto.
  - intros c. rewrite Hadr1. split.
    + intros (j & y & i & x & v & Hy & Hx & Hv & -> & Hl).
      pose proof (list_elem_of_lookup_2 _ _ _ Hy) as Hyr.
      pose proof (list_elem_of_lookup_2 _ _ _ Hx) as Hxr.
      apply elem_of_upto in Hyr, Hxr.
      pose proof (lookup_lt_Some _ _ _ Hy) as Hjlt.
      pose proof (lookup_lt_Some _ _ _ Hx) as Hilt.
      rewrite length_upto in Hjlt, Hilt.
      rewrite upto_lookup in Hy, Hx by done. inversion Hy; inversion Hx; subst.
      exists (Z.of_nat i), (Z.of_nat j), v. split_and!; try done; try lia.
      rewrite <- Hv. f_equal. nia.
    + intros (x & y & v & Hx & Hy & Hv & -> & Hl).
      exists (Z.to_nat y), y, (Z.to_nat x), x, v. split_and!; try done.
      * rewrite upto_lookup by lia. f_equal. lia.
      * rewrite upto_lookup by lia. f_equal. lia.
      * rewrite <- Hv. f_equal. nia.
  - intros c Hc. rewrite Hcells2.
    destruct (decide _) as [Hin|_].
    + exfalso. apply elem_of_row_major in Hin as (x & y & Hx & Hy & ->).
      apply elem_of_upto in Hx, Hy. by apply (Hc x y).
    + rewrite Hframe1; [by destruct (cells (geography w) !! c)|].
      intros x y Hx Hy. apply elem_of_upto in Hx, Hy. by apply Hc.
Qed.

(** X12.  [Map::init], from the point where the numbers of rows and columns
    are read, on a grid of at most 65536 rows and columns whose terrain
    characters are all registered (or are the name of the zombie kind).
    It creates one cell for every coordinate, row by row: the cell at
    [(x, y)] is of the kind of the character at position [y * cols + x],
    holds the maximum feed of that kind and no animal, and is told the four
    neighbours that [candidatesAt] computes, itself on the low edges and
    the null pointer on the high edges.  [_fullAdrMap] lists all cells row
    by row, [_adrMap] exactly those of a live kind; no other cell and
    nothing else in the world is touched. *)
Theorem Map_init_grid_spec (archetypes : gmap ascii ArchCell) (terrain : list ascii)
    (w : World) :
  let rows := _rows (geography w) in
  let cols := _cols (geography w) in
  (0 ≤ rows ≤ 2 ^ 16)%Z → (0 ≤ cols ≤ 2 ^ 16)%Z →
  (Z.to_nat rows * Z.to_nat cols ≤ length terrain)%nat →
  (∀ i v, (i < Z.to_nat rows * Z.to_nat cols)%nat → terrain !! i = Some v →
          _name (kind_of archetypes v) = v) →
  ∃ adr w',
    Map_init_grid archetypes terrain w = Ok (adr, row_major (upto rows) (upto cols)) w'
    ∧ same_but_cells w w' ∧ grid_built w'
    ∧ (∀ x y, (0 ≤ x < cols)%Z → (0 ≤ y < rows)%Z →
         ∃ v, terrain !! Z.to_nat (y * cols + x) = Some v
           ∧ cells (geography w') !! coordPack x y
             = Some (with_neighbours (edge_neighbours rows cols x y)
                       (Cell_placed (kind_of archetypes v) x y)))
    ∧ (∀ c, c ∈ adr ↔ ∃ x y v, (0 ≤ x < cols)%Z ∧ (0 ≤ y < rows)%Z
                           ∧ terrain !! Z.to_nat (y * cols + x) = Some v
                           ∧ c = coordPack x y ∧ _live (kind_of archetypes v) = true)
    ∧ (∀ c, (∀ x y, (0 ≤ x < cols)%Z → (0 ≤ y < rows)%Z → c ≠ coordPack x y) →
            cells (geography w') !! c = cells (geography w) !! c).
Proof.
  intros rows cols Hrows Hcols Hlen Hreg.
  destruct (Map_init_grid_cells archetypes terrain w Hrows Hcols Hlen Hreg)
    as (adr & w' & Hrun & Hsame & Hb & Hcells & Hadr & Hframe).
  exists adr, w'. by split_and!.
Qed.

Lemma Map_init_grid_spec_witness :
  ∃ adr w',
    Map_init_grid two_kinds strip_file bare_strip
      = Ok (adr, row_major (upto 1) (upto 2)) w'
    ∧ grid_built w'
    ∧ (coordPack 0 0 ∈ adr) ∧ (coordPack 1 0 ∉ adr)
    ∧ cells (geography w') !! coordPack 1 0
      = Some (with_neighbours (edge_neighbours 1 2 1 0) (Cell_placed water 1 0)).
Proof.
  destruct (Map_init_grid_spec two_kinds strip_file bare_strip)
    as (adr & w' & Hrun & _ & Hb & Hcells & Hadr & _).
  - simpl. lia.
  - simpl. lia.
  - simpl. lia.
  - intros [|[|i]] v Hi Hv; simpl in Hi; [| |lia]; inversion Hv; reflexivity.
  - exists adr, w'. split_and!; [exact Hrun|exact Hb| | |].
    + apply Hadr. exists 0%Z, 0%Z, "J"%char. simpl. by split_and!; try lia.
    + intros (x & y & v & Hx & Hy & Hv & Hc & Hl)%Hadr. simpl in Hx, Hy.
      assert (y = 0%Z) as -> by lia.
      assert (x = 0 ∨ x = 1)%Z as [->| ->] by lia; [done|].
      inversion Hv; subst v. done.
    + destruct (Hcells 1%Z 0%Z) as (v & Hv & Hc); [simpl; lia..|].
      inversion Hv; subst v. exact Hc.
Defined.

(** ** From the map file to the first year *)

(** X13.  [Map::init] on a map without cells, before any animal exists,
    leaves a world on which [Simulation::step] can run: cells and animals
    agree, every live cell has four neighbour entries that are null or
    point to cells with a terrain kind, every cell of the map has a terrain
    kind, and [_adrMap], from which [mapMap] draws the cells of a year,
    holds such cells only. *)
Theorem Map_init_grid_ready (archetypes : gmap ascii ArchCell) (terrain : list ascii)
    (gp : nat) (w : World) :
  let rows := _rows (geography w) in
  let cols := _cols (geography w) in
  (0 ≤ rows ≤ 2 ^ 16)%Z → (0 ≤ cols ≤ 2 ^ 16)%Z →
  (Z.to_nat rows * Z.to_nat cols ≤ length terrain)%nat →
  (∀ i v, (i < Z.to_nat rows * Z.to_nat cols)%nat → terrain !! i = Some v →
          _name (kind_of archetypes v) = v) →
  cells (geography w) = ∅ → store w = ∅ → animals w = ∅ →
  (∀ g sp, species w !! g = Some sp → predatory sp = true → g = gp) →
  ∃ adr w',
    Map_init_grid archetypes terrain w = Ok (adr, row_major (upto rows) (upto cols)) w'
    ∧ step_inv gp w' ∧ cells_ok adr w' ∧ grid_built w'
    ∧ (∀ c x, cells (geography w') !! c = Some x → is_Some (archetype x))
    ∧ (∀ c x, cells (geography w') !! c = Some x → habitants x = ∅).
Proof.
  intros rows cols Hrows Hcols Hlen Hreg Hempty Hstore Hanimals Hone.
  destruct (Map_init_grid_cells archetypes terrain w Hrows Hcols Hlen Hreg)
    as (adr & w' & Hrun & Hsame & Hb & Hcells & Hadr & Hframe).
  fold rows cols in Hcells, Hadr, Hframe.
  destruct Hsame as (_ & _ & Hsp & Han & Hst & _).
  assert (∀ c x, cells (geography w') !! c = Some x →
            ∃ x0 y0 v, (0 ≤ x0 < cols)%Z ∧ (0 ≤ y0 < rows)%Z ∧ c = coordPack x0 y0
              ∧ x = with_neighbours (edge_neighbours rows cols x0 y0)
                      (Cell_placed (kind_of archetypes v) x0 y0)) as Hall.
  { intros c x Hc.
    destruct (decide (c ∈ row_major (upto rows) (upto cols))) as [Hin|Hnin].
    - apply elem_of_row_major in Hin as (x0 & y0 & Hx0 & Hy0 & ->).
      apply elem_of_upto in Hx0, Hy0.
      destruct (Hcells x0 y0 Hx0 Hy0) as (v & _ & Hcell).
      exists x0, y0, v. split_and!; try done; try lia.
      rewrite Hcell in Hc. by inversion Hc.
    - rewrite Hframe, Hempty in Hc; [done|].
      intros x0 y0 Hx0 Hy0 ->. apply Hnin, elem_of_row_major.
      exists x0, y0. by rewrite !elem_of_upto. }
  assert (∀ x0 y0, (0 ≤ x0 < cols)%Z → (0 ≤ y0 < rows)%Z →
            ∃ y u, cells (geography w') !! coordPack x0 y0 = Some y
                   ∧ archetype y = Some u) as Hkind.
  { intros x0 y0 Hx0 Hy0. destruct (Hcells x0 y0 Hx0 Hy0) as (v & _ & Hcell).
    eexists _, _. split; [exact Hcell|done]. }
  exists adr, w'. split; [done|]. split_and!.
  - split_and!.
    + split; [split_and!|].
      * intros p c. rewrite Hst, Hstore. split.
        -- intros (x & Hx & Hp). destruct (Hall c x Hx) as (? & ? & ? & _ & _ & _ & ->).
           simpl in Hp. set_solver.
        -- intros (a & Ha & _). by rewrite lookup_empty in Ha.
      * intros c x p Hx Hp. destruct (Hall c x Hx) as (? & ? & ? & _ & _ & _ & ->).
        simpl in Hp. set_solver.
      * intros p a. by rewrite Hst, Hstore, lookup_empty.
      * intros p a. by rewrite Hst, Hstore, lookup_empty.
    + intros p. rewrite Han, Hanimals. set_solver.
    + intros c x t Hx _ _.
      destruct (Hall c x Hx) as (x0 & y0 & v & Hx0 & Hy0 & _ & ->). simpl.
      split; [done|]. intros d Hd. unfold edge_neighbours in Hd.
      rewrite !elem_of_cons, elem_of_nil in Hd.
      destruct Hd as [Hd|[Hd|[Hd|[Hd|[]]]]].
      * inversion Hd; subst d. destruct (x0 =? 0)%Z eqn:E; apply Hkind; lia.
      * inversion Hd; subst d. destruct (y0 =? 0)%Z eqn:E; apply Hkind; lia.
      * destruct (x0 =? cols - 1)%Z eqn:E; [done|]. inversion Hd; subst d.
        apply Hkind; lia.
      * destruct (y0 =? rows - 1)%Z eqn:E; [done|]. inversion Hd; subst d.
        apply Hkind; lia.
    + intros g sp. rewrite Hsp. apply Hone.
  - intros c (x0 & y0 & v & Hx0 & Hy0 & _ & -> & _)%Hadr. by apply Hkind.
  - done.
  - intros c x Hx. by destruct (Hall c x Hx) as (? & ? & ? & _ & _ & _ & ->).
  - intros c x Hx. by destruct (Hall c x Hx) as (? & ? & ? & _ & _ & _ & ->).
Qed.

Lemma Map_init_grid_ready_witness :
  ∃ adr w',
    Map_init_grid two_kinds strip_file bare_strip
      = Ok (adr, row_major (upto 1) (upto 2)) w'
    ∧ step_inv 0 w' ∧ cells_ok adr w'.
Proof.
  destruct (Map_init_grid_ready two_kinds strip_file 0 bare_strip)
    as (adr & w' & Hrun & Hstep & Hcs & _).
  - simpl. lia.
  - simpl. lia.
  - simpl. lia.
  - intros [|[|i]] v Hi Hv; simpl in Hi; [| |lia]; inversion Hv; reflexivity.
  - reflexivity.
  - reflexivity.
  - reflexivity.
  - intros g sp Hg. simpl in Hg. by rewrite lookup_nil in Hg.
  - by exists adr, w'.
Defined.

(** ** A map file with an unknown terrain character *)

Lemma Map_init_row_runs archetypes y xs : ∀ terrain w,
  (length xs ≤ length terrain)%nat →
  (∀ j u, (j < length xs)%nat → terrain !! j = Some u →
          _name (kind_of archetypes u) = u) →
  ∃ adr full w',
    Map_init_row archetypes y xs terrain w = Ok (drop (length xs) terrain, adr, full) w'.
Proof.
  induction xs as [|x xs IH]; intros terrain w Hlen Hgood.
  - by exists [], [], w.
  - destruct terrain as [|value terrain]; [simpl in Hlen; lia|].
    rewrite Map_init_row_cons.
    rewrite (bind_Ok _ _ _ _ _ (Map_init_cell_Ok archetypes x y value w
                                  (Hgood 0%nat value ltac:(simpl; lia) eq_refl))).
    destruct (IH terrain
                (set_cells (insert (coordPack x y)
                              (Cell_placed (kind_of archetypes value) x y)) w))
      as (adr & full & w' & Hrun).
    { simpl in Hlen. lia. }
    { intros j u Hj Hu. apply (Hgood (S j) u); [simpl; lia|done]. }
    rewrite (bind_Ok _ _ _ _ _ Hrun). by eexists _, _, _.
Qed.

Lemma Map_init_row_throws archetypes y xs : ∀ terrain w i v,
  (i < length xs)%nat → terrain !! i = Some v →
  _name (kind_of archetypes v) ≠ v →
  (∀ j u, (j < i)%nat → terrain !! j = Some u → _name (kind_of archetypes u) = u) →
  Map_init_row archetypes y xs terrain w
    = Throw (runtime_error ("Map::init(): undefined terrain type: " ++ String v "")).
Proof.
  induction xs as [|x xs IH]; intros terrain w i v Hi Hv Hbad Hgood.
  - simpl in Hi. lia.
  - destruct terrain as [|value terrain]; [done|].
    rewrite Map_init_row_cons. destruct i as [|i].
    + inversion Hv; subst value. unfold bind, Map_init_cell.
      apply Ascii.eqb_neq in Hbad. by rewrite Hbad.
    + rewrite (bind_Ok _ _ _ _ _ (Map_init_cell_Ok archetypes x y value w
                                    (Hgood 0%nat value ltac:(lia) eq_refl))).
      unfold bind at 1. rewrite (IH terrain _ i v); [done|simpl in Hi; lia|done..|].
      intros j u Hj Hu. apply (Hgood (S j) u); [lia|done].
Qed.

Lemma Map_init_rows_throws archetypes xs : ∀ ys terrain w i v,
  (i < length ys * length xs)%nat → terrain !! i = Some v →
  _name (kind_of archetypes v) ≠ v →
  (∀ j u, (j < i)%nat → terrain !! j = Some u → _name (kind_of archetypes u) = u) →
  Map_init_rows archetypes ys xs terrain w
    = Throw (runtime_error ("Map::init(): undefined terrain type: " ++ String v "")).
Proof.
  induction ys as [|y ys IH]; intros terrain w i v Hi Hv Hbad Hgood.
  - simpl in Hi. lia.
  - rewrite Map_init_rows_cons.
    destruct (decide (i < length xs)%nat) as [Hrow|Hlater].
    + unfold bind at 1.
      by rewrite (Map_init_row_throws archetypes y xs terrain w i v).
    + pose proof (lookup_lt_Some _ _ _ Hv) as Hlen.
      destruct (Map_init_row_runs archetypes y xs terrain w) as (adr & full & w' & Hrun).
      { lia. }
      { intros j u Hj. apply Hgood. lia. }
      rewrite (bind_Ok _ _ _ _ _ Hrun). cbv beta iota.
      unfold bind at 1.
      rewrite (IH (drop (length xs) terrain) w' (i - length xs)%nat v); [done| | |done|].
      * simpl in Hi. lia.
      * rewrite lookup_drop. rewrite <- Hv. f_equal. lia.
      * intros j u Hj. rewrite lookup_drop. apply Hgood. lia.
Qed.

(** X14.  A map file whose grid holds a character that is not the name of
    the terrain kind registered for it stops [Map::init]: the first such
    character among the [rows * cols] characters of the grid raises the
    error that names it, whatever follows it in the file.  A character
    that no terrain kind is registered for is such a character unless it
    is the question mark, the name of the zombie kind. *)
Theorem Map_init_grid_undefined_terrain (archetypes : gmap ascii ArchCell)
    (terrain : list ascii) (w : World) (i : nat) (v : ascii) :
  (i < Z.to_nat (_rows (geography w)) * Z.to_nat (_cols (geography w)))%nat →
  terrain !! i = Some v →
  (∀ j u, (j < i)%nat → terrain !! j = Some u → _name (kind_of archetypes u) = u) →
  _name (kind_of archetypes v) ≠ v ∨ (archetypes !! v = None ∧ v ≠ "?"%char) →
  Map_init_grid archetypes terrain w
    = Throw (runtime_error ("Map::init(): undefined terrain type: " ++ String v "")).
Proof.
  intros Hi Hv Hgood Hbad.
  assert (_name (kind_of archetypes v) ≠ v) as Hname.
  { destruct Hbad as [Hbad|[Hnone Hq]]; [done|].
    unfold kind_of. rewrite Hnone. simpl. congruence. }
  unfold Map_init_grid, bind.
  rewrite (Map_init_rows_throws archetypes _ _ terrain w i v); [done| |done..].
  by rewrite !length_upto.
Qed.

Lemma Map_init_grid_undefined_terrain_witness :
  Map_init_grid two_kinds ["J"; "x"; "H"]%char bare_strip
    = Throw (runtime_error "Map::init(): undefined terrain type: x").
Proof.
  apply (Map_init_grid_undefined_terrain two_kinds ["J"; "x"; "H"]%char bare_strip 1 "x").
  - simpl. lia.
  - reflexivity.
  - intros [|j] u Hj Hu; [|lia]. inversion Hu. reflexivity.
  - right. split; [reflexivity|discriminate].
Defined.

(** ** The year ([Simulation::step]) *)

(** *** What the member functions leave unchanged *)

Lemma bind_inv {A B} (m : M A) (k : A → M B) w b w' :
  bind m k w = Ok b w' → ∃ a w1, m w = Ok a w1 ∧ k a w1 = Ok b w'.
Proof. unfold bind. destruct (m w) as [a w1| |]; [|done..]. intros H. by exists a, w1. Qed.

Lemma frame_refl w : frame w w.
Proof. by unfold frame. Qed.

Lemma frame_trans w0 w1 w2 : frame w0 w1 → frame w1 w2 → frame w0 w2.
Proof. unfold frame. intros (?&?&?&?&?) (?&?&?&?&?). split_and!; congruence. Qed.

Lemma quiet_refl w : quiet w w.
Proof. split; [apply frame_refl|done]. Qed.

Lemma quiet_trans w0 w1 w2 : quiet w0 w1 → quiet w1 w2 → quiet w0 w2.
Proof.
  intros (Hf1 & ? & ?) (Hf2 & ? & ?). split; [by eapply frame_trans|]. split; congruence.
Qed.

Lemma quiet_terrain w w' : quiet w w' → terrain w' = terrain w.
Proof. by intros ((? & _) & _). Qed.

Lemma quiet_ext w w' :
  geography w' = geography w → species w' = species w → animals w' = animals w →
  store w' = store w → randomGen w' = randomGen w → quiet w w'.
Proof.
  intros Hg Hsp Han Hst Hr. unfold quiet, frame, terrain. rewrite Hg, Hst. by split_and!.
Qed.

Lemma Quiet_ret {A} T (a : A) : Quiet T (ret a).
Proof. intros w a' w' _ [= _ <-]. apply quiet_refl. Qed.

Lemma Quiet_undefined {A} T : Quiet T (@undefined A).
Proof. by intros w a w' _ H. Qed.

Lemma Post_bind {A B} T (m : M A) (k : A → M B) (Q : World → B → World → Prop) :
  Quiet T m →
  (∀ a, Post T (k a) (λ w1 b w', ∀ w, quiet w w1 → Q w b w')) →
  Post T (bind m k) Q.
Proof.
  intros Hm Hk w b w' HT H. apply bind_inv in H as (a & w1 & H1 & H2).
  pose proof (Hm w a w1 HT H1) as Hq.
  apply (Hk a w1 b w'); [|done..]. by rewrite (quiet_terrain _ _ Hq).
Qed.

Lemma Quiet_bind {A B} T (m : M A) (k : A → M B) :
  Quiet T m → (∀ a, Quiet T (k a)) → Quiet T (bind m k).
Proof.
  intros Hm Hk. apply Post_bind; [done|]. intros a w1 b w' HT H w Hq.
  eapply quiet_trans; [done|]. by apply (Hk a w1 b w').
Qed.

Lemma Quiet_deref_cell {B} T c (k : Cell → M B) :
  (∀ x, T !! c = Some (tag x) → Quiet T (k x)) → Quiet T (bind (deref_cell c) k).
Proof.
  intros Hk w b w' HT H. apply bind_inv in H as (x & w1 & H1 & H2).
  unfold deref_cell in H1. destruct (cells (geography w) !! c) as [x'|] eqn:Hc; [|done].
  inversion H1; subst x' w1.
  assert (T !! c = Some (tag x)) as HTc.
  { rewrite <- HT. unfold terrain. by rewrite lookup_fmap, Hc. }
  exact (Hk x HTc w b w' HT H2).
Qed.

Lemma Quiet_assign_cell T c x' : T !! c = Some (tag x') → Quiet T (assign_cell c x').
Proof.
  intros Hc w [] w' HT H. unfold assign_cell in H.
  destruct (cells (geography w) !! c); [|done]. inversion H; subst w'.
  unfold quiet, frame, terrain. simpl. split_and!; try done.
  rewrite fmap_insert. fold (terrain w). rewrite HT. by apply insert_id.
Qed.

Lemma Quiet_deref_animal T p : Quiet T (deref_animal p).
Proof.
  intros w a w' _ H. unfold deref_animal in H. destruct (store w !! p); [|done].
  inversion H. apply quiet_refl.
Qed.

Lemma Quiet_assign_animal T p a : Quiet T (assign_animal p a).
Proof.
  intros w [] w' _ H. unfold assign_animal in H.
  destruct (store w !! p) eqn:Hp; [|done]. inversion H; subst w'.
  unfold quiet, frame, terrain. simpl. split_and!; try done.
  rewrite dom_insert_L. apply elem_of_dom_2 in Hp. set_solver.
Qed.

Lemma Quiet_deref_species T g : Quiet T (deref_species g).
Proof.
  intros w a w' _ H. unfold deref_species in H. destruct (species w !! g); [|done].
  inversion H. apply quiet_refl.
Qed.

Lemma Quiet_deref_archetype T x : Quiet T (deref_archetype x).
Proof.
  unfold deref_archetype. destruct (archetype x); [apply Quiet_ret|apply Quiet_undefined].
Qed.

Lemma Quiet_drand T : Quiet T drand.
Proof. intros w a w' _ [= _ <-]. by apply quiet_ext. Qed.

Lemma Quiet_for_each {A B} T (f : A → M B) l :
  (∀ x, Quiet T (f x)) → Quiet T (for_each f l).
Proof.
  intros Hf. induction l as [|x l IH]; simpl; [apply Quiet_ret|].
  apply Quiet_bind; [done|]. intros y. apply Quiet_bind; [done|]. intros ys. apply Quiet_ret.
Qed.

Create HintDb quiet.
#[export] Hint Resolve Quiet_ret Quiet_undefined Quiet_deref_animal Quiet_assign_animal
  Quiet_deref_species Quiet_deref_archetype Quiet_drand : quiet.

(** One step of the proof that a member function is quiet: a known
    function, a cell read or written, a sequence, or a case distinction. *)
Ltac quiet_step :=
  first
    [ solve [auto 1 with quiet nocore]
    | apply Quiet_deref_cell; intros ? ?
    | apply Quiet_assign_cell; assumption
    | apply Quiet_bind; [|intros ?]
    | apply Quiet_for_each; intros ?
    | match goal with
      | |- Quiet _ (if ?b then _ else _) => destruct b
      | |- Quiet _ (match ?o with _ => _ end) => destruct o
      end ].
Ltac quiet_tac := repeat quiet_step.

Lemma Quiet_Cell_addAnimal T c beast : Quiet T (Cell_addAnimal c beast).
Proof. unfold Cell_addAnimal. quiet_tac. Qed.
Lemma Quiet_Cell_removeAnimal T c beast : Quiet T (Cell_removeAnimal c beast).
Proof. unfold Cell_removeAnimal. quiet_tac. Qed.
Lemma Quiet_Cell_graze T c ammount : Quiet T (Cell_graze c ammount).
Proof. unfold Cell_graze. quiet_tac. Qed.
Lemma Quiet_Cell_regrow T c : Quiet T (Cell_regrow c).
Proof. unfold Cell_regrow. quiet_tac. Qed.
Lemma Quiet_Cell_animals T c : Quiet T (Cell_animals c).
Proof. unfold Cell_animals. quiet_tac. Qed.
Lemma Quiet_Cell_neighbours T c : Quiet T (Cell_neighbours c).
Proof. unfold Cell_neighbours. quiet_tac. Qed.
Lemma Quiet_Animal_fitness T p : Quiet T (Animal_fitness p).
Proof. unfold Animal_fitness. quiet_tac. Qed.
Lemma Quiet_Species_willWander T g phi : Quiet T (Species_willWander g phi).
Proof. unfold Species_willWander. quiet_tac. Qed.
Lemma Quiet_Species_die T g phi : Quiet T (Species_die g phi).
Proof. unfold Species_die. quiet_tac. Qed.
Lemma Quiet_Animal_location T p : Quiet T (Animal_location p).
Proof. unfold Animal_location. quiet_tac. Qed.
Lemma Quiet_Animal_adjust T p alder vekt : Quiet T (Animal_adjust p alder vekt).
Proof. unfold Animal_adjust. quiet_tac. Qed.
Lemma Quiet_Animal_age T p : Quiet T (Animal_age p).
Proof. unfold Animal_age. quiet_tac. Qed.
Lemma Quiet_Animal_fatten T p delta_w : Quiet T (Animal_fatten p delta_w).
Proof. unfold Animal_fatten. quiet_tac. Qed.

#[export] Hint Resolve Quiet_Cell_addAnimal Quiet_Cell_removeAnimal Quiet_Cell_graze
  Quiet_Cell_regrow Quiet_Cell_animals Quiet_Cell_neighbours Quiet_Animal_fitness
  Quiet_Species_willWander Quiet_Species_die Quiet_Animal_location Quiet_Animal_adjust
  Quiet_Animal_age Quiet_Animal_fatten : quiet.

Lemma Quiet_Animal_moveTo T p destination : Quiet T (Animal_moveTo p destination).
Proof. unfold Animal_moveTo. quiet_tac. Qed.
Lemma Quiet_Animal_eat T p prey : Quiet T (Animal_eat p prey).
Proof. unfold Animal_eat. quiet_tac. Qed.
Lemma Quiet_Species_birthChance T g beast largeN : Quiet T (Species_birthChance g beast largeN).
Proof. unfold Species_birthChance. quiet_tac. Qed.
Lemma Quiet_part_pred T o : Quiet T (part_pred o).
Proof. unfold part_pred. quiet_tac. Qed.
Lemma Quiet_cellMates_loop T g minAge l : Quiet T (cellMates_loop g minAge l).
Proof. induction l as [|p l IH]; simpl; quiet_tac. Qed.

#[export] Hint Resolve Quiet_Animal_moveTo Quiet_Animal_eat Quiet_Species_birthChance
  Quiet_part_pred Quiet_cellMates_loop : quiet.

Lemma Quiet_Cell_cellMates T c g breedersOnly : Quiet T (Cell_cellMates c g breedersOnly).
Proof. unfold Cell_cellMates. quiet_tac. Qed.
Lemma Quiet_feed_loop T sp beast cellmates : Quiet T (feed_loop sp beast cellmates).
Proof. induction cellmates as [|mate rest IH]; simpl; quiet_tac. Qed.
Lemma Quiet_Animal_die T p : Quiet T (Animal_die p).
Proof. unfold Animal_die. quiet_tac. Qed.
Lemma Quiet_sort_p_fit T l : Quiet T (sort_p_fit l).
Proof. unfold sort_p_fit. destruct l as [|? [|? ?]]; quiet_tac. Qed.
Lemma Quiet_stable_partition T l : Quiet T (stable_partition_part_pred l).
Proof. unfold stable_partition_part_pred. quiet_tac. Qed.

#[export] Hint Resolve Quiet_Cell_cellMates Quiet_feed_loop Quiet_Animal_die
  Quiet_sort_p_fit Quiet_stable_partition : quiet.

Lemma Quiet_Species_feed T g beast : Quiet T (Species_feed g beast).
Proof. unfold Species_feed. quiet_tac. Qed.
#[export] Hint Resolve Quiet_Species_feed : quiet.
Lemma Quiet_Animal_feed T p : Quiet T (Animal_feed p).
Proof. unfold Animal_feed. quiet_tac. Qed.
#[export] Hint Resolve Quiet_Animal_feed : quiet.

(** *** Births and deaths *)

Lemma Post_seq {A B} T (m : M A) (k : A → M B) (R1 : World → A → World → Prop)
    (Q : World → B → World → Prop) :
  Post T m R1 → (∀ w a w1, R1 w a w1 → frame w w1) →
  (∀ a, Post T (k a) (λ w1 b w', ∀ w, R1 w a w1 → Q w b w')) →
  Post T (bind m k) Q.
Proof.
  intros Hm Hfr Hk w b w' HT H. apply bind_inv in H as (a & w1 & H1 & H2).
  pose proof (Hm w a w1 HT H1) as HR.
  apply (Hk a w1 b w'); [|done..]. destruct (Hfr _ _ _ HR) as [-> _]. done.
Qed.

Lemma Post_weaken {A} T (m : M A) (Q Q' : World → A → World → Prop) :
  Post T m Q → (∀ w a w', Q w a w' → Q' w a w') → Post T m Q'.
Proof. intros Hm HQ w a w' HT H. by apply HQ, Hm. Qed.

Lemma grown_quiet w w' : grown ∅ w w' ↔ quiet w w'.
Proof. unfold grown, quiet. by rewrite union_empty_r_L. Qed.

Lemma grown_trans N1 N2 w0 w1 w2 :
  grown N1 w0 w1 → grown N2 w1 w2 → grown (N1 ∪ N2) w0 w2.
Proof.
  intros (Hf1 & Ha1 & Hd1) (Hf2 & Ha2 & Hd2). split; [by eapply frame_trans|].
  split; [congruence|]. rewrite Hd2, Hd1. set_solver.
Qed.

Lemma grown_frame N w w' : grown N w w' → frame w w'.
Proof. by intros [? _]. Qed.

Lemma quiet_frame w w' : quiet w w' → frame w w'.
Proof. by intros [? _]. Qed.

Lemma tidy_refl w : tidy w w.
Proof. split; [apply frame_refl|done]. Qed.

Lemma tidy_trans w0 w1 w2 : tidy w0 w1 → tidy w1 w2 → tidy w0 w2.
Proof. intros [Hf1 H1] [Hf2 H2]. split; [by eapply frame_trans|]. auto. Qed.

Lemma tidy_frame w w' : tidy w w' → frame w w'.
Proof. by intros [? _]. Qed.

Lemma grown_tidy N w w' : grown N w w' → tidy w w'.
Proof.
  intros (Hf & Ha & Hd). split; [done|]. intros Hl p Hp. rewrite Ha in Hp.
  apply elem_of_dom. rewrite Hd. apply elem_of_union_l. apply elem_of_dom. by apply Hl.
Qed.

Lemma quiet_tidy w w' : quiet w w' → tidy w w'.
Proof. intros H. apply (grown_tidy ∅). by apply grown_quiet. Qed.

Lemma Tidy_of_Quiet {A} T (m : M A) : Quiet T m → Tidy T m.
Proof. intros H. eapply Post_weaken; [exact H|]. intros w a w'. apply quiet_tidy. Qed.

Lemma Tidy_ret {A} T (a : A) : Tidy T (ret a).
Proof. apply Tidy_of_Quiet, Quiet_ret. Qed.

Lemma Tidy_bind {A B} T (m : M A) (k : A → M B) :
  Tidy T m → (∀ a, Tidy T (k a)) → Tidy T (bind m k).
Proof.
  intros Hm Hk. eapply Post_seq; [exact Hm| |].
  - intros w a w1. apply tidy_frame.
  - intros a w1 b w' HT H w Ht. eapply tidy_trans; [done|]. by apply (Hk a w1 b w').
Qed.

Lemma Tidy_for_each {A B} T (f : A → M B) l :
  (∀ x, Tidy T (f x)) → Tidy T (for_each f l).
Proof.
  intros Hf. induction l as [|x l IH]; simpl; [apply Tidy_ret|].
  apply Tidy_bind; [done|]. intros y. apply Tidy_bind; [done|]. intros ys. apply Tidy_ret.
Qed.

Lemma Post_alloc_animal T a : Post T (alloc_animal a) (λ w q w', grown {[q]} w w').
Proof.
  intros w q w' _ [= <- <-]. unfold grown, frame, terrain. simpl.
  split_and!; try done. rewrite dom_insert_L. set_solver.
Qed.

(** [Animal::Animal(type, location)] creates the object that it returns. *)
Lemma Post_Animal_new T type location :
  Post T (Animal_new type location) (λ w q w', grown {[q]} w w').
Proof.
  unfold Animal_new.
  apply Post_bind; [auto with quiet|]. intros sp.
  eapply Post_seq; [apply Post_alloc_animal|by intros ? ? ? [? _]|]. intros p.
  assert (Quiet T (Animal_moveTo p location;;;
                   let* a := deref_animal p in
                   assign_animal p {| isa := isa a; _vekt := _vekt a; _alder := 0;
                                      _loci := _loci a;
                                      _fitness := Species_fitness sp (_vekt a) 0 |};;;
                   ret p)) as Hq by quiet_tac.
  intros w1 q w' HT H w2 Hg w0 Hq0.
  assert (q = p) as ->.
  { apply bind_inv in H as (? & ? & _ & H). apply bind_inv in H as (? & ? & _ & H).
    apply bind_inv in H as (? & ? & _ & H). by inversion H. }
  apply grown_quiet in Hq0. rewrite <- (union_empty_l_L {[p]}).
  eapply grown_trans; [exact Hq0|].
  rewrite <- (union_empty_r_L {[p]}).
  eapply grown_trans; [exact Hg|]. apply grown_quiet. by apply (Hq w1 p w').
Qed.

(** [Animal::breed] creates the object that it returns, if any. *)
Lemma Post_Animal_breed T p :
  Post T (Animal_breed p)
       (λ w r w', grown (match r with Some q => {[q]} | None => ∅ end) w w').
Proof.
  unfold Animal_breed.
  apply Post_bind; [auto with quiet|]. intros a.
  apply Post_bind; [auto with quiet|]. intros sp.
  destruct (negb (_alder a =? 0)%Z && Species_canBreed sp (_vekt a)).
  - apply Post_bind; [auto with quiet|]. intros [].
    eapply Post_seq; [apply Post_Animal_new|by intros ? ? ? [? _]|]. intros child.
    intros w3 r w' HT [= <- <-] w2 Hg w1 Hq1 w0 Hq0 w Hq.
    apply grown_quiet in Hq, Hq0, Hq1.
    rewrite <- (union_empty_l_L {[child]}). eapply grown_trans; [exact Hq|].
    rewrite <- (union_empty_l_L {[child]}). eapply grown_trans; [exact Hq0|].
    rewrite <- (union_empty_l_L {[child]}). eapply grown_trans; [exact Hq1|]. done.
  - intros w2 r w' HT [= <- <-] w1 Hq1 w0 Hq0.
    apply grown_quiet. by eapply quiet_trans.
Qed.

(** The frame of a run that returned, at the terrain of its first world. *)
Lemma Quiet_run {A} (m : M A) w a w' :
  (∀ T, Quiet T m) → m w = Ok a w' → quiet w w'.
Proof. intros Hq H. by apply (Hq (terrain w) w a w'). Qed.

Lemma Tidy_run {A} (m : M A) w a w' :
  (∀ T, Tidy T m) → m w = Ok a w' → tidy w w'.
Proof. intros Hq H. by apply (Hq (terrain w) w a w'). Qed.

Lemma grown_breed_beasts g largeN l : ∀ w r w',
  breed_beasts g largeN l w = Ok r w' → grown (list_to_set r) w w'.
Proof.
  induction l as [|beast rest IH]; intros w r w' H.
  - inversion H; subst. apply grown_quiet, quiet_refl.
  - rewrite breed_beasts_cons in H.
    apply bind_inv in H as (chance & w1 & H1 & H).
    apply bind_inv in H as (u & w2 & H2 & H).
    apply bind_inv in H as (offspring & w3 & H3 & H).
    apply bind_inv in H as (retval & w4 & H4 & H).
    inversion H; subst r w4. clear H.
    apply Quiet_run in H1; [|auto with quiet]. apply Quiet_run in H2; [|auto with quiet].
    apply IH in H4.
    assert (grown (match offspring with Some q => {[q]} | None => ∅ end) w2 w3) as Hg3.
    { destruct (Rltb u chance).
      - by apply (Post_Animal_breed (terrain w2) beast w2).
      - inversion H3; subst. apply grown_quiet, quiet_refl. }
    apply grown_quiet in H1, H2.
    assert (list_to_set (match offspring with
                         | Some o => o :: retval
                         | None => retval
                         end) =@{gset positive}
            ∅ ∪ (∅ ∪ (match offspring with Some q => {[q]} | None => ∅ end
                      ∪ list_to_set retval))) as ->.
    { destruct offspring; set_solver. }
    eapply grown_trans; [exact H1|]. eapply grown_trans; [exact H2|].
    eapply grown_trans; [exact Hg3|exact H4].
Qed.

Lemma grown_Cell_breed c genera : ∀ w r w',
  Cell_breed c genera w = Ok r w' → grown (list_to_set r) w w'.
Proof.
  induction genera as [|g rest IH]; intros w r w' H; simpl in H.
  - inversion H; subst. apply grown_quiet, quiet_refl.
  - apply bind_inv in H as (born & w1 & H1 & H).
    apply bind_inv in H as (retval & w2 & H2 & H).
    inversion H; subst r w2. clear H.
    unfold Cell_breed_genus in H1.
    apply bind_inv in H1 as (theseBeasts & w0 & H0 & H1).
    apply Quiet_run in H0; [|auto with quiet]. apply grown_quiet in H0.
    apply grown_breed_beasts in H1. apply IH in H2.
    rewrite list_to_set_app_L. rewrite <- (union_empty_l_L (list_to_set born)).
    rewrite <- (assoc_L (∪)).
    eapply grown_trans; [exact H0|]. eapply grown_trans; [exact H1|exact H2].
Qed.

Lemma Tidy_step_breeding T cs : Tidy T (step_breeding cs).
Proof.
  revert T. induction cs as [|c rest IH]; intros T; simpl; [apply Tidy_ret|].
  intros w [] w' HT H. apply bind_inv in H as (newBeasts & w1 & H1 & H).
  apply bind_inv in H as ([] & w2 & H2 & H).
  inversion H2; subst w2. clear H2. apply grown_Cell_breed in H1.
  apply Tidy_run in H; [|intros; apply IH].
  eapply tidy_trans; [|exact H].
  destruct H1 as (Hf & Ha & Hd). split.
  - destruct Hf as (?&?&?&?&?). unfold frame, terrain in *. simpl. by split_and!.
  - intros Hl p. simpl. rewrite Ha, elem_of_union, elem_of_list_to_set.
    intros Hp. apply elem_of_dom. rewrite Hd. destruct Hp as [Hp|Hp].
    + by apply elem_of_union_r, elem_of_list_to_set.
    + by apply elem_of_union_l, elem_of_dom, Hl.
Qed.

(** [delete p] destroys the object at [p] and no other. *)
Lemma Post_Animal_delete T p :
  Post T (Animal_delete p)
       (λ w _ w', frame w w' ∧ animals w' = animals w
                  ∧ dom (store w') = dom (store w) ∖ {[p]}).
Proof.
  intros w [] w' HT H. unfold Animal_delete in H.
  apply bind_inv in H as (a & w0 & H0 & H).
  apply bind_inv in H as ([] & w1 & H1 & H).
  inversion H; subst w'. clear H.
  apply Quiet_run in H0; [|auto with quiet].
  assert (quiet w0 w1) as Hq1.
  { destruct (_loci a).
    - apply Quiet_run in H1; [done|auto with quiet].
    - inversion H1. apply quiet_refl. }
  destruct (quiet_trans _ _ _ H0 Hq1) as ((?&?&?&?&?) & Ha & Hd).
  unfold frame, terrain in *. simpl. split_and!; try done.
  by rewrite dom_delete_L, Hd.
Qed.

Lemma Tidy_erase_food T food : Tidy T (erase_food food).
Proof.
  revert T. induction food as [|f rest IH]; intros T; simpl; [apply Tidy_ret|].
  intros w [] w' HT H. apply bind_inv in H as ([] & w1 & H1 & H).
  inversion H1; subst w1. clear H1.
  apply bind_inv in H as ([] & w2 & H2 & H).
  apply Tidy_run in H; [|intros; apply IH].
  eapply tidy_trans; [|exact H].
  apply (Post_Animal_delete (terrain (set_animals (λ s, s ∖ {[f]}) w))) in H2; [|done].
  destruct H2 as ((?&?&?&?&?) & Ha & Hd). split.
  - unfold frame, terrain in *. simpl in *. by split_and!.
  - intros Hl p. rewrite Ha. simpl. intros Hp. apply elem_of_dom. rewrite Hd. simpl.
    apply elem_of_difference in Hp as [Hp Hpf]. apply elem_of_difference. split; [|done].
    by apply elem_of_dom, Hl.
Qed.

Lemma Tidy_feeding_loop T l : ∀ pred prey, Tidy T (feeding_loop l pred prey).
Proof.
  revert T. induction l as [|fb rest IH]; intros T pred prey; [apply Tidy_ret|].
  rewrite feeding_loop_cons.
  apply Tidy_bind; [apply Tidy_of_Quiet; auto with quiet|]. intros food.
  destruct food as [|f [|f' food]].
  - apply Tidy_bind; [apply Tidy_erase_food|]. intros []. apply IH.
  - destruct (f =? fb)%positive; [apply IH|].
    apply Tidy_bind; [apply Tidy_erase_food|]. intros []. apply IH.
  - apply Tidy_bind; [apply Tidy_erase_food|]. intros []. apply IH.
Qed.

Lemma Tidy_step_feeding T : Tidy T step_feeding.
Proof.
  unfold step_feeding.
  apply Tidy_bind; [|intros l].
  { apply Tidy_of_Quiet. intros w a w' _ [= <- <-]. apply quiet_refl. }
  apply Tidy_bind; [apply Tidy_of_Quiet; auto with quiet|]. intros l1.
  apply Tidy_bind; [apply Tidy_of_Quiet; auto with quiet|]. intros l2.
  apply Tidy_feeding_loop.
Qed.

Lemma Tidy_step_aging_one T p : Tidy T (step_aging_one p).
Proof.
  unfold step_aging_one.
  apply Tidy_bind; [apply Tidy_of_Quiet; auto with quiet|]. intros [].
  apply Tidy_bind; [apply Tidy_of_Quiet; auto with quiet|]. intros [|]; [|apply Tidy_ret].
  intros w [] w' HT H. apply bind_inv in H as ([] & w1 & H1 & H).
  inversion H; subst w'. clear H.
  apply (Post_Animal_delete (terrain w)) in H1; [|done].
  destruct H1 as ((?&?&?&?&?) & Ha & Hd). split.
  - unfold frame, terrain in *. simpl in *. by split_and!.
  - intros Hl q. simpl. rewrite Ha. intros Hq. apply elem_of_dom. rewrite Hd.
    apply elem_of_difference in Hq as [Hq Hqp]. apply elem_of_difference. split; [|done].
    by apply elem_of_dom, Hl.
Qed.

Lemma Tidy_step_aging T : Tidy T step_aging.
Proof.
  unfold step_aging.
  apply Tidy_bind; [|intros l].
  { apply Tidy_of_Quiet. intros w a w' _ [= <- <-]. apply quiet_refl. }
  apply Tidy_bind; [|intros ?; apply Tidy_ret].
  apply Tidy_for_each. intros p. apply Tidy_step_aging_one.
Qed.

Section WanderingFrame.

Variable nrand : Z → M Z.
Hypothesis nrand_ok : nrand_contract nrand.

Lemma Quiet_nrand T n : (0 < n)%Z → Quiet T (nrand n).
Proof.
  intros Hn w k w' _ H.
  destruct (nrand_ok n w Hn) as (k' & w'' & H' & _ & Hg & Hsp & Ha & Hs & Hr).
  rewrite H in H'. inversion H'; subst. by apply quiet_ext.
Qed.

Lemma Quiet_Animal_wander T p : Quiet T (Animal_wander nrand p).
Proof.
  unfold Animal_wander.
  apply Quiet_bind; [auto with quiet|]. intros a.
  apply Quiet_bind; [auto with quiet|]. intros phi.
  apply Quiet_bind; [auto with quiet|]. intros [|]; [|apply Quiet_ret].
  apply Quiet_bind; [auto with quiet|]. intros l.
  apply Quiet_bind; [auto with quiet|]. intros nb.
  apply Quiet_bind; [apply Quiet_nrand; lia|]. intros k.
  destruct (if (0 <=? k)%Z then nb !! Z.to_nat k else None); quiet_tac.
Qed.

Lemma Quiet_Cell_wander T c : Quiet T (Cell_wander nrand c).
Proof.
  unfold Cell_wander. apply Quiet_deref_cell. intros x _.
  destruct (decide _); [apply Quiet_ret|].
  apply Quiet_bind; [|intros ?; apply Quiet_ret].
  apply Quiet_for_each. intros p. apply Quiet_Animal_wander.
Qed.

Lemma Quiet_step_wander_cell T c : Quiet T (step_wander_cell nrand c).
Proof.
  unfold step_wander_cell.
  apply Quiet_bind; [auto with quiet|]. intros residents.
  apply Quiet_bind; [|intros ?; auto with quiet].
  destruct (negb _); [apply Quiet_Cell_wander|apply Quiet_ret].
Qed.

Lemma Quiet_step_wandering T cs : Quiet T (step_wandering nrand cs).
Proof.
  unfold step_wandering. apply Quiet_bind; [|intros ?; apply Quiet_ret].
  apply Quiet_for_each. intros c. apply Quiet_step_wander_cell.
Qed.

Lemma Tidy_Simulation_step T cs : Tidy T (Simulation_step nrand cs).
Proof.
  unfold Simulation_step.
  apply Tidy_bind; [apply Tidy_step_aging|]. intros [].
  apply Tidy_bind; [apply Tidy_of_Quiet, Quiet_step_wandering|]. intros [].
  apply Tidy_bind; [apply Tidy_step_breeding|]. intros []. apply Tidy_step_feeding.
Qed.

End WanderingFrame.

(** *** Aging, weight loss and death *)

Lemma Animal_delete_at w p a l y :
  store w !! p = Some a → _loci a = Some l → cells (geography w) !! l = Some y →
  Animal_delete p w =
    Ok tt (set_store (delete p)
             (set_cells (insert l (with_habitants (habitants y ∖ {[p]}) y)) w)).
Proof.
  intros Hp Hl Hy. unfold Animal_delete.
  rewrite (bind_Ok _ _ _ _ _ (deref_animal_Ok _ _ _ Hp)), Hl.
  by rewrite (bind_Ok _ _ _ _ _ (Cell_removeAnimal_Ok _ _ _ _ Hy)).
Qed.

(** [Animal::die] in a world of the step: either the animal lives on and
    only its fitness cache and the random sequence moved, or it has left
    its cell and lost its location. *)
Lemma Animal_die_cases w p a sp :
  feeding_inv w → store w !! p = Some a → species w !! isa a = Some sp →
  ∃ death w1, Animal_die p w = Ok death w1
    ∧ (_vekt a = 0%R → death = true)
    ∧ if death : bool then
        ∃ w0 a0 l y, feeding_inv w0 ∧ survive ∅ w w0 ∧ store w0 !! p = Some a0
          ∧ _loci a0 = Some l ∧ cells (geography w0) !! l = Some y
          ∧ geography w0 = geography w ∧ animals w0 = animals w
          ∧ (∀ q, q ≠ p → store w0 !! q = store w !! q)
          ∧ w1 = set_store (insert p (with_loci None a0))
                   (set_cells (insert l (with_habitants (habitants y ∖ {[p]}) y)) w0)
      else feeding_inv w1 ∧ survive ∅ w w1
           ∧ geography w1 = geography w ∧ animals w1 = animals w
           ∧ store w1 = <[p := with_fitness (fitness_value sp a) a]> (store w).
Proof.
  intros Hinv Hp Hsp.
  assert (∀ w0 a0, feeding_inv w0 → survive ∅ w w0 → store w0 !! p = Some a0 →
            geography w0 = geography w → animals w0 = animals w →
            (∀ q, q ≠ p → store w0 !! q = store w !! q) →
            ∃ w1, (let* a' := deref_animal p in
                   match _loci a' with
                   | Some l => Cell_removeAnimal l p
                   | None => ret tt
                   end;;;
                   assign_animal p (with_loci None a');;; ret true) w0 = Ok true w1
              ∧ ∃ w0 a0 l y, feeding_inv w0 ∧ survive ∅ w w0 ∧ store w0 !! p = Some a0
                  ∧ _loci a0 = Some l ∧ cells (geography w0) !! l = Some y
                  ∧ geography w0 = geography w ∧ animals w0 = animals w
                  ∧ (∀ q, q ≠ p → store w0 !! q = store w !! q)
                  ∧ w1 = set_store (insert p (with_loci None a0))
                           (set_cells (insert l (with_habitants (habitants y ∖ {[p]}) y)) w0))
    as Hdead.
  { intros w0 a0 Hinv0 Hs0 Hp0 Hg0 Ha0 Hq0. pose proof Hinv0 as [(Hm & _ & _) Hloc].
    destruct (Hloc p a0 Hp0) as [l Hl].
    destruct (proj2 (Hm p l)) as (y & Hy & _); [eauto|].
    rewrite (bind_Ok _ _ _ _ _ (deref_animal_Ok _ _ _ Hp0)), Hl.
    rewrite (bind_Ok _ _ _ _ _ (Cell_removeAnimal_Ok _ _ _ _ Hy)).
    erewrite (bind_Ok _ _ _ tt); [|by apply (assign_animal_Ok _ _ a0)].
    eexists. split; [done|]. by exists w0, a0, l, y. }
  unfold Animal_die.
  rewrite (bind_Ok _ _ _ _ _ (deref_animal_Ok _ _ _ Hp)).
  destruct (Reqb (_vekt a) 0) eqn:Hzero.
  - rewrite (bind_Ok _ _ _ _ _ (ret_Ok true w)).
    destruct (Hdead w a Hinv (survive_refl w) Hp) as (w1 & -> & H1); [done..|].
    by exists true, w1.
  - apply Reqb_false in Hzero.
    rewrite bind_assoc.
    rewrite (bind_Ok _ _ _ _ _ (Animal_fitness_Ok w p a sp Hp Hsp)).
    set (a2 := with_fitness (fitness_value sp a) a).
    set (w2 := set_store (insert p a2) w).
    assert (feeding_inv w2) as Hinv2 by (by apply (feeding_inv_update w p a)).
    assert (survive ∅ w w2) as Hs2 by (by apply (survive_update w p a)).
    destruct (Species_die_Ok w2 (isa a) sp (fitness_value sp a) Hsp)
      as (death & w3 & Hdie & Hg3 & Ha3 & Hst3 & Hsp3 & _).
    rewrite (bind_Ok _ _ _ _ _ Hdie).
    assert (feeding_inv w3) as Hinv3 by (by apply (feeding_inv_ext w2)).
    assert (survive ∅ w w3) as Hs3 by (by apply (survive_ext _ _ w2)).
    destruct death.
    + destruct (Hdead w3 a2 Hinv3 Hs3) as (w1 & -> & H1).
      { rewrite Hst3. simpl. apply lookup_insert_eq. }
      { by rewrite Hg3. }
      { by rewrite Ha3. }
      { intros q Hq. rewrite Hst3. simpl. by rewrite lookup_insert_ne. }
      exists true, w1. split_and!; [done|done|done].
    + exists false, w3. by split_and!.
Qed.

(** One iteration of the first loop of the step. *)
Lemma step_aging_one_feeding w p a sp :
  feeding_inv w → store w !! p = Some a → species w !! isa a = Some sp →
  let a1 := {| isa := isa a; _vekt := (_vekt a - _sigma sp * _vekt a)%R;
               _alder := wrap_int (_alder a + 1); _loci := _loci a;
               _fitness := ANIMAL_INV |} in
  ∃ w', step_aging_one p w = Ok tt w' ∧ feeding_inv w' ∧ survive {[p]} w w'
    ∧ (∀ q, q ≠ p → store w' !! q = store w !! q)
    ∧ (_vekt a1 = 0%R → store w' !! p = None)
    ∧ ((store w' !! p = None ∧ animals w' = animals w ∖ {[p]}
        ∧ ∃ l y, _loci a = Some l ∧ cells (geography w) !! l = Some y
            ∧ cells (geography w') =
                <[l := with_habitants (habitants y ∖ {[p]}) y]> (cells (geography w)))
       ∨ (store w' !! p = Some (with_fitness (Species_fitness sp (_vekt a1) (_alder a1)) a1)
          ∧ animals w' = animals w ∧ geography w' = geography w)).
Proof.
  intros Hinv Hp Hsp a1.
  unfold step_aging_one, Animal_age.
  rewrite !bind_assoc.
  rewrite (bind_Ok _ _ _ _ _ (deref_animal_Ok _ _ _ Hp)).
  rewrite bind_assoc.
  rewrite (bind_Ok _ _ _ _ _ (deref_species_Ok _ _ _ Hsp)).
  rewrite (bind_Ok _ _ _ _ _ (assign_animal_Ok _ _ _ _ Hp)).
  change {| isa := isa a; _vekt := (_vekt a - Species_weightloss sp (_vekt a))%R;
            _alder := wrap_int (_alder a + 1); _loci := _loci a; _fitness := ANIMAL_INV |}
    with a1.
  set (w1 := set_store (insert p a1) w).
  assert (feeding_inv w1) as Hinv1 by (by apply (feeding_inv_update w p a)).
  assert (survive ∅ w w1) as Hs1 by (by apply (survive_update w p a)).
  assert (store w1 !! p = Some a1) as Hp1 by apply lookup_insert_eq.
  assert (∀ q, q ≠ p → store w1 !! q = store w !! q) as Hq1.
  { intros q Hq. simpl. by rewrite lookup_insert_ne. }
  destruct (Animal_die_cases w1 p a1 sp Hinv1 Hp1 Hsp) as (death & w2 & Hdie & Hzero & Hcase).
  rewrite (bind_Ok _ _ _ _ _ Hdie).
  destruct death.
  - destruct Hcase as (w0 & a0 & l & y & Hinv0 & Hs0 & Hp0 & Hl0 & Hy0 & Hg0 & Ha0 & Hq0 & ->).
    destruct (Animal_delete_feeding w0 p Hinv0) as (wd & Hdel & Hinvd & Hsd & Hnone); [eauto|].
    rewrite (Animal_delete_at w0 p a0 l y Hp0 Hl0 Hy0) in Hdel.
    inversion Hdel; subst wd. clear Hdel.
    set (w3 := set_store (insert p (with_loci None a0)) _).
    assert (store w3 !! p = Some (with_loci None a0)) as Hp3 by apply lookup_insert_eq.
    assert (Animal_delete p w3 =
              Ok tt (set_store (delete p)
                       (set_cells (insert l (with_habitants (habitants y ∖ {[p]}) y)) w0)))
      as Hdel3.
    { unfold Animal_delete.
      rewrite (bind_Ok _ _ _ _ _ (deref_animal_Ok _ _ _ Hp3)). simpl _loci.
      rewrite (bind_Ok _ _ _ _ _ (ret_Ok tt w3)).
      unfold w3, set_store. simpl. by rewrite delete_insert_eq. }
    rewrite (bind_Ok _ _ _ _ _ Hdel3).
    assert (_loci a = Some l) as Hl.
    { destruct Hs0 as (_ & Hold & _). destruct (Hold p a0 Hp0) as (b & Hb & _ & Hlb).
      rewrite Hp1 in Hb. inversion Hb; subst b. simpl in Hlb. congruence. }
    eexists. split; [done|]. split_and!.
    + by eapply feeding_inv_ext; [..|exact Hinvd].
    + apply (survive_ext _ _ (set_store (delete p)
               (set_cells (insert l (with_habitants (habitants y ∖ {[p]}) y)) w0)));
        [done..|].
      apply (survive_trans_l _ w w1); [done|]. by apply (survive_trans_l _ w1 w0).
    + intros q Hq. simpl. rewrite lookup_delete_ne by done. rewrite Hq0 by done. by apply Hq1.
    + intros _. simpl. apply lookup_delete_eq.
    + left. simpl. split_and!.
      * apply lookup_delete_eq.
      * by rewrite Ha0.
      * exists l, y. rewrite Hg0 in Hy0 |- *. done.
  - destruct Hcase as (Hinv2 & Hs2 & Hg2 & Ha2 & Hst2). exists w2. split; [done|].
    split_and!; try done.
    + assert (survive (∅ ∪ ∅) w w2) as Hs by (by eapply survive_trans).
      destruct Hs as (? & ? & Hkeep). split_and!; [done..|].
      intros q b _. apply Hkeep. set_solver.
    + intros q Hq. rewrite Hst2. rewrite lookup_insert_ne by done. by apply Hq1.
    + intros Hz. by specialize (Hzero Hz).
    + right. split_and!; try done.
      rewrite Hst2, lookup_insert_eq. unfold fitness_value. simpl.
      assert (Reqb ANIMAL_INV ANIMAL_INV = true) as -> by (by apply Reqb_true). done.
Qed.

Lemma for_each_aging_feeding l : ∀ w,
  feeding_inv w → NoDup l → (∀ p, p ∈ l → is_Some (store w !! p)) →
  ∃ r w', for_each step_aging_one l w = Ok r w' ∧ feeding_inv w'.
Proof.
  induction l as [|p rest IH]; intros w Hinv Hnd Hl.
  - by exists [], w.
  - apply NoDup_cons in Hnd as [Hp Hnd].
    destruct (Hl p) as [a Ha]; [by left|].
    pose proof Hinv as [(_ & _ & Hv) _]. destruct (Hv p a Ha) as [sp Hsp].
    destruct (step_aging_one_feeding w p a sp Hinv Ha Hsp) as (w1 & H1 & Hinv1 & Hs1 & _).
    destruct (IH w1 Hinv1 Hnd) as (r & w' & Hr & Hinv').
    { intros q Hq. apply (survive_alive {[p]} w w1); [done|set_solver|].
      apply Hl. by right. }
    rewrite for_each_cons, (bind_Ok _ _ _ _ _ H1), (bind_Ok _ _ _ _ _ Hr).
    by eexists _, _.
Qed.

Lemma step_aging_feeding w :
  feeding_inv w → animals_live w → ∃ w', step_aging w = Ok tt w' ∧ feeding_inv w'.
Proof.
  intros Hinv Hlive. unfold step_aging.
  rewrite (bind_Ok _ _ w (elements (animals w)) w) by done.
  destruct (for_each_aging_feeding (elements (animals w)) w Hinv) as (r & w' & Hr & Hinv').
  - apply NoDup_elements.
  - intros p Hp. apply Hlive. by apply elem_of_elements.
  - rewrite (bind_Ok _ _ _ _ _ Hr). by exists w'.
Qed.

(** *** Wandering and regrowth *)

Lemma frame_lookup w w' c :
  frame w w' → (tag <$> cells (geography w') !! c) = (tag <$> cells (geography w) !! c).
Proof.
  intros [Ht _]. unfold terrain in Ht.
  by rewrite <- !lookup_fmap, Ht.
Qed.

Lemma frame_cell w w' c x :
  frame w w' → cells (geography w) !! c = Some x →
  ∃ x', cells (geography w') !! c = Some x' ∧ archetype x' = archetype x
        ∧ _neighbours x' = _neighbours x.
Proof.
  intros Hf Hc. pose proof (frame_lookup w w' c Hf) as H. rewrite Hc in H.
  destruct (cells (geography w') !! c) as [x'|]; [|done].
  inversion H. by exists x'.
Qed.

Lemma frame_sym w w' : frame w w' → frame w' w.
Proof. unfold frame. intros (?&?&?&?&?). by split_and!. Qed.

Lemma neighbours_ok_frame w w' : frame w w' → neighbours_ok w → neighbours_ok w'.
Proof.
  intros Hf Hn c x' t Hc Ht Hlive.
  destruct (frame_cell w' w c x' (frame_sym _ _ Hf) Hc) as (x & Hx & Hax & Hnx).
  destruct (Hn c x t Hx) as [Hlen Hnb]; [congruence..|].
  rewrite <- Hnx. split; [done|]. intros d Hd.
  destruct (Hnb d Hd) as (y & u & Hy & Hu).
  destruct (frame_cell w w' d y Hf Hy) as (y' & Hy' & Hay & _).
  exists y', u. split; [done|congruence].
Qed.

Lemma cells_ok_frame cs w w' : frame w w' → cells_ok cs w → cells_ok cs w'.
Proof.
  intros Hf Hcs c Hc. destruct (Hcs c Hc) as (x & t & Hx & Ht).
  destruct (frame_cell w w' c x Hf Hx) as (x' & Hx' & Hax & _).
  exists x', t. split; [done|congruence].
Qed.

Lemma Species_willWander_Ok w g sp phi :
  species w !! g = Some sp →
  ∃ w', Species_willWander g phi w = Ok (Rltb (randomGen w (drawn w)) (_mu sp * phi)) w'
    ∧ geography w' = geography w ∧ animals w' = animals w ∧ store w' = store w
    ∧ species w' = species w.
Proof.
  intros Hsp. unfold Species_willWander.
  rewrite (bind_Ok _ _ _ _ _ (deref_species_Ok _ _ _ Hsp)).
  unfold drand, bind, ret. by eexists.
Qed.

(** [Animal::moveTo] to a cell with a terrain kind, or to the null
    pointer, in a world of the step: nothing changes, or the animal is
    located at the destination. *)
Lemma Animal_moveTo_feeding w p a destination :
  feeding_inv w → store w !! p = Some a →
  (∀ d, destination = Some d →
        ∃ y u, cells (geography w) !! d = Some y ∧ archetype y = Some u) →
  ∃ moved w', Animal_moveTo p destination w = Ok moved w' ∧ feeding_inv w'
    ∧ (w' = w ∨ ∃ d, destination = Some d
                     ∧ store w' = <[p := with_loci (Some d) a]> (store w)).
Proof.
  intros Hinv Hp Hdest. pose proof Hinv as [(Hm & Hlive & Hv) Hloc].
  destruct destination as [d|]; cycle 1.
  { exists false, w. rewrite Animal_moveTo_null. by split_and!; [..|left]. }
  destruct (Hdest d eq_refl) as (x & t & Hd & Ht).
  destruct (_live t) eqn:Hl; cycle 1.
  { exists false, w. rewrite (Animal_moveTo_refused _ _ _ _ _ Hd Ht Hl).
    by split_and!; [..|left]. }
  destruct (decide (_loci a = Some d)) as [E|E].
  - assert (p ∈ habitants x) as Hin.
    { destruct (proj2 (Hm p d)) as (x' & Hx' & Hin); [eauto|]. congruence. }
    exists true, w. rewrite (Animal_moveTo_same _ _ _ _ _ _ Hp E Hd Ht Hl Hin).
    by split_and!; [..|left].
  - destruct (Animal_moveTo_other w p a d x t Hp E Hd Ht Hl)
      as (w' & Hmove & Hs & Hsp & _).
    { intros l El. destruct (proj2 (Hm p l)) as (y & Hy & _); eauto. }
    destruct (Animal_moveTo_other_inv w p a d x t w' Hm Hlive Hp E Hd Ht Hl Hmove)
      as [Hm' Hlive'].
    exists true, w'. split; [done|]. split; [|right; by exists d].
    split; [split_and!; [done..|]|].
    + intros q b. rewrite Hs, Hsp. destruct (decide (p = q)) as [<-|Hq].
      * rewrite lookup_insert_eq. intros [= <-]. simpl. eauto.
      * rewrite lookup_insert_ne by done. apply Hv.
    + intros q b. rewrite Hs. destruct (decide (p = q)) as [<-|Hq].
      * rewrite lookup_insert_eq. intros [= <-]. simpl. eauto.
      * rewrite lookup_insert_ne by done. apply Hloc.
Qed.

Section WanderingSafe.

Variable nrand : Z → M Z.
Hypothesis nrand_ok : nrand_contract nrand.

Lemma Animal_wander_feeding w p a sp :
  feeding_inv w → neighbours_ok w → store w !! p = Some a →
  species w !! isa a = Some sp →
  ∃ w' a',
    Animal_wander nrand p w
      = Ok (Rltb (randomGen w (drawn w)) (_mu sp * fitness_value sp a)) w'
    ∧ feeding_inv w'
    ∧ (∀ q, q ≠ p → store w' !! q = store w !! q)
    ∧ store w' !! p = Some a'
    ∧ isa a' = isa a ∧ _vekt a' = _vekt a ∧ _alder a' = _alder a
    ∧ _fitness a' = fitness_value sp a
    ∧ (_loci a' = _loci a
       ∨ (Rltb (randomGen w (drawn w)) (_mu sp * fitness_value sp a) = true
          ∧ ∃ l x d, _loci a = Some l ∧ cells (geography w) !! l = Some x
              ∧ Some d ∈ _neighbours x ∧ _loci a' = Some d)).
Proof.
  intros Hinv Hnb Hp Hsp.
  unfold Animal_wander.
  rewrite (bind_Ok _ _ _ _ _ (deref_animal_Ok _ _ _ Hp)).
  rewrite (bind_Ok _ _ _ _ _ (Animal_fitness_Ok w p a sp Hp Hsp)).
  set (a1 := with_fitness (fitness_value sp a) a).
  set (w1 := set_store (insert p a1) w).
  assert (feeding_inv w1) as Hinv1 by (by apply (feeding_inv_update w p a)).
  destruct (Species_willWander_Ok w1 (isa a) sp (fitness_value sp a) Hsp)
    as (w2 & Hwill & Hg2 & Ha2 & Hst2 & Hsp2).
  rewrite (bind_Ok _ _ _ _ _ Hwill).
  change (randomGen w1 (drawn w1)) with (randomGen w (drawn w)).
  assert (feeding_inv w2) as Hinv2 by (by apply (feeding_inv_ext w1)).
  assert (store w2 !! p = Some a1) as Hp2 by (rewrite Hst2; apply lookup_insert_eq).
  assert (∀ q, q ≠ p → store w2 !! q = store w !! q) as Hq2.
  { intros q Hq. rewrite Hst2. simpl. by rewrite lookup_insert_ne. }
  destruct (Rltb (randomGen w (drawn w)) (_mu sp * fitness_value sp a)) eqn:Hdraw.
  2: { exists w2, a1. split_and!; try done. by left. }
  pose proof Hinv2 as [(Hm2 & Hlive2 & _) Hloc2].
  destruct (Hloc2 p a1 Hp2) as [l Hl].
  destruct (proj2 (Hm2 p l)) as (x & Hx & Hin); [eauto|].
  destruct (Hlive2 l x p Hx Hin) as (t & Ht & Hlt).
  assert (Animal_location p w2 = Ok l w2) as Hlocation.
  { unfold Animal_location. rewrite (bind_Ok _ _ _ _ _ (deref_animal_Ok _ _ _ Hp2)).
    by rewrite Hl. }
  rewrite (bind_Ok _ _ _ _ _ Hlocation).
  assert (Cell_neighbours l w2 = Ok (_neighbours x) w2) as Hnbs.
  { unfold Cell_neighbours. by rewrite (bind_Ok _ _ _ _ _ (deref_cell_Ok _ _ _ Hx)). }
  rewrite (bind_Ok _ _ _ _ _ Hnbs).
  destruct (nrand_ok 4%Z w2 ltac:(lia)) as (k & w3 & Hk & Hrange & Hg3 & Hsp3 & Ha3 & Hst3 & _).
  rewrite (bind_Ok _ _ _ _ _ Hk).
  assert (cells (geography w2) = cells (geography w)) as Hcells by (by rewrite Hg2).
  destruct (Hnb l x t) as [Hlen Hnbx]; [by rewrite <- Hcells|done..|].
  assert ((0 <=? k)%Z = true) as -> by lia.
  destruct (lookup_lt_is_Some_2 (_neighbours x) (Z.to_nat k)) as [destination Hdest];
    [lia|].
  rewrite Hdest.
  assert (feeding_inv w3) as Hinv3 by (by apply (feeding_inv_ext w2)).
  destruct (Animal_moveTo_feeding w3 p a1 destination Hinv3)
    as (moved & w4 & Hmove & Hinv4 & Hcase).
  { by rewrite Hst3. }
  { intros d ->. rewrite Hg3, Hcells. apply Hnbx. by eapply list_elem_of_lookup_2. }
  rewrite (bind_Ok _ _ _ _ _ Hmove).
  destruct Hcase as [-> | (d & -> & Hst4)].
  - exists w3, a1. rewrite Hst3. split_and!; try done. by left.
  - exists w4, (with_loci (Some d) a1). rewrite Hst4, Hst3.
    split_and!; try done.
    + intros q Hq. rewrite lookup_insert_ne by done. by apply Hq2.
    + apply lookup_insert_eq.
    + right. split; [done|]. exists l, x, d. rewrite <- Hcells.
      split_and!; try done. by eapply list_elem_of_lookup_2.
Qed.

Lemma for_each_wander_feeding l : ∀ w,
  feeding_inv w → neighbours_ok w → (∀ p, p ∈ l → is_Some (store w !! p)) →
  ∃ r w', for_each (Animal_wander nrand) l w = Ok r w' ∧ feeding_inv w'.
Proof.
  induction l as [|p rest IH]; intros w Hinv Hnb Hl.
  - by exists [], w.
  - destruct (Hl p) as [a Ha]; [by left|].
    pose proof Hinv as [(_ & _ & Hv) _]. destruct (Hv p a Ha) as [sp Hsp].
    destruct (Animal_wander_feeding w p a sp Hinv Hnb Ha Hsp) as (w1 & a' & H1 & Hinv1 & _).
    pose proof (Quiet_run _ _ _ _ (λ T, Quiet_Animal_wander nrand nrand_ok T p) H1)
      as (Hf & _ & Hdom).
    destruct (IH w1 Hinv1) as (r & w' & Hr & Hinv').
    { by apply (neighbours_ok_frame w). }
    { intros q Hq. apply elem_of_dom. rewrite Hdom. apply elem_of_dom, Hl. by right. }
    rewrite for_each_cons, (bind_Ok _ _ _ _ _ H1), (bind_Ok _ _ _ _ _ Hr).
    by eexists _, _.
Qed.

Lemma Cell_wander_feeding w c x :
  feeding_inv w → neighbours_ok w → cells (geography w) !! c = Some x →
  ∃ w', Cell_wander nrand c w = Ok tt w' ∧ feeding_inv w'.
Proof.
  intros Hinv Hnb Hc. unfold Cell_wander.
  rewrite (bind_Ok _ _ _ _ _ (deref_cell_Ok _ _ _ Hc)).
  destruct (decide _); [by exists w|].
  destruct (for_each_wander_feeding (elements (habitants x)) w Hinv Hnb)
    as (r & w' & Hr & Hinv').
  { intros p Hp. apply elem_of_elements in Hp.
    destruct Hinv as [(Hm & _) _]. destruct (proj1 (Hm p c)) as (a & Ha & _); eauto. }
  rewrite (bind_Ok _ _ _ _ _ Hr). by exists w'.
Qed.

Lemma step_wander_cell_feeding w c :
  feeding_inv w → neighbours_ok w → cells_ok [c] w →
  ∃ w', step_wander_cell nrand c w = Ok tt w' ∧ feeding_inv w'.
Proof.
  intros Hinv Hnb Hcs. destruct (Hcs c) as (x & t & Hx & Ht); [by left|].
  unfold step_wander_cell.
  rewrite (bind_Ok _ _ _ _ _ (Cell_animals_Ok _ _ _ Hx)).
  assert (∃ w1, (if negb (length (elements (habitants x)) =? 0)%nat
                 then Cell_wander nrand c else ret tt) w = Ok tt w1
                ∧ feeding_inv w1 ∧ quiet w w1) as (w1 & H1 & Hinv1 & Hq1).
  { destruct (negb _).
    - destruct (Cell_wander_feeding w c x Hinv Hnb Hx) as (w1 & H1 & Hinv1).
      exists w1. split_and!; [done..|].
      by apply (Quiet_run _ _ _ _ (λ T, Quiet_Cell_wander nrand nrand_ok T c) H1).
    - exists w. split_and!; [done..|]. apply quiet_refl. }
  rewrite (bind_Ok _ _ _ _ _ H1).
  destruct (frame_cell w w1 c x (quiet_frame _ _ Hq1) Hx) as (x1 & Hx1 & Hax1 & _).
  unfold Cell_regrow.
  rewrite (bind_Ok _ _ _ _ _ (deref_cell_Ok _ _ _ Hx1)).
  unfold deref_archetype. rewrite Hax1, Ht.
  rewrite (bind_Ok _ _ w1 t w1) by done.
  rewrite (assign_cell_Ok _ _ _ _ Hx1).
  eexists. split; [done|]. by apply feeding_inv_feed.
Qed.

Lemma step_wandering_feeding cs : ∀ w,
  feeding_inv w → neighbours_ok w → cells_ok cs w →
  ∃ w', step_wandering nrand cs w = Ok tt w' ∧ feeding_inv w'.
Proof.
  unfold step_wandering.
  assert (∀ w, feeding_inv w → neighbours_ok w → cells_ok cs w →
               ∃ r w', for_each (step_wander_cell nrand) cs w = Ok r w' ∧ feeding_inv w')
    as Hloop.
  { induction cs as [|c rest IH]; intros w Hinv Hnb Hcs.
    - by exists [], w.
    - destruct (step_wander_cell_feeding w c Hinv Hnb) as (w1 & H1 & Hinv1).
      { intros c' Hc'. apply Hcs. apply list_elem_of_singleton in Hc' as ->. by left. }
      pose proof (Quiet_run _ _ _ _ (λ T, Quiet_step_wander_cell nrand nrand_ok T c) H1)
        as Hq1.
      destruct (IH w1 Hinv1) as (r & w' & Hr & Hinv').
      { apply (neighbours_ok_frame w w1); [by apply quiet_frame|done]. }
      { apply (cells_ok_frame _ w); [by apply quiet_frame|].
        intros c' Hc'. apply Hcs. by right. }
      rewrite for_each_cons, (bind_Ok _ _ _ _ _ H1), (bind_Ok _ _ _ _ _ Hr).
      by eexists _, _. }
  intros w Hinv Hnb Hcs. destruct (Hloop w Hinv Hnb Hcs) as (r & w' & Hr & Hinv').
  rewrite (bind_Ok _ _ _ _ _ Hr). by exists w'.
Qed.

End WanderingSafe.

(** *** The whole year *)

Lemma step_breeding_feeding cs w :
  feeding_inv w → cells_ok cs w →
  ∃ w', step_breeding cs w = Ok tt w' ∧ feeding_inv w'.
Proof.
  intros [Hinv Hloc] Hcs.
  destruct (step_breeding_inv cs w Hinv) as (w' & Hb & Hinv' & Hborn & _).
  { intros c Hc. destruct (Hcs c Hc) as (x & _ & -> & _). eauto. }
  exists w'. split; [done|]. split; [done|].
  intros p a' Hp'. destruct Hborn as (_ & _ & Hold & Hnew).
  destruct (store w !! p) as [a|] eqn:Hp.
  - destruct (Hold p a Hp) as (a'' & Hp'' & _ & _ & Hl). rewrite Hp' in Hp''.
    inversion Hp''; subst a''. rewrite Hl. by apply (Hloc p a).
  - destruct (Hnew p a' Hp Hp') as (c & -> & _). eauto.
Qed.

Lemma step_inv_tidy gp w w' :
  tidy w w' → step_inv gp w → feeding_inv w' → step_inv gp w'.
Proof.
  intros [Hf Hl] (_ & Hlive & Hnb & Hone) Hinv'. split_and!; [done|by apply Hl| |].
  - by apply (neighbours_ok_frame w).
  - destruct Hf as (_ & -> & _). done.
Qed.

Section StepSafe.

Variable nrand : Z → M Z.
Hypothesis nrand_ok : nrand_contract nrand.

Lemma Simulation_step_inv gp cs w :
  step_inv gp w → cells_ok cs w →
  ∃ r w', Simulation_step nrand cs w = Ok r w' ∧ step_inv gp w' ∧ cells_ok cs w'
    ∧ frame w w'.
Proof.
  intros Hstep Hcs. pose proof Hstep as (Hinv & Hlive & Hnb & Hone).
  unfold Simulation_step.
  destruct (step_aging_feeding w Hinv Hlive) as (w1 & H1 & Hinv1).
  pose proof (Tidy_run _ _ _ _ Tidy_step_aging H1) as Ht1.
  pose proof (step_inv_tidy gp w w1 Ht1 Hstep Hinv1) as Hstep1.
  pose proof (cells_ok_frame cs w w1 (tidy_frame _ _ Ht1) Hcs) as Hcs1.
  rewrite (bind_Ok _ _ _ _ _ H1).
  destruct (step_wandering_feeding nrand nrand_ok cs w1 Hinv1) as (w2 & H2 & Hinv2);
    [apply Hstep1|done|].
  pose proof (quiet_tidy _ _ (Quiet_run _ _ _ _
                (λ T, Quiet_step_wandering nrand nrand_ok T cs) H2)) as Ht2.
  pose proof (step_inv_tidy gp w1 w2 Ht2 Hstep1 Hinv2) as Hstep2.
  pose proof (cells_ok_frame cs w1 w2 (tidy_frame _ _ Ht2) Hcs1) as Hcs2.
  rewrite (bind_Ok _ _ _ _ _ H2).
  destruct (step_breeding_feeding cs w2 Hinv2 Hcs2) as (w3 & H3 & Hinv3).
  pose proof (Tidy_run _ _ _ _ (λ T, Tidy_step_breeding T cs) H3) as Ht3.
  pose proof (step_inv_tidy gp w2 w3 Ht3 Hstep2 Hinv3) as Hstep3.
  pose proof (cells_ok_frame cs w2 w3 (tidy_frame _ _ Ht3) Hcs2) as Hcs3.
  rewrite (bind_Ok _ _ _ _ _ H3).
  destruct (step_feeding_single_predatory_species gp w3 Hinv3) as (r & w4 & H4 & Hinv4).
  { intros p a sp _ Hsp Hpred. destruct Hstep3 as (_ & _ & _ & Hone3). by apply (Hone3 _ sp). }
  { apply Hstep3. }
  pose proof (Tidy_run _ _ _ _ Tidy_step_feeding H4) as Ht4.
  exists r, w4. split; [done|]. split_and!.
  - by apply (step_inv_tidy gp w3 w4).
  - by apply (cells_ok_frame cs w3 w4 (tidy_frame _ _ Ht4)).
  - eapply frame_trans; [apply (tidy_frame _ _ Ht1)|].
    eapply frame_trans; [apply (tidy_frame _ _ Ht2)|].
    eapply frame_trans; [apply (tidy_frame _ _ Ht3)|apply (tidy_frame _ _ Ht4)].
Qed.

(** X15.  A year is safe when at most one species is predatory.  In a world
    where cells and animals agree on who lives where, every animal has a
    location and a species, the population consists of living objects and
    every live cell knows four neighbours, [Simulation::step] over any
    vector of cells with a terrain kind runs to its end without touching a
    null or deleted object, and it leaves a world of the same kind, with
    the same terrain and species: the next year can follow.  [nrand] may be
    any generator that returns a number from 0 to 3. *)
Theorem Simulation_step_safe (gp : nat) (cs : list Z) (w : World) :
  step_inv gp w → cells_ok cs w →
  ∃ pred prey w', Simulation_step nrand cs w = Ok (pred, prey) w'
    ∧ step_inv gp w' ∧ cells_ok cs w'
    ∧ terrain w' = terrain w ∧ species w' = species w.
Proof.
  intros Hstep Hcs.
  destruct (Simulation_step_inv gp cs w Hstep Hcs)
    as ([pred prey] & w' & Hrun & Hstep' & Hcs' & Hterrain & Hspecies & _).
  exists pred, prey, w'. by split_and!.
Qed.

End StepSafe.

Lemma nrand_zero_contract : nrand_contract nrand_zero.
Proof. intros n w Hn. exists 0%Z, w. split_and!; [done|lia|done..]. Qed.

Lemma meadow_step_inv : step_inv 1 meadow ∧ cells_ok [coordPack 0 0] meadow.
Proof.
  split; [split_and!; [split; [split_and!|]|..]|].
  - intros p c. simpl. split.
    + intros (x & Hx & Hin). apply lookup_singleton_Some in Hx as [<- <-].
      simpl in Hin. apply elem_of_singleton in Hin as ->.
      exists grazer. by rewrite lookup_singleton_eq.
    + intros (a & Ha & Hl). apply lookup_singleton_Some in Ha as [<- <-].
      injection Hl as <-. exists lone_cell. rewrite lookup_singleton_eq.
      split; [done|]. simpl. set_solver.
  - intros c x p. simpl. intros Hx _. apply lookup_singleton_Some in Hx as [<- <-].
    by exists jungle.
  - intros p a. simpl. intros Ha. apply lookup_singleton_Some in Ha as [<- <-]. by eexists.
  - intros p a. simpl. intros Ha. apply lookup_singleton_Some in Ha as [<- <-]. by eexists.
  - intros p. simpl. intros Hp. apply elem_of_singleton in Hp as ->.
    rewrite lookup_singleton_eq. by eexists.
  - intros c x t. simpl. intros Hx _ _. apply lookup_singleton_Some in Hx as [<- <-].
    split; [done|]. intros d Hd. simpl in Hd.
    assert (d = coordPack 0 0) as ->.
    { apply elem_of_cons in Hd as [Hd|Hd]; [by inversion Hd|].
      apply elem_of_cons in Hd as [Hd|Hd]; [by inversion Hd|].
      apply elem_of_cons in Hd as [Hd|Hd]; [by inversion Hd|].
      apply elem_of_cons in Hd as [Hd|Hd]; [by inversion Hd|]. by inversion Hd. }
    exists lone_cell, jungle. by rewrite lookup_singleton_eq.
  - intros [|[|g]] sp; simpl; intros Hsp Hpred; [|done|done].
    inversion Hsp; subst sp. done.
  - intros c Hc. apply list_elem_of_singleton in Hc as ->.
    exists lone_cell, jungle. simpl. by rewrite lookup_singleton_eq.
Qed.

Lemma Simulation_step_safe_witness :
  ∃ pred prey w', Simulation_step nrand_zero [coordPack 0 0] meadow = Ok (pred, prey) w'
    ∧ step_inv 1 w' ∧ species w' = species meadow.
Proof.
  destruct (Simulation_step_safe nrand_zero nrand_zero_contract 1 [coordPack 0 0] meadow)
    as (pred & prey & w' & Hrun & Hstep & _ & _ & Hsp).
  - apply meadow_step_inv.
  - apply meadow_step_inv.
  - by exists pred, prey, w'.
Defined.

(** *** The passes one by one *)

Lemma for_each_aging_spec l : ∀ w,
  feeding_inv w → NoDup l → (∀ p, p ∈ l → is_Some (store w !! p)) →
  ∃ r w', for_each step_aging_one l w = Ok r w' ∧ feeding_inv w'
    ∧ species w' = species w
    ∧ (∀ q, q ∉ l → store w' !! q = store w !! q ∧ (q ∈ animals w' ↔ q ∈ animals w))
    ∧ ∀ p a sp, p ∈ l → store w !! p = Some a → species w !! isa a = Some sp →
        (store w' !! p = None ∧ p ∉ animals w')
        ∨ (store w' !! p = Some (aged sp a) ∧ _vekt (aged sp a) ≠ 0%R
           ∧ (p ∈ animals w' ↔ p ∈ animals w)).
Proof.
  induction l as [|p rest IH]; intros w Hinv Hnd Hl.
  - exists [], w. split_and!; try done. intros p a sp Hp. by inversion Hp.
  - apply NoDup_cons in Hnd as [Hp Hnd].
    destruct (Hl p) as [a Ha]; [by left|].
    pose proof Hinv as [(_ & _ & Hv) _]. destruct (Hv p a Ha) as [sp Hsp].
    destruct (step_aging_one_feeding w p a sp Hinv Ha Hsp)
      as (w1 & H1 & Hinv1 & Hs1 & Hq1 & Hzero & Hcase).
    destruct (IH w1 Hinv1 Hnd) as (r & w' & Hr & Hinv' & Hsp' & Hout & Hin).
    { intros q Hq. apply (survive_alive {[p]} w w1); [done|set_solver|].
      apply Hl. by right. }
    rewrite for_each_cons, (bind_Ok _ _ _ _ _ H1), (bind_Ok _ _ _ _ _ Hr).
    assert (species w1 = species w) as Hsp1 by apply Hs1.
    assert (∀ q, q ≠ p → (q ∈ animals w1 ↔ q ∈ animals w)) as Han1.
    { intros q Hq. destruct Hcase as [(_ & -> & _) | (_ & -> & _)]; set_solver. }
    eexists _, w'. split; [done|]. split_and!; [done|congruence| |].
    + intros q Hq. apply not_elem_of_cons in Hq as [Hqp Hq].
      destruct (Hout q Hq) as [-> ->]. split; [by apply Hq1|by apply Han1].
    + intros q b sq Hq Hb Hsq. apply elem_of_cons in Hq as [-> | Hq].
      * assert (b = a) as -> by congruence. assert (sq = sp) as -> by congruence.
        destruct (Hout p Hp) as [-> ->].
        destruct Hcase as [(Hnone & -> & _) | (Hsome & -> & _)].
        -- left. split; [done|set_solver].
        -- right. split_and!; [done| |done].
           intros Hz. specialize (Hzero Hz). congruence.
      * assert (q ≠ p) as Hqp by (intros ->; done).
        rewrite <- (Hq1 q Hqp) in Hb. rewrite <- Hsp1 in Hsq.
        destruct (Hin q b sq Hq Hb Hsq) as [[Hn Hnin] | (Hs & Hz & Hiff)]; [by left|].
        right. split_and!; [done..|]. rewrite Hiff. by apply Han1.
Qed.

(** X16.  The first loop of [Simulation::step] ("aging, weight loss and
    death").  In a world of the step it runs to its end, and for every
    animal of the population one of two things holds afterwards.  Either
    the animal is gone: deleted from the store and erased from the
    population.  Or it is still in the population, one year older (the
    age is an [int]: from [INT_MAX] it goes to [INT_MIN]) and lighter by
    [sigma] times its weight, with its species and location unchanged and
    its fitness cache holding the fitness of the new weight and age; its
    new weight is then not 0.  No animal joins the population, and cells
    and animals still agree on who lives where. *)
Theorem step_aging_spec (w : World) :
  feeding_inv w → animals_live w →
  ∃ w', step_aging w = Ok tt w' ∧ feeding_inv w' ∧ animals_live w'
    ∧ animals w' ⊆ animals w
    ∧ ∀ p a sp, p ∈ animals w → store w !! p = Some a → species w !! isa a = Some sp →
        (store w' !! p = None ∧ p ∉ animals w')
        ∨ (store w' !! p = Some (aged sp a) ∧ _vekt (aged sp a) ≠ 0%R ∧ p ∈ animals w'
           ∧ ((- 2 ^ 31 ≤ _alder a < 2 ^ 31 - 1)%Z → _alder (aged sp a) = (_alder a + 1)%Z)
           ∧ (_alder a = (2 ^ 31 - 1)%Z → _alder (aged sp a) = (- 2 ^ 31)%Z)).
Proof.
  intros Hinv Hlive.
  destruct (for_each_aging_spec (elements (animals w)) w Hinv)
    as (r & w' & Hr & Hinv' & Hsp' & Hout & Hin).
  { apply NoDup_elements. }
  { intros p Hp. apply Hlive. by apply elem_of_elements. }
  assert (step_aging w = Ok tt w') as Hrun.
  { unfold step_aging. rewrite (bind_Ok _ _ w (elements (animals w)) w) by done.
    by rewrite (bind_Ok _ _ _ _ _ Hr). }
  exists w'. split; [done|]. split_and!.
  - done.
  - by apply (Tidy_run _ _ _ _ Tidy_step_aging Hrun).
  - intros q Hq. destruct (decide (q ∈ elements (animals w))) as [Hel|Hel].
    + by apply elem_of_elements.
    + apply (Hout q Hel). done.
  - intros p a sp Hp Ha Hsp.
    destruct (Hin p a sp) as [? | (Hs & Hz & Hiff)]; [by apply elem_of_elements|done..|by left|].
    right. split_and!; [done|done|by apply Hiff| |].
    + intros Hage. simpl. unfold wrap_int. rewrite Z.mod_small by lia. lia.
    + intros Hmax. simpl. by rewrite Hmax.
Qed.

Lemma step_aging_spec_witness :
  ∃ w', step_aging meadow = Ok tt w' ∧ feeding_inv w' ∧ animals w' ⊆ animals meadow
    ∧ (store w' !! 1%positive = None
       ∨ _alder <$> store w' !! 1%positive = Some 3%Z).
Proof.
  destruct (step_aging_spec meadow) as (w' & Hrun & Hinv & _ & Hsub & Hall).
  - apply meadow_step_inv.
  - apply meadow_step_inv.
  - exists w'. split_and!; [done..|].
    destruct (Hall 1%positive grazer (unit_species "B" false))
      as [[Hgone _]|(Hkept & _)]; [set_solver|done|done|by left|].
    right. by rewrite Hkept.
Defined.

Section WanderSpec.

Variable nrand : Z → M Z.
Hypothesis nrand_ok : nrand_contract nrand.


End WanderSpec.

(** * The breeding pass: who is counted, and when newborns are merged *)

(** Two computations that continue alike after the same first step. *)
Lemma bind_ext {A B} (m : M A) (k1 k2 : A → M B) w :
  (∀ a w', m w = Ok a w' → k1 a w' = k2 a w') → bind m k1 w = bind m k2 w.
Proof. intros H. unfold bind. destruct (m w) as [a w'| |]; [by apply H|done..]. Qed.

(** The inner loop of [Cell::breed] splits at any animal. *)
Lemma breed_beasts_app g largeN la lb : ∀ w,
  breed_beasts g largeN (la ++ lb) w =
    (let* ra := breed_beasts g largeN la in
     let* rb := breed_beasts g largeN lb in ret (ra ++ rb)) w.
Proof.
  induction la as [|beast la IH]; intros w.
  - simpl. unfold bind, ret. destruct (breed_beasts g largeN lb w); [reflexivity|done..].
  - simpl app. rewrite !breed_beasts_cons.
    rewrite bind_assoc. apply bind_ext. intros chance w1 _. cbv beta.
    rewrite bind_assoc. apply bind_ext. intros u w2 _. cbv beta.
    rewrite bind_assoc. apply bind_ext. intros offspring w3 _. cbv beta.
    unfold bind, ret. rewrite IH. unfold bind, ret.
    destruct (breed_beasts g largeN la w3) as [ra w4| |]; [|done..].
    destruct (breed_beasts g largeN lb w4) as [rb w5| |]; [|done..].
    by destruct offspring.
Qed.

(** When the breeding loop has finished a list of cells, every animal
    created so far is in the population. *)
Lemma step_breeding_merged cs : ∀ w w',
  step_breeding cs w = Ok tt w' →
  animals w ⊆ animals w'
  ∧ ∀ q, q ∉ dom (store w) → q ∈ dom (store w') → q ∈ animals w'.
Proof.
  induction cs as [|c rest IH]; intros w w' H.
  - inversion H; subst. split; [done|]. intros q Hq Hq'. done.
  - simpl in H. apply bind_inv in H as (born & w1 & H1 & H).
    apply bind_inv in H as ([] & w2 & H2 & H).
    inversion H2; subst w2. clear H2.
    apply grown_Cell_breed in H1 as (_ & Han & Hdom).
    destruct (IH _ _ H) as [Hsub Hnew]. simpl in Hsub, Hnew.
    split; [set_solver|].
    intros q Hq Hq'. destruct (decide (q ∈ dom (store w1))) as [Hin|Hout].
    + rewrite Hdom in Hin. apply Hsub. set_solver.
    + by apply Hnew.
Qed.

(** C3 (as amended).  The breeding loop of [Simulation::step] over the
    cells [pre ++ c :: post], followed to the point where [Cell::breed]
    reaches the species [g] in the cell [c]: the cells [pre] are done, and
    so are the species before [g] in [c].  [l0] is what [cellMates] returns
    for [g] in [c] before the pass, and [N] its length.

    Every animal created in a finished cell is by then in the population,
    and every animal created so far is among the habitants of its cell:
    there is no buffer for the whole pass.  Nevertheless the animals that
    [cellMates] now returns for [g] in [c] are those of [l0], the [largeN]
    that [Cell::breed] passes on is [N], and every evaluation of
    [Species::birthChance] for an animal of the list is made with [N] and
    gives [fitness * gamma * (N - 1)], also when the animals before it in
    the list have given birth in the same cell; and the pass runs to its
    end. *)
Theorem breeding_counts_pre_pass (w : World) (pre post : list Z) (c : Z)
    (gpre gpost : list nat) (g : nat) (l0 : list positive) :
  breeding_inv w →
  NoDup (pre ++ c :: post) →
  (∀ c', c' ∈ pre ++ c :: post → is_Some (cells (geography w) !! c')) →
  allSpecies w = gpre ++ g :: gpost →
  Cell_cellMates c g false w = Ok l0 w →
  let N := Z.of_nat (length l0) in
  ∃ wp born w1 theseBeasts,
    step_breeding pre w = Ok tt wp
    ∧ Cell_breed c gpre wp = Ok born w1
    ∧ step_breeding (pre ++ c :: post) w =
        (let* born_g := Cell_breed_genus c g in
         let* born_post := Cell_breed c gpost in
         (λ w0, Ok tt (set_animals (union (list_to_set (born ++ born_g ++ born_post))) w0));;;
         step_breeding post) w1
    ∧ (∀ q, store w !! q = None → is_Some (store wp !! q) → q ∈ animals wp)
    ∧ (∀ q b, store w !! q = None → store w1 !! q = Some b →
         ∃ c' x', _loci b = Some c' ∧ cells (geography w1) !! c' = Some x'
                  ∧ q ∈ habitants x')
    ∧ Cell_cellMates c g false w1 = Ok theseBeasts w1
    ∧ theseBeasts ≡ₚ l0
    ∧ Cell_breed_genus c g w1 = breed_beasts g N theseBeasts w1
    ∧ (∀ la beast lb, theseBeasts = la ++ beast :: lb →
         ∃ ra w2 sp b w3,
           breed_beasts g N la w1 = Ok ra w2
           ∧ species w2 !! g = Some sp ∧ store w2 !! beast = Some b
           ∧ isa b = g ∧ _loci b = Some c
           ∧ (∀ q b', store w !! q = None → store w2 !! q = Some b' →
                ∃ c' x', _loci b' = Some c' ∧ cells (geography w2) !! c' = Some x'
                         ∧ q ∈ habitants x')
           ∧ Species_birthChance g beast N w2
             = Ok (fitness_value sp b * _gamma sp * IZR (N - 1))%R w3
           ∧ breed_beasts g N theseBeasts w1 =
               (let* u := drand in
                let* offspring :=
                  if Rltb u (fitness_value sp b * _gamma sp * IZR (N - 1))
                  then Animal_breed beast else ret None in
                let* rb := breed_beasts g N lb in
                ret (ra ++ match offspring with Some o => o :: rb | None => rb end)) w3)
    ∧ ∃ w', step_breeding (pre ++ c :: post) w = Ok tt w'.
Proof.
  intros Hinv Hnd Hcells Hgen Hl0 N.
  pose proof Hinv as (Hm & _ & _).
  (* the cells before c *)
  destruct (step_breeding_inv pre w Hinv) as (wp & Hpre & Hinvp & Hbp & _).
  { intros c' Hc'. apply Hcells. set_solver. }
  destruct (Hcells c) as [x Hx]; [set_solver|].
  pose proof Hbp as (Hsp & Hcp & _).
  destruct (Hcp c x Hx) as (xp & Hxp & _).
  (* the species before g in c *)
  assert (∀ g', g' ∈ gpre ++ g :: gpost → is_Some (species wp !! g')) as Hvalid.
  { intros g' Hg'. rewrite Hsp. apply allSpecies_valid. by rewrite Hgen. }
  destruct (Cell_breed_inv c gpre wp Hinvp) as (born & w1 & Hbr & Hinv1 & Hb1 & _).
  { eauto. }
  { intros g' Hg'. apply Hvalid. set_solver. }
  pose proof Hb1 as (Hsp1 & Hc1 & _).
  destruct (Hc1 c xp Hxp) as (x1 & Hx1 & _).
  pose proof Hinv1 as (Hm1 & _).
  assert (born_in (λ c' g', c' ∈ pre ∨ (c' = c ∧ g' ∈ gpre)) w w1) as Hb.
  { eapply born_in_trans; [| |exact Hbp|exact Hb1]; simpl; tauto. }
  assert (¬ (c ∈ pre ∨ (c = c ∧ g ∈ gpre))) as Hfresh.
  { apply NoDup_app in Hnd as (_ & Hnd & _).
    assert (NoDup (gpre ++ g :: gpost)) as Hndg.
    { rewrite <- Hgen. apply NoDup_seq. }
    apply NoDup_app in Hndg as (_ & Hndg & _).
    intros [Hin|[_ Hin]].
    - apply (Hnd c Hin). set_solver.
    - apply (Hndg g Hin). set_solver. }
  (* the two counts *)
  rewrite (Cell_cellMates_Ok w c x g false Hm Hx) in Hl0.
  injection Hl0 as Hl0.
  set (theseBeasts := filter (λ p, is_mate w1 g 0 p = true) (elements (habitants x1))).
  pose proof (Cell_cellMates_Ok w1 c x1 g false Hm1 Hx1) as Hmates.
  fold theseBeasts in Hmates.
  assert (theseBeasts ≡ₚ l0) as Hperm.
  { rewrite <- Hl0. by apply (mates_stable _ w w1 c g 0 x x1 Hm Hm1 Hb). }
  assert (Z.of_nat (length theseBeasts) = N) as HN.
  { unfold N. by rewrite Hperm. }
  assert (Cell_breed_genus c g w1 = breed_beasts g N theseBeasts w1) as Hgenus.
  { unfold Cell_breed_genus. rewrite (bind_Ok _ _ _ _ _ Hmates). cbv beta zeta.
    fold theseBeasts.
    by rewrite HN. }
  assert (∀ p, p ∈ theseBeasts →
            ∃ a, store w1 !! p = Some a ∧ isa a = g ∧ _loci a = Some c) as Halive.
  { intros p Hp. apply (elem_of_mates w1 c x1 g 0 p Hm1 Hx1) in Hp as (a & ? & ? & ? & ?).
    eauto. }
  destruct (Hvalid g) as [sp Hspg]; [set_solver|].
  assert (species w1 !! g = Some sp) as Hspg1 by (by rewrite Hsp1).
  (* the whole pass *)
  destruct (step_breeding_inv (pre ++ c :: post) w Hinv Hcells) as (w' & Hall & _).
  exists wp, born, w1, theseBeasts. split_and!; try done.
  - rewrite step_breeding_app, (bind_Ok _ _ _ _ _ Hpre). simpl.
    unfold bind at 1.
    assert (allSpecies wp = gpre ++ g :: gpost) as -> by (unfold allSpecies; by rewrite Hsp).
    rewrite Cell_breed_app, (bind_Ok _ _ _ _ _ Hbr). simpl.
    unfold bind, ret.
    destruct (Cell_breed_genus c g w1) as [born_g w2| |]; [|done..].
    by destruct (Cell_breed c gpost w2) as [born_post w3| |].
  - intros q Hq Hq'. apply (step_breeding_merged pre w wp Hpre).
    + by apply not_elem_of_dom.
    + by apply elem_of_dom.
  - intros q b Hq Hq1. destruct Hb as (_ & _ & _ & Hn).
    destruct (Hn q b Hq Hq1) as (c' & Hc' & _).
    destruct (proj2 (Hm1 q c')) as (x' & Hx' & Hin'); eauto.
  - intros la beast lb Hsplit.
    destruct (breed_beasts_inv g c N la w1 Hinv1) as (ra & w2 & Hra & Hinv2 & Hb2 & _).
    { eauto. }
    { intros p Hp. apply Halive. rewrite Hsplit. set_solver. }
    pose proof Hb2 as (Hsp2 & _).
    assert (species w2 !! g = Some sp) as Hspg2 by (by rewrite Hsp2).
    destruct (born_in_keep _ w1 w2 beast g c Hb2) as (b & Hbeast & Hisa & Hloc).
    { apply Halive. rewrite Hsplit. set_solver. }
    assert (species w2 !! isa b = Some sp) as Hspb by (by rewrite Hisa).
    assert (Species_birthChance g beast N w2
            = Ok (fitness_value sp b * _gamma sp * IZR (N - 1))%R
                 (set_store (insert beast (with_fitness (fitness_value sp b) b)) w2))
      as Hchance.
    { unfold Species_birthChance.
      rewrite (bind_Ok _ _ _ _ _ (deref_species_Ok _ _ _ Hspg2)).
      by rewrite (bind_Ok _ _ _ _ _ (Animal_fitness_Ok w2 beast b sp Hbeast Hspb)). }
    eexists ra, w2, sp, b, _. split_and!; try done.
    + intros q b' Hq Hq2.
      assert (born_in (λ c' g', (c' ∈ pre ∨ (c' = c ∧ g' ∈ gpre)) ∨ (c' = c ∧ g' = g)) w w2)
        as (_ & _ & _ & Hn).
      { eapply born_in_trans; [| |exact Hb|exact Hb2]; simpl; tauto. }
      destruct (Hn q b' Hq Hq2) as (c' & Hc' & _).
      destruct Hinv2 as (Hm2 & _).
      destruct (proj2 (Hm2 q c')) as (x' & Hx' & Hin'); eauto.
    + rewrite Hsplit, breed_beasts_app, (bind_Ok _ _ _ _ _ Hra).
      rewrite breed_beasts_cons. unfold bind at 1 2. rewrite Hchance.
      unfold bind, ret.
      destruct (drand _) as [u w4| |]; [|done..].
      destruct (Rltb u _).
      * destruct (Animal_breed beast w4) as [offspring w5| |]; [|done..].
        by destruct (breed_beasts g N lb w5).
      * by destruct (breed_beasts g N lb w4).
  - by exists w'.
Qed.

(** In [pairing] the first animal of the list that [cellMates] returns,
    animal 2, gives birth when its turn comes. *)
Lemma pairing_first_birth :
  ∃ q w2, breed_beasts 0 2 [2%positive] pairing = Ok [q] w2
    ∧ store pairing !! q = None ∧ is_Some (store w2 !! q).
Proof.
  pose proof pairing_breeding_inv as Hinv.
  set (c0 := coordPack 0 0). set (sp := unit_species "B" false).
  assert (species pairing !! 0%nat = Some sp) as Hsp by done.
  assert (store pairing !! 2%positive = Some (adult c0)) as Hp2 by done.
  set (phi := fitness_value sp (adult c0)).
  assert (0 < phi)%R as Hphi.
  { unfold phi, fitness_value. simpl.
    assert (Reqb ANIMAL_INV ANIMAL_INV = true) as -> by (by apply Reqb_true).
    apply Species_fitness_pos. simpl. lra. }
  set (a2 := with_fitness phi (adult c0)).
  set (w1 := set_store (insert 2%positive a2) pairing).
  assert (Species_birthChance 0 2 2 pairing = Ok (phi * 1 * 1)%R w1) as Hchance.
  { unfold Species_birthChance.
    rewrite (bind_Ok _ _ _ _ _ (deref_species_Ok _ _ _ Hsp)).
    by rewrite (bind_Ok _ _ _ _ _ (Animal_fitness_Ok pairing 2 (adult c0) sp Hp2 Hsp)). }
  assert (breeding_inv w1) as Hinv1 by (by apply (breeding_inv_update pairing 2 (adult c0))).
  set (w2 := {| geography := geography w1; species := species w1;
                animals := animals w1; store := store w1;
                randomGen := randomGen w1; drawn := S (drawn w1) |}).
  assert (breeding_inv w2) as Hinv2 by (by apply (breeding_inv_ext w1)).
  destruct (Animal_breed_inv w2 2 a2 c0 sp Hinv2)
    as (offspring & w3 & Hbreed & _ & _ & _ & Hsome & Hnew); try done.
  destruct Hsome as [q ->].
  { apply andb_true_iff. split; [done|]. apply Rgeb_true. simpl.
    unfold Species_birthloss. simpl. lra. }
  destruct (Hnew q eq_refl) as [Hq2 Hq3].
  exists q, w3. split_and!; [|..|done].
  - rewrite breed_beasts_cons.
    rewrite (bind_Ok _ _ _ _ _ Hchance). unfold drand at 1.
    rewrite (bind_Ok _ _ w1 0%R w2) by done.
    assert (Rltb 0 (phi * 1 * 1) = true) as -> by (apply Rltb_true; lra).
    by rewrite (bind_Ok _ _ _ _ _ Hbreed).
  - simpl in Hq2. destruct (decide (2%positive = q)) as [<-|Hne].
    + by rewrite lookup_insert_eq in Hq2.
    + by rewrite lookup_insert_ne in Hq2.
Qed.

Lemma breeding_counts_pre_pass_witness :
  ∃ q ra w2 sp b w3,
    breed_beasts 0 2 [2%positive] pairing = Ok ra w2
    ∧ q ∈ ra ∧ store pairing !! q = None
    ∧ (∃ b' c' x', store w2 !! q = Some b' ∧ _loci b' = Some c'
                   ∧ cells (geography w2) !! c' = Some x' ∧ q ∈ habitants x')
    ∧ store w2 !! 1%positive = Some b ∧ species w2 !! 0%nat = Some sp
    ∧ Species_birthChance 0 1 2 w2 = Ok (fitness_value sp b * _gamma sp * IZR (2 - 1))%R w3.
Proof.
  pose proof pairing_breeding_inv as Hinv. pose proof Hinv as (Hm & _).
  assert (Cell_cellMates (coordPack 0 0) 0 false pairing
          = Ok [2%positive; 1%positive] pairing) as Hmates0.
  { rewrite (Cell_cellMates_Ok pairing (coordPack 0 0)
               (with_habitants {[ 1%positive; 2%positive ]} (cell_at jungle 0 0)) 0 false Hm);
      [|done].
    f_equal. }
  destruct (breeding_counts_pre_pass pairing [] [coordPack 1 0] (coordPack 0 0) [] [] 0
              [2%positive; 1%positive] Hinv)
    as (wp & born & w1 & theseBeasts & Hpre & Hbr & _ & _ & _ & Hmates & _ & _ & Hevery & _).
  - apply NoDup_cons. split; [set_solver|]. apply NoDup_singleton.
  - intros c' Hc'. simpl.
    apply elem_of_cons in Hc' as [->|Hc']; [by eexists|].
    apply elem_of_cons in Hc' as [->|Hc']; [by eexists|].
    by apply elem_of_nil in Hc'.
  - reflexivity.
  - exact Hmates0.
  - inversion Hpre; subst wp. inversion Hbr; subst w1 born.
    rewrite Hmates0 in Hmates. inversion Hmates; subst theseBeasts.
    destruct (Hevery [2%positive] 1%positive [] eq_refl)
      as (ra & w2 & sp & b & w3 & Hra & Hsp & Hb & _ & _ & Hres & Hchance & _).
    destruct pairing_first_birth as (q & w2' & Hfirst & Hq & [b' Hq2]).
    change (Z.of_nat (length [2%positive; 1%positive])) with 2%Z in Hra, Hchance.
    rewrite Hra in Hfirst. inversion Hfirst; subst ra w2'.
    destruct (Hres q b' Hq Hq2) as (c' & x' & Hloc & Hx' & Hin).
    exists q, [q], w2, sp, b, w3. split_and!; try done.
    + by apply list_elem_of_singleton.
    + by exists b', c', x'.
Defined.
(** * Loading the population ([Simulation::insertAnimal]) *)

(** A cell whose habitants change keeps its terrain entry. *)
Lemma terrain_with_habitants w w' c cell h :
  cells (geography w) !! c = Some cell →
  cells (geography w') = <[c := with_habitants h cell]> (cells (geography w)) →
  terrain w' = terrain w.
Proof.
  intros Hc Hcells. unfold terrain. rewrite Hcells, fmap_insert.
  apply insert_id. by rewrite lookup_fmap, Hc.
Qed.

Lemma neighbours_ok_with_habitants w w' c cell h :
  cells (geography w) !! c = Some cell →
  cells (geography w') = <[c := with_habitants h cell]> (cells (geography w)) →
  neighbours_ok w → neighbours_ok w'.
Proof.
  intros Hc Hcells Hnb c0 x t Hx Ht Hlive.
  assert (∀ d y u, cells (geography w) !! d = Some y → archetype y = Some u →
            ∃ y' u', cells (geography w') !! d = Some y' ∧ archetype y' = Some u')
    as Hkeep.
  { intros d y u Hd Hu. rewrite Hcells.
    destruct (decide (c = d)) as [->|Hne].
    - rewrite lookup_insert_eq. eexists _, u. split; [done|].
      simpl. congruence.
    - rewrite lookup_insert_ne by done. eauto. }
  rewrite Hcells in Hx.
  destruct (decide (c = c0)) as [->|Hne].
  - rewrite lookup_insert_eq in Hx. inversion Hx; subst x. simpl in *.
    destruct (Hnb c0 cell t Hc Ht Hlive) as [Hlen Hd].
    split; [done|]. intros d Hin.
    destruct (Hd d Hin) as (y & u & Hy & Hu). by apply (Hkeep d y u).
  - rewrite lookup_insert_ne in Hx by done.
    destruct (Hnb c0 x t Hx Ht Hlive) as [Hlen Hd].
    split; [done|]. intros d Hin.
    destruct (Hd d Hin) as (y & u & Hy & Hu). by apply (Hkeep d y u).
Qed.

(** X18.  [Simulation::insertAnimal] never spoils a world that is ready
    for [Simulation::step]: on a built grid whose cells all have a terrain
    kind, every record, of a known species or not, for a cell of the grid
    or not, is either placed or dropped without touching a null object;
    the world stays ready for a year, terrain and species are unchanged,
    and a dropped record (the result is the null pointer) changes nothing
    at all. *)
Theorem insertAnimal_keeps_ready (gp : nat) (w : World) (typeName : string) (age : Z)
    (weight : R) (x y : Z) :
  step_inv gp w → grid_built w →
  (∀ c cell, cells (geography w) !! c = Some cell → is_Some (archetype cell)) →
  (0 ≤ x)%Z → (0 ≤ y)%Z →
  ∃ r w', Simulation_insertAnimal_name typeName age weight x y w = Ok r w'
    ∧ step_inv gp w' ∧ grid_built w'
    ∧ terrain w' = terrain w ∧ species w' = species w
    ∧ (r = None → w' = w)
    ∧ (∀ q, r = Some q → store w !! q = None ∧ animals w' = {[q]} ∪ animals w
                         ∧ dom (store w') = {[q]} ∪ dom (store w)).
Proof.
  intros Hstep Hb Hkinds Hx Hy.
  assert (∃ w', Ok (A := option positive) None w = Ok None w'
            ∧ step_inv gp w' ∧ grid_built w'
            ∧ terrain w' = terrain w ∧ species w' = species w
            ∧ (@None positive = None → w' = w)
            ∧ (∀ q, @None positive = Some q → store w !! q = None
                      ∧ animals w' = {[q]} ∪ animals w
                      ∧ dom (store w') = {[q]} ∪ dom (store w))) as Hdropped.
  { exists w. by split_and!. }
  unfold Simulation_insertAnimal_name, Simulation_genus.
  rewrite (bind_Ok _ _ w (genus_from 0 (species w) typeName) w) by done.
  destruct (genus_from 0 (species w) typeName) as [g|] eqn:Hg; cycle 1.
  { exists None. apply Hdropped. }
  destruct (genus_from_Some _ _ _ _ Hg) as (k & sp & -> & Hsp & _). simpl.
  destruct (decide (x < _cols (geography w) ∧ y < _rows (geography w))%Z)
    as [[Hxc Hyr]|Hout]; cycle 1.
  { exists None. unfold Simulation_vivify.
    rewrite bind_assoc, (bind_Ok _ _ _ _ _ (Map_at_xy_outside w x y ltac:(lia))).
    apply Hdropped. }
  destruct Hb as (Hcols & Hrows & Hgrid).
  destruct (Hgrid x y ltac:(lia) ltac:(lia)) as [cell Hcell].
  destruct (Hkinds _ _ Hcell) as [t Ht].
  destruct (_live t) eqn:Hlive; cycle 1.
  { exists None. unfold Simulation_vivify.
    rewrite bind_assoc.
    rewrite (bind_Ok _ _ _ _ _ (Map_at_xy_inside w x y Hxc Hyr (mk_is_Some _ _ Hcell))).
    unfold Cell_addAnimal_query. rewrite !bind_assoc.
    rewrite (bind_Ok _ _ _ _ _ (deref_cell_Ok _ _ _ Hcell)).
    unfold deref_archetype. rewrite Ht.
    rewrite bind_assoc, (bind_Ok _ _ w t w) by done.
    rewrite (bind_Ok _ _ w false w) by (by rewrite Hlive).
    apply Hdropped. }
  destruct (Simulation_insertAnimal_Ok w k sp age weight x y cell t Hsp Hxc Hyr Hcell
              Ht Hlive)
    as (w' & Hrun & Hq & Hst & Han & Hcells & Hspecies & _ & Hr' & Hc' & _ & Hinv').
  set (q := fresh (dom (store w))) in *.
  destruct Hstep as ([Hinv Hloc] & Hlive_an & Hnb & Hone).
  exists (Some q), w'. split; [exact Hrun|]. split_and!.
  - split_and!.
    + split; [by apply Hinv'|].
      intros p a. rewrite Hst. destruct (decide (q = p)) as [<-|Hne].
      * rewrite lookup_insert_eq. intros Ha. inversion Ha. by eexists.
      * rewrite lookup_insert_ne by done. apply Hloc.
    + intros p. rewrite Han, Hst. destruct (decide (q = p)) as [<-|Hne].
      * by rewrite lookup_insert_eq.
      * rewrite lookup_insert_ne by done. intros Hp. apply Hlive_an. set_solver.
    + by apply (neighbours_ok_with_habitants w w' _ _ _ Hcell Hcells).
    + intros g sp0. rewrite Hspecies. apply Hone.
  - unfold grid_built. rewrite Hr', Hc', Hcells. split_and!; [done..|].
    intros x0 y0 Hx0 Hy0.
    destruct (decide (coordPack x y = coordPack x0 y0)) as [<-|Hne].
    + by rewrite lookup_insert_eq.
    + rewrite lookup_insert_ne by done. by apply Hgrid.
  - by apply (terrain_with_habitants w w' _ _ _ Hcell Hcells).
  - done.
  - done.
  - intros q0 Hq0. inversion Hq0; subst q0. split_and!; [done..|].
    rewrite Hst. set_solver.
Qed.

Lemma insertAnimal_keeps_ready_witness :
  ∃ r w', Simulation_insertAnimal_name "B" 3 4 0 0 meadow = Ok r w'
    ∧ step_inv 1 w' ∧ grid_built w'.
Proof.
  destruct (insertAnimal_keeps_ready 1 meadow "B" 3 4 0 0)
    as (r & w' & Hrun & Hstep & Hb & _).
  - apply meadow_step_inv.
  - split_and!; [simpl; lia..|]. intros x y Hx Hy. simpl in Hx, Hy.
    assert (x = 0%Z) as -> by lia. assert (y = 0%Z) as -> by lia.
    exists lone_cell. apply lookup_singleton_eq.
  - intros c cell Hc. unfold meadow in Hc. simpl in Hc.
    apply lookup_singleton_Some in Hc as [_ <-]. by exists jungle.
  - lia.
  - lia.
  - by exists r, w'.
Defined.
